(** * harvester: change propagation, seeding and monitoring

    A shallow embedding of the Go packages [monitor/redis] (poll watcher),
    [monitor/consul] (push watcher), [monitor] (routing and dispatch) and
    [seed] (initial seeding), with the properties of each.

    Conventions.
    - [uint64] is a [Z] in [0, 2^64) and [++] wraps around ([wrap64]).
    - A slice is a [list]; an index outside the slice is a run-time panic,
      which the model makes explicit ([None], or a [Panicked] outcome).
    - A [*change.Change] is an [option Change]: [None] is the nil pointer.
    - A Go [map] is a [gmap]; [range] over a map visits its entries in an
      order the language leaves open, which is a parameter ([range_order]).
    - [log.Debugf] and [log.Errorf] touch nothing that is modelled and are
      left out. *)

From stdpp Require Import gmap strings list fin_maps.
From Stdlib Require Import ZArith Lia.

#[local] Set Warnings "-clear-no-such-hyp".

Open Scope string_scope.
Open Scope list_scope.
Open Scope Z_scope.

(** ** Machine integers *)

Definition wrap64 (z : Z) : Z := z mod 2 ^ 64.

(** ** package config (only what the packages below use) *)

Module config.

(** Modelled from the spec: the type [config.Source] and its constants are
    declared in package config, which is not among the source files. The
    spec gives the closed enumeration seed, env, flag, file, consul,
    redis. *)
Inductive Source : Set :=
| SourceSeed | SourceEnv | SourceFlag | SourceFile | SourceConsul | SourceRedis.

#[global] Instance Source_eq_dec : EqDecision Source.
Proof. solve_decision. Defined.

Definition Source_to_nat (s : Source) : nat :=
  match s with
  | SourceSeed => 0 | SourceEnv => 1 | SourceFlag => 2
  | SourceFile => 3 | SourceConsul => 4 | SourceRedis => 5
  end%nat.

Definition Source_of_nat (n : nat) : option Source :=
  match n with
  | 0 => Some SourceSeed | 1 => Some SourceEnv | 2 => Some SourceFlag
  | 3 => Some SourceFile | 4 => Some SourceConsul | 5 => Some SourceRedis
  | _ => None
  end%nat.

Lemma Source_of_to_nat (s : Source) : Source_of_nat (Source_to_nat s) = Some s.
Proof. by destruct s. Qed.

#[global] Instance Source_countable : Countable Source :=
  inj_countable Source_to_nat Source_of_nat Source_of_to_nat.

(** The text of a source, as [%s] prints it. *)
Definition Source_string (s : Source) : string :=
  match s with
  | SourceSeed => "seed" | SourceEnv => "env" | SourceFlag => "flag"
  | SourceFile => "file" | SourceConsul => "consul" | SourceRedis => "redis"
  end.

(** A [*config.Field] is an address. The descriptor behind it (its name and
    its source-to-key map) never changes; the value cell behind it is
    changed by [Set] only and lives in the field store of the packages
    below. *)
Definition FieldPtr : Set := nat.

(** A Go [error] value. An error is either one that [Field.Set] handed
    back ([FieldErr], with its text), or one that the packages below make
    themselves with [errors.New] or [fmt.Errorf] ([ErrorsNew]). *)
Inductive error : Set :=
| FieldErr (text : string)
| ErrorsNew (text : string).

(** The methods of [*config.Field] that the packages below call. Package
    config is not among the source files, so the methods are a
    parameter: [Name] and [Sources] read the descriptor, [Set] answers with
    an error text or [None] for nil and with the store it leaves behind (a
    failing [Set] may or may not have written). [St] is the state of all
    value cells. *)
Record FieldAPI (St : Type) : Type := mkFieldAPI {
  Name : FieldPtr → string;
  Sources : FieldPtr → gmap Source string;
  Set_ : FieldPtr → string → Z → St → option string * St
}.
Arguments Name {St} _ _.
Arguments Sources {St} _ _.
Arguments Set_ {St} _ _ _ _ _.

(** What a run does to the world outside: calls of [Field.Set] with their
    answers, and the lookups of the seeder. The trace is a record of the
    run in the order of the calls; no function below ever reads it. *)
Inductive event : Set :=
| EvSet (f : FieldPtr) (value : string) (version : Z) (err : option string)
| EvLookupEnv (key : string)
| EvReadFile (path : string)
| EvGet (src : Source) (key : string).

Record World (St : Type) : Type := mkWorld {
  store : St;
  trace : list event
}.
Arguments mkWorld {St} _ _.
Arguments store {St} _.
Arguments trace {St} _.

Definition record_event {St} (ev : event) (w : World St) : World St :=
  {| store := store w; trace := trace w ++ [ev] |}.

(** The call [f.Set(value, version)]. *)
Definition fieldSet {St} (F : FieldAPI St) (f : FieldPtr) (value : string)
    (version : Z) (w : World St) : option string * World St :=
  let '(err, st') := Set_ F f value version (store w) in
  (err, {| store := st'; trace := trace w ++ [EvSet f value version err] |}).

End config.

Export config.

(** ** package change *)

Module change.

(** Modelled from the spec: the type [change.Change] and its constructor
    [change.New] are in package change, which is not among the source
    files. The spec has a change be an immutable event of a source, a key,
    a value (text) and a version (unsigned counter); the callers pass them
    to [New] in this order and read them with [Source()], [Key()],
    [Value()] and [Version()]. *)
Record Change : Set := New {
  Source : config.Source;
  Key : string;
  Value : string;
  Version : Z
}.

End change.

Abbreviation Change := change.Change.

(** A batch on the channel, [[]*change.Change]. *)
Abbreviation Batch := (list (option Change)).

(** ** package monitor/redis: the poll watcher *)

Module redis.

Section Poll.

(** [Watcher.hash]: the hex text of the MD5 digest. The digest function is
    the library's; nothing below depends on which function it is. *)
Variable hash : string → string.

Record Watcher : Type := mkWatcher {
  keys : list string;
  versions : list Z;
  hashes : list string;
  pollInterval : Z
}.

(** [New]. [client] is [None] for a nil client. *)
Definition New {Client : Type} (client : option Client) (pollInterval : Z)
    (keys : list string) : Watcher + string :=
  match client with
  | None => inr "client is nil"
  | Some _ =>
      if decide (pollInterval ≤ 0) then
        inr "poll interval should be a positive number"
      else if decide (length keys = 0%nat) then inr "keys are empty"
      else inl {| keys := keys;
                  versions := replicate (length keys) 0;
                  hashes := replicate (length keys) "";
                  pollInterval := pollInterval |}
  end.

(** The answer of [client.MGet(ctx, keys...).Result()]: an error, or one
    entry per key, [None] for a key that has no value. *)
Inductive MGetResult : Type :=
| MGetErr (err : string)
| MGetOk (values : list (option string)).

(** The state of the loop of [getValues]: the two slices it updates in
    place and the batch built so far. *)
Record loopState : Type := mkLoop {
  l_versions : list Z;
  l_hashes : list string;
  l_changes : Batch
}.

(** One iteration of [for i, key := range w.keys]. [None] is a panic: an
    index out of range. *)
Definition getValues_iter (values : list (option string)) (i : nat)
    (key : string) (st : loopState) : option loopState :=
  match values !! i with
  | None => None
  | Some None => Some st
  | Some (Some value) =>
      let h := hash value in
      match l_hashes st !! i with
      | None => None
      | Some old =>
          if decide (h = old) then Some st
          else
            match l_versions st !! i with
            | None => None
            | Some v =>
                let v' := wrap64 (v + 1) in
                Some {| l_versions := <[i := v']> (l_versions st);
                        l_hashes := <[i := h]> (l_hashes st);
                        l_changes := l_changes st ++
                          [Some (change.New SourceRedis key value v')] |}
            end
      end
  end.

(** The loop, from index [i] on, over the keys that are left. *)
Fixpoint getValues_loop (values : list (option string)) (i : nat)
    (ks : list string) (st : loopState) : option loopState :=
  match ks with
  | [] => Some st
  | key :: ks' =>
      match getValues_iter values i key st with
      | None => None
      | Some st' => getValues_loop values (S i) ks' st'
      end
  end.

(** [getValues]: the watcher after the tick and what was sent on the
    channel ([None]: nothing was sent). The whole result is [None] when the
    tick panics. *)
Definition getValues (w : Watcher) (r : MGetResult)
    : option (Watcher * option Batch) :=
  match r with
  | MGetErr _ => Some (w, None)
  | MGetOk values =>
      match getValues_loop values 0 (keys w)
              {| l_versions := versions w; l_hashes := hashes w;
                 l_changes := [] |} with
      | None => None
      | Some st =>
          let w' := {| keys := keys w; versions := l_versions st;
                       hashes := l_hashes st;
                       pollInterval := pollInterval w |} in
          if decide (length (l_changes st) = 0%nat) then Some (w', None)
          else Some (w', Some (l_changes st))
      end
  end.

(** What the [select] of [monitor] receives: the context is done, or the
    ticker fires and the fetch answers [r]. *)
Inductive pollEvent : Type :=
| CtxDone
| Tick (r : MGetResult).

(** [monitor]: the loop, over the events it meets, with the batches it
    sends in order. [None] when a tick panics. The loop ends at [CtxDone];
    a list that ends before it is a run observed up to that point. *)
Fixpoint monitor (w : Watcher) (evs : list pollEvent)
    : option (Watcher * list Batch) :=
  match evs with
  | [] => Some (w, [])
  | CtxDone :: _ => Some (w, [])
  | Tick r :: evs' =>
      match getValues w r with
      | None => None
      | Some (w', sent) =>
          match monitor w' evs' with
          | None => None
          | Some (w'', out) =>
              Some (w'', match sent with Some b => b :: out | None => out end)
          end
      end
  end.

(** [Watch]: the two checks, then [go w.monitor(ctx, ch)]. [ctx] and [ch]
    are [false] for nil. The result is the error, or [None] when the loop
    [monitor] was started. *)
Definition Watch (ctx ch : bool) : option string :=
  if negb ctx then Some "context is nil"
  else if negb ch then Some "change channel is nil"
  else None.

End Poll.

End redis.

(** ** package monitor/consul: the push watcher *)

Module consul.

(** [Item]. *)
Record Item : Set := mkItem {
  tp : string;
  key : string;
  prefix : string
}.

Definition NewKeyItem (key : string) : Item :=
  {| tp := "key"; key := key; prefix := "" |}.

Definition NewKeyItemWithPrefix (key prefix : string) : Item :=
  {| tp := "key"; key := key; prefix := prefix |}.

Definition NewPrefixItem (key : string) : Item :=
  {| tp := "keyprefix"; key := key; prefix := "" |}.

(** [api.KVPair], the three members the handlers read. [Value] is a byte
    slice; [string(pair.Value)] keeps the bytes, and a [string] here is a
    sequence of bytes. *)
Record KVPair : Set := mkKVPair {
  kv_Key : string;
  kv_Value : string;
  kv_ModifyIndex : Z
}.

(** The [data interface{}] that a plan passes to its handler. *)
Inductive data : Set :=
| DataNil
| DataKVPair (p : KVPair)
| DataKVPairs (pp : list KVPair)
| DataOther.

(** The handler of [createKeyPlanWithPrefix]: what it sends, if anything.
    The plan watches [path.Join(prefix, key)], the change carries [key]. *)
Definition keyHandler (key : string) (idx : Z) (d : data) : option Batch :=
  match d with
  | DataNil => None
  | DataKVPair p =>
      Some [Some (change.New SourceConsul key (kv_Value p)
                    (kv_ModifyIndex p))]
  | _ => None
  end.

(** The loop [for i := 0; i < len(pp); i++ { cc[i] = ... }] with [k]
    iterations left. [None] is an index out of range. *)
Fixpoint keyPrefix_loop (pp : list KVPair) (k : nat) (i : nat) (cc : Batch)
    : option Batch :=
  match k with
  | O => Some cc
  | S k' =>
      match pp !! i with
      | None => None
      | Some p =>
          if decide (i < length cc)%nat then
            keyPrefix_loop pp k' (S i)
              (<[i := Some (change.New SourceConsul (kv_Key p) (kv_Value p)
                              (kv_ModifyIndex p))]> cc)
          else None
      end
  end.

(** The handler of [createKeyPrefixPlan]. The outer [option] is the panic,
    the inner one what is sent on the channel. *)
Definition keyPrefixHandler (idx : Z) (d : data) : option (option Batch) :=
  match d with
  | DataNil => Some None
  | DataKVPairs pp =>
      match keyPrefix_loop pp (length pp) 0
              (replicate (length pp) None) with
      | None => None
      | Some cc => Some (Some cc)
      end
  | _ => Some None
  end.

(** What a plan calls on a notification: the outer [option] is the panic,
    the inner one what is sent on the channel. *)
Abbreviation Handler := (Z → data → option (option Batch)).

(** A [*watch.Plan]: the params it was parsed from and its [Handler]
    ([None] for nil). *)
Record Plan : Type := mkPlan {
  pl_params : gmap string string;
  pl_Handler : option Handler
}.

Section Push.

(** The library around the watcher: the client and its config
    ([api.Config], of which [New] sets [Address] and [WaitTime]),
    [api.DefaultConfig], [api.NewClient], [path.Join], and [watch.Parse],
    which answers with an error for the params it refuses. *)
Variable Client : Type.
Variable Config : Type.
Variable DefaultConfig : Config.
Variable set_Address : string → Config → Config.
Variable set_WaitTime : Z → Config → Config.
Variable NewClient : Config → Client + string.
Variable path_Join : string → string → string.
Variable watch_Parse : gmap string string → option string.

(** [Watcher]; a plan of [pp] is [None] for a nil pointer. *)
Record Watcher : Type := mkWatcher {
  cl : Client;
  dc : string;
  token : string;
  pp : list (option Plan);
  ii : list Item
}.

(** [New]. *)
Definition New (addr dc token : string) (timeout : Z) (ii : list Item)
    : Watcher + string :=
  if decide (addr = "") then inr "address is empty"
  else if decide (length ii = 0%nat) then inr "items are empty"
  else
    let cfg := set_Address addr DefaultConfig in
    let cfg := if decide (0 < timeout) then set_WaitTime timeout cfg
               else cfg in
    match NewClient cfg with
    | inr err => inr err
    | inl cl => inl {| cl := cl; dc := dc; token := token; pp := [];
                       ii := ii |}
    end.

(** [getPlan]. *)
Definition getPlan (w : Watcher) (tp key : string) : Plan + string :=
  let params : gmap string string := ∅ in
  let params := <["datacenter" := dc w]> params in
  let params := <["token" := token w]> params in
  let params := if decide (tp = "key") then <["key" := key]> params
                else <["prefix" := key]> params in
  let params := <["type" := tp]> params in
  match watch_Parse params with
  | Some err => inr err
  | None => inl {| pl_params := params; pl_Handler := None |}
  end.

(** [createKeyPlanWithPrefix]. *)
Definition createKeyPlanWithPrefix (w : Watcher) (key prefix : string)
    : Plan + string :=
  match getPlan w "key" (path_Join prefix key) with
  | inr err => inr err
  | inl pl =>
      inl {| pl_params := pl_params pl;
             pl_Handler := Some (λ idx d, Some (keyHandler key idx d)) |}
  end.

(** [createKeyPrefixPlan]. *)
Definition createKeyPrefixPlan (w : Watcher) (keyPrefix : string)
    : Plan + string :=
  match getPlan w "keyprefix" keyPrefix with
  | inr err => inr err
  | inl pl =>
      inl {| pl_params := pl_params pl;
             pl_Handler := Some keyPrefixHandler |}
  end.

(** What [Watch] leaves behind: the watcher with its plans, the plans
    handed to a goroutine that runs them, in order, and whether the
    goroutine that stops the plans when the context is done was
    started. *)
Record watching : Type := mkWatching {
  w_watcher : Watcher;
  w_running : list (option Plan);
  w_stopper : bool
}.

(** The [switch] on the type of an item. An item of another type gets no
    plan and no error: [pl] stays nil. *)
Definition Watch_plan (w : Watcher) (i : Item) : option Plan + string :=
  if decide (tp i = "key") then
    match createKeyPlanWithPrefix w (key i) (prefix i) with
    | inr err => inr err
    | inl pl => inl (Some pl)
    end
  else if decide (tp i = "keyprefix") then
    match createKeyPrefixPlan w (key i) with
    | inr err => inr err
    | inl pl => inl (Some pl)
    end
  else inl None.

(** The loop of [Watch] over the items. *)
Fixpoint Watch_loop (w : Watcher) (items : list Item)
    (running : list (option Plan)) : watching * option string :=
  match items with
  | [] => ({| w_watcher := w; w_running := running; w_stopper := true |},
           None)
  | i :: items' =>
      match Watch_plan w i with
      | inr err =>
          ({| w_watcher := w; w_running := running; w_stopper := false |},
           Some err)
      | inl pl =>
          Watch_loop {| cl := cl w; dc := dc w; token := token w;
                        pp := pp w ++ [pl]; ii := ii w |}
                     items' (running ++ [pl])
      end
  end.

(** [Watch]. [ctx] and [ch] are [false] for nil. *)
Definition Watch (ctx ch : bool) (w : Watcher) : watching * option string :=
  if negb ctx then
    ({| w_watcher := w; w_running := []; w_stopper := false |},
     Some "context is nil")
  else if negb ch then
    ({| w_watcher := w; w_running := []; w_stopper := false |},
     Some "change channel is nil")
  else Watch_loop w (ii w) [].

End Push.

Arguments cl {Client} _.
Arguments dc {Client} _.
Arguments token {Client} _.
Arguments pp {Client} _.
Arguments ii {Client} _.
Arguments w_watcher {Client} _.
Arguments w_running {Client} _.
Arguments w_stopper {Client} _.
Arguments getPlan {Client} _ _ _ _.
Arguments createKeyPlanWithPrefix {Client} _ _ _ _ _.
Arguments createKeyPrefixPlan {Client} _ _ _.
Arguments Watch_plan {Client} _ _ _ _.
Arguments Watch_loop {Client} _ _ _ _ _.
Arguments Watch {Client} _ _ _ _ _.
Arguments New {Client Config} _ _ _ _ _ _ _ _ _.

End consul.

(** ** package monitor: routing table and dispatch *)

Module monitor.

Abbreviation sourceMap := (gmap Source (gmap string FieldPtr)).

Section Monitor.

Context {St : Type} (F : FieldAPI St).

(** The order in which [range] visits the entries of a map. *)
Variable range_order : ∀ A : Type, list A → list A.

(** The body of the inner loop of [generateMap], for one entry of
    [f.Sources()]. *)
Definition generateMap_entry (f : FieldPtr) (mp : sourceMap)
    (e : Source * string) : sourceMap + error :=
  let '(source, val) := e in
  if decide (source = SourceSeed) then inl mp
  else
    match mp !! source with
    | None => inl (<[source := {[val := f]}]> mp)
    | Some m =>
        match m !! val with
        | Some _ =>
            inr (ErrorsNew (Source_string source +:+ " key " +:+ val +:+
                              " already exists in monitor map"))
        | None => inl (<[source := <[val := f]> m]> mp)
        end
    end.

Fixpoint generateMap_field (f : FieldPtr) (es : list (Source * string))
    (mp : sourceMap) : sourceMap + error :=
  match es with
  | [] => inl mp
  | e :: es' =>
      match generateMap_entry f mp e with
      | inr err => inr err
      | inl mp' => generateMap_field f es' mp'
      end
  end.

Fixpoint generateMap_loop (ff : list FieldPtr) (mp : sourceMap)
    : sourceMap + error :=
  match ff with
  | [] => inl mp
  | f :: ff' =>
      match generateMap_field f
              (range_order _ (map_to_list (Sources F f))) mp with
      | inr err => inr err
      | inl mp' => generateMap_loop ff' mp'
      end
  end.

Definition generateMap (ff : list FieldPtr) : sourceMap + error :=
  generateMap_loop ff ∅.

(** [Monitor]; [W] is the type of the watchers. *)
Record Monitor (W : Type) : Type := mkMonitor {
  cfg : list FieldPtr;
  mp : sourceMap;
  ww : list W
}.
Arguments mkMonitor {W} _ _ _.
Arguments cfg {W} _.
Arguments mp {W} _.
Arguments ww {W} _.

(** [New]. [cfg] is [None] for a nil config, otherwise its [Fields]. *)
Definition New {W : Type} (cfg : option (list FieldPtr)) (ww : list W)
    : Monitor W + error :=
  match cfg with
  | None => inr (ErrorsNew "config is nil")
  | Some fields =>
      if decide (length ww = 0%nat) then inr (ErrorsNew "watchers are empty")
      else
        match generateMap fields with
        | inr err => inr err
        | inl mp => inl {| cfg := fields; mp := mp; ww := ww |}
        end
  end.

(** The loop of [Monitor.Monitor] over the watchers: the watchers whose
    [Watch] was called, in order, and the error that ended the loop.
    [watch] is the answer of a watcher's [Watch]. *)
Fixpoint Monitor_watch {W : Type} (watch : W → option error) (ww : list W)
    : list W * option error :=
  match ww with
  | [] => ([], None)
  | w :: ww' =>
      match watch w with
      | Some err => ([w], Some err)
      | None => let '(started, r) := Monitor_watch watch ww' in
                (w :: started, r)
      end
  end.

(** [applyChange]. [None] is a nil pointer in the batch. *)
Fixpoint applyChange (mp : sourceMap) (cc : Batch) (w : World St)
    : option (World St) :=
  match cc with
  | [] => Some w
  | None :: _ => None
  | Some c :: cc' =>
      match mp !! change.Source c with
      | None => applyChange mp cc' w
      | Some m =>
          match m !! change.Key c with
          | None => applyChange mp cc' w
          | Some fld =>
              let '(err, w') :=
                fieldSet F fld (change.Value c) (change.Version c) w in
              match err with
              | Some _ => applyChange mp cc' w'
              | None => applyChange mp cc' w'
              end
          end
      end
  end.

(** What the [select] of the dispatch task receives. *)
Inductive dispatchEvent : Type :=
| CtxDone
| Recv (c : Batch).

(** [Monitor.monitor], the dispatch loop, over the events it meets. *)
Fixpoint monitor (mp : sourceMap) (evs : list dispatchEvent) (w : World St)
    : option (World St) :=
  match evs with
  | [] => Some w
  | CtxDone :: _ => Some w
  | Recv c :: evs' =>
      match applyChange mp c w with
      | None => None
      | Some w' => monitor mp evs' w'
      end
  end.

End Monitor.

End monitor.

(** ** package seed: the seeder *)

Module seed.

(** The three results of [Getter.Get]. *)
Record GetResult : Set := mkGetResult {
  g_value : option string;
  g_version : Z;
  g_err : option string
}.

(** A [Getter], by its method [Get]. *)
Abbreviation Getter := (string → GetResult).

Record Param : Set := mkParam {
  src : Source;
  getter : Getter
}.

(** [NewParam]; [None] is a nil getter. *)
Definition NewParam (src : Source) (getter : option Getter) : Param + error :=
  match getter with
  | None => inr (ErrorsNew "getter is nil")
  | Some g => inl {| src := src; getter := g |}
  end.

Record Seeder : Set := mkSeeder {
  getters : gmap Source Getter
}.

(** [New]. *)
Definition New (pp : list Param) : Seeder :=
  {| getters := foldl (λ gg p, <[src p := getter p]> gg) ∅ pp |}.

(** The process around the seeder.
    - [LookupEnv] is [os.LookupEnv].
    - [ReadFile] is [ioutil.ReadFile], [None] when it fails.
    - [ParsedFlag key] is what package flag reports for a flag that the
      seeder has defined under the name [key], once [os.Args[1:]] has been
      parsed one argument at a time: [Some v] when [flagSet.Visit] visits
      the flag (it was set on the command line) and its variable holds
      [v], [None] when the flag was not set.
    - [Quote] is [strconv.Quote], with which package flag writes a name
      ([%q]) in the message of a panic. *)
Record OS : Type := mkOS {
  LookupEnv : string → option string;
  ReadFile : string → option string;
  ParsedFlag : string → option string;
  Quote : string → string
}.

(** [strings.HasPrefix]. *)
Definition HasPrefix (s prefix : string) : bool := String.prefix prefix s.

(** [strings.Contains]. *)
Fixpoint Contains (s substr : string) : bool :=
  String.prefix substr s ||
  match s with
  | EmptyString => false
  | String _ s' => Contains s' substr
  end.

(** [FlagSet.Var] of package flag, which [flagSet.StringVar] calls, on the
    flag set named "Harvester flags" in which the names [defined] are
    defined: the message of its panic, [None] when it defines the flag. It
    panics for a name that begins with "-", for a name that contains "=",
    and for a name that is defined already. *)
Definition flagVar (os : OS) (name : string) (defined : list string)
    : option string :=
  if HasPrefix name "-" then
    Some ("flag " +:+ Quote os name +:+ " begins with -")
  else if Contains name "=" then
    Some ("flag " +:+ Quote os name +:+ " contains =")
  else if decide (name ∈ defined) then
    Some ("Harvester flags flag redefined: " +:+ name)
  else None.

(** How a call of [Seed] ends. *)
Inductive outcome : Set :=
| Returned (err : option error)
| Panicked (msg : string).

(** [flagInfo] without its [value] pointer: the variable it points to is
    read through [ParsedFlag]. *)
Record flagInfo : Set := mkFlagInfo {
  fi_key : string;
  fi_field : FieldPtr
}.

Section Seed.

Context {St : Type} (F : FieldAPI St).
Variable range_order : ∀ A : Type, list A → list A.
Variable os : OS.
Variable s : Seeder.

(** The variables of [Seed]: the world, [seedMap] and [flagInfos] (the
    names defined in [flagSet] are the keys of [flagInfos]). *)
Record state : Type := mkState {
  world : World St;
  seedMap : gmap FieldPtr bool;
  flagInfos : list flagInfo
}.

Definition set_world (w : World St) (x : state) : state :=
  {| world := w; seedMap := seedMap x; flagInfos := flagInfos x |}.

(** [seedMap[f] = b]. *)
Definition mark (f : FieldPtr) (b : bool) (x : state) : state :=
  {| world := world x; seedMap := <[f := b]> (seedMap x);
     flagInfos := flagInfos x |}.

(** Where control goes after a statement of the loop body. *)
Inductive ctl : Type :=
| Go (x : state)
| Continue (x : state)
| Return (err : error) (x : state)
| Panic (msg : string) (x : state).

Definition andThen (c : ctl) (k : state → ctl) : ctl :=
  match c with
  | Go x => k x
  | _ => c
  end.

(** [f.Set(value, version)] followed by [return err] or by
    [seedMap[f] = true]. *)
Definition apply (f : FieldPtr) (value : string) (version : Z) (x : state)
    : ctl :=
  let '(err, w') := fieldSet F f value version (world x) in
  match err with
  | Some e => Return (FieldErr e) (set_world w' x)
  | None => Go (mark f true (set_world w' x))
  end.

(** Lines 62-70. *)
Definition seedSeed (f : FieldPtr) (x : state) : ctl :=
  match Sources F f !! SourceSeed with
  | Some val => apply f val 0 x
  | None => Go x
  end.

(** Lines 71-88. *)
Definition seedEnv (f : FieldPtr) (x : state) : ctl :=
  match Sources F f !! SourceEnv with
  | Some key =>
      let x1 := set_world (record_event (EvLookupEnv key) (world x)) x in
      match LookupEnv os key with
      | Some val => apply f val 0 x1
      | None => Go x1
      end
  | None => Go x
  end.

(** Lines 89-94. [flagSet.StringVar] panics for a name that it refuses
    ([flagVar]); the names defined in the flag set are the keys of
    [flagInfos]. *)
Definition seedFlag (f : FieldPtr) (x : state) : ctl :=
  match Sources F f !! SourceFlag with
  | Some key =>
      match flagVar os key (fi_key <$> flagInfos x) with
      | Some msg => Panic msg x
      | None =>
          Go {| world := world x; seedMap := seedMap x;
                flagInfos := flagInfos x ++
                               [{| fi_key := key; fi_field := f |}] |}
      end
  | None => Go x
  end.

(** Lines 95-108. *)
Definition seedFile (f : FieldPtr) (x : state) : ctl :=
  match Sources F f !! SourceFile with
  | Some key =>
      let x1 := set_world (record_event (EvReadFile key) (world x)) x in
      match ReadFile os key with
      | None => Go x1
      | Some body => apply f body 0 x1
      end
  | None => Go x
  end.

(** Lines 109-130 with [src := SourceConsul] and lines 132-153 with
    [src := SourceRedis]: the two blocks differ in the source and in the
    texts only. *)
Definition seedGetter (src : Source) (f : FieldPtr) (x : state) : ctl :=
  match Sources F f !! src with
  | Some key =>
      match getters s !! src with
      | None =>
          Return (ErrorsNew (Source_string src +:+ " getter required")) x
      | Some gtr =>
          let x1 := set_world (record_event (EvGet src key) (world x)) x in
          let r := gtr key in
          match g_err r with
          | Some _ => Continue x1
          | None =>
              match g_value r with
              | None => Continue x1
              | Some value => apply f value (g_version r) x1
              end
          end
      end
  | None => Go x
  end.

(** The body of [for _, f := range cfg.Fields]. *)
Definition seedField (f : FieldPtr) (x : state) : ctl :=
  andThen (seedSeed f (mark f false x)) (λ x,
  andThen (seedEnv f x) (λ x,
  andThen (seedFlag f x) (λ x,
  andThen (seedFile f x) (λ x,
  andThen (seedGetter SourceConsul f x) (λ x,
  seedGetter SourceRedis f x))))).

(** The loop over [cfg.Fields]. *)
Fixpoint seedFields (ff : list FieldPtr) (x : state) : ctl :=
  match ff with
  | [] => Go x
  | f :: ff' =>
      match seedField f x with
      | Go x' | Continue x' => seedFields ff' x'
      | Return err x' => Return err x'
      | Panic msg x' => Panic msg x'
      end
  end.

(** Lines 172-190, the loop over [flagInfos]. *)
Fixpoint applyFlags (fis : list flagInfo) (x : state) : ctl :=
  match fis with
  | [] => Go x
  | fi :: fis' =>
      match ParsedFlag os (fi_key fi) with
      | Some value =>
          andThen (apply (fi_field fi) value 0 x) (applyFlags fis')
      | None => applyFlags fis' x
      end
  end.

(** Lines 156-191. *)
Definition seedFlags (x : state) : ctl :=
  if decide (0 < length (flagInfos x))%nat then applyFlags (flagInfos x) x
  else Go x.

(** Lines 193-201: the text in the builder after the loop over
    [seedMap]. *)
Definition notSeeded (x : state) : string :=
  foldl (λ sb e, if e.2 : bool then sb
                 else sb +:+ ("field " +:+ Name F e.1 +:+ " not seeded"))
        "" (range_order _ (map_to_list (seedMap x))).

(** Lines 193-205. *)
Definition seedResult (x : state) : option error :=
  let sb := notSeeded x in
  if decide (0 < String.length sb)%nat then Some (ErrorsNew sb) else None.

(** [Seeder.Seed]: the world it leaves and how it ends. *)
Definition Seed (cfg : list FieldPtr) (w : World St) : World St * outcome :=
  match seedFields cfg {| world := w; seedMap := ∅; flagInfos := [] |} with
  | Return err x => (world x, Returned (Some err))
  | Panic msg x => (world x, Panicked msg)
  | Go x | Continue x =>
      match seedFlags x with
      | Return err x' => (world x', Returned (Some err))
      | Panic msg x' => (world x', Panicked msg)
      | Go x' | Continue x' => (world x', Returned (seedResult x'))
      end
  end.

End Seed.

End seed.

(** * A value cell and the scenarios *)

Module cell.

(** Modelled from the spec: [config.Field.Set], whose code is in package
    config and not among the source files. The spec has a field be "a
    named, typed, version-gated value cell" whose [Set(textValue, version)]
    "must parse/coerce the text and should reject updates it considers
    stale". The cell of a field holds the text and the version of the last
    update that was taken; a field that was never set has no cell. Which
    texts parse ([valid]) and which versions are stale next to the current
    one ([stale]) are left open by the spec and are parameters here. A text
    that does not parse is an error; a stale update is dropped without
    one. *)
Definition Set_ (valid : FieldPtr → string → bool) (stale : Z → Z → bool)
    (f : FieldPtr) (value : string) (version : Z)
    (st : gmap FieldPtr (string * Z))
    : option string * gmap FieldPtr (string * Z) :=
  if valid f value then
    match st !! f with
    | Some (_, current) =>
        if stale current version then (None, st)
        else (None, <[f := (value, version)]> st)
    | None => (None, <[f := (value, version)]> st)
    end
  else (Some ("cannot parse " +:+ value), st).

Definition API (names : FieldPtr → string)
    (sources : FieldPtr → gmap Source string)
    (valid : FieldPtr → string → bool) (stale : Z → Z → bool)
    : FieldAPI (gmap FieldPtr (string * Z)) :=
  {| Name := names; Sources := sources; config.Set_ := Set_ valid stale |}.

(** The text that a field holds. *)
Definition value (st : gmap FieldPtr (string * Z)) (f : FieldPtr)
    : option string :=
  fst <$> st !! f.

(** Every text parses. *)
Definition any_text (f : FieldPtr) (value : string) : bool := true.

(** The text of a decimal number parses. *)
Definition digits (f : FieldPtr) (value : string) : bool :=
  forallb (λ c, bool_decide (is_Some (Ascii.is_nat c)))
          (String.list_ascii_of_string value)
  && negb (bool_decide (value = "")).

(** No update is stale. *)
Definition never_stale (current version : Z) : bool := false.

(** The world before anything ran. *)
Definition empty_world : World (gmap FieldPtr (string * Z)) :=
  {| store := ∅; trace := [] |}.

End cell.

Module scenario.

(** [range] visits the entries in the order of [map_to_list]. *)
Definition in_order (A : Type) (l : list A) : list A := l.

(** A digest for the scenarios: the text itself. *)
Definition plain (value : string) : string := value.

(** A getter that finds nothing but errors. *)
Definition failing : seed.Getter :=
  λ _, {| seed.g_value := None; seed.g_version := 0;
          seed.g_err := Some "connection refused" |}.

(** A getter over a table. *)
Definition lookup_in (table : gmap string (string * Z)) : seed.Getter :=
  λ key, match table !! key with
         | Some (v, ver) =>
             {| seed.g_value := Some v; seed.g_version := ver;
                seed.g_err := None |}
         | None => {| seed.g_value := None; seed.g_version := 0;
                      seed.g_err := None |}
         end.

(** A name between quotes, as [strconv.Quote] writes a name of letters,
    digits and signs other than the quote and the backslash. *)
Definition quoted (name : string) : string :=
  String (Ascii.ascii_of_nat 34)
    (name +:+ String (Ascii.ascii_of_nat 34) EmptyString).

(** A process with the given environment and flags and no files. *)
Definition process (env flags : gmap string string) : seed.OS :=
  {| seed.LookupEnv := λ key, env !! key;
     seed.ReadFile := λ _, None;
     seed.ParsedFlag := λ key, flags !! key;
     seed.Quote := quoted |}.

Definition names (l : list string) (f : FieldPtr) : string :=
  default "" (l !! f).

Definition sources (l : list (gmap Source string)) (f : FieldPtr)
    : gmap Source string :=
  default ∅ (l !! f).

(** Precedence: one field, seed "DEBUG", env variable set to "INFO", a
    flag that is not on the command line. *)
Definition precedence_fields : FieldAPI (gmap FieldPtr (string * Z)) :=
  cell.API (names ["LogLevel"])
    (sources [ {[ SourceSeed := "DEBUG"; SourceEnv := "ENV_LOG_LEVEL";
                  SourceFlag := "loglevel" ]} ])
    cell.any_text cell.never_stale.

Definition precedence_os : seed.OS :=
  process {[ "ENV_LOG_LEVEL" := "INFO" ]} ∅.

(** A field with a consul key and a redis key; consul cannot be reached,
    redis has the value. *)
Definition stores_fields : FieldAPI (gmap FieldPtr (string * Z)) :=
  cell.API (names ["Balance"])
    (sources [ {[ SourceConsul := "app/balance";
                  SourceRedis := "balance" ]} ])
    cell.any_text cell.never_stale.

(** The same with a seed value. *)
Definition seeded_stores_fields : FieldAPI (gmap FieldPtr (string * Z)) :=
  cell.API (names ["Balance"])
    (sources [ {[ SourceSeed := "0.0"; SourceConsul := "app/balance";
                  SourceRedis := "balance" ]} ])
    cell.any_text cell.never_stale.

Definition stores_seeder : seed.Seeder :=
  seed.New [ {| seed.src := SourceConsul; seed.getter := failing |};
             {| seed.src := SourceRedis;
                seed.getter := lookup_in {[ "balance" := ("100.0", 0) ]} |} ].

(** Seed aggregation: three fields, the first with a seed value, the
    others with an env variable that is not set. *)
Definition aggregation_fields : FieldAPI (gmap FieldPtr (string * Z)) :=
  cell.API (names ["Index"; "Retention"; "Level"])
    (sources [ {[ SourceSeed := "customers-v1" ]};
               {[ SourceEnv := "ENV_RETENTION" ]};
               {[ SourceEnv := "ENV_LEVEL" ]} ])
    cell.any_text cell.never_stale.

(** A field with a seed value and a consul key, and a seeder without a
    consul getter. *)
Definition no_getter_fields : FieldAPI (gmap FieldPtr (string * Z)) :=
  cell.API (names ["Balance"])
    (sources [ {[ SourceSeed := "0.0"; SourceConsul := "app/balance" ]} ])
    cell.any_text cell.never_stale.

(** A number field whose seed value is no number, and a second field. *)
Definition bad_seed_fields : FieldAPI (gmap FieldPtr (string * Z)) :=
  cell.API (names ["Retention"; "Level"])
    (sources [ {[ SourceSeed := "a day"; SourceEnv := "ENV_RETENTION" ]};
               {[ SourceSeed := "DEBUG" ]} ])
    cell.digits cell.never_stale.

(** Two fields with the same consul key. *)
Definition clash_fields : FieldAPI (gmap FieldPtr (string * Z)) :=
  cell.API (names ["A"; "B"])
    (sources [ {[ SourceSeed := "1"; SourceConsul := "cfg/x" ]};
               {[ SourceConsul := "cfg/x" ]} ])
    cell.any_text cell.never_stale.

(** A routing table with one consul key, and a batch with a change for a
    key that is not in it, before a change for the key that is. *)
Definition one_route : monitor.sourceMap :=
  {[ SourceConsul := {[ "cfg/x" := 0%nat ]} ]}.

Definition route_fields : FieldAPI (gmap FieldPtr (string * Z)) :=
  cell.API (names ["X"]) (sources [ {[ SourceConsul := "cfg/x" ]} ])
    cell.any_text cell.never_stale.

Definition mixed_batch : list Change :=
  [ change.New SourceConsul "cfg/unknown" "7" 3;
    change.New SourceConsul "cfg/x" "9" 4 ].

(** The poll scenario: keys a and b, two ticks. *)
Definition poll_ticks : list redis.pollEvent :=
  [ redis.Tick (redis.MGetOk [Some "1"; Some "2"]);
    redis.Tick (redis.MGetOk [Some "1"; Some "3"]) ].

Definition poll_watcher : redis.Watcher :=
  {| redis.keys := ["a"; "b"]; redis.versions := [0; 0];
     redis.hashes := [""; ""]; redis.pollInterval := 100 |}.

(** The watcher after the two ticks. *)
Definition polled_watcher : redis.Watcher :=
  {| redis.keys := ["a"; "b"]; redis.versions := [1; 2];
     redis.hashes := ["1"; "3"]; redis.pollInterval := 100 |}.

(** The push scenario: the pairs under cfg/ after cfg/x was set to 9. *)
Definition prefix_pairs : list consul.KVPair :=
  [ {| consul.kv_Key := "cfg/x"; consul.kv_Value := "9";
       consul.kv_ModifyIndex := 12 |};
    {| consul.kv_Key := "cfg/y"; consul.kv_Value := "2";
       consul.kv_ModifyIndex := 8 |} ].

(** A digest that is never the empty text: the value after a mark. *)
Definition tagged (value : string) : string := "#" +:+ value.

(** [range] visits the entries in the opposite order. *)
Definition reversed (A : Type) (l : list A) : list A := reverse l.

(** Two fields with the same flag name. *)
Definition same_flag_fields : FieldAPI (gmap FieldPtr (string * Z)) :=
  cell.API (names ["Level"; "Verbosity"])
    (sources [ {[ SourceSeed := "INFO"; SourceFlag := "level" ]};
               {[ SourceSeed := "1"; SourceFlag := "level" ]} ])
    cell.any_text cell.never_stale.

(** The push watcher of the scenarios: a key item under a prefix and a
    prefix item; the path of a key under a prefix has a slash between the
    two, and every params parse. *)
Definition join (prefix key : string) : string :=
  if decide (prefix = "") then key else prefix +:+ "/" +:+ key.

Definition parse_any (params : gmap string string) : option string := None.

Definition push_watcher : consul.Watcher unit :=
  {| consul.cl := tt; consul.dc := "dc1"; consul.token := "";
     consul.pp := [];
     consul.ii := [ consul.NewKeyItemWithPrefix "x" "cfg";
                    consul.NewPrefixItem "cfg/" ] |}.

(** The plan of its key item. *)
Definition push_plan : consul.Plan :=
  {| consul.pl_params :=
       {[ "datacenter" := "dc1"; "token" := ""; "key" := "cfg/x";
          "type" := "key" ]};
     consul.pl_Handler :=
       Some (λ idx d, Some (consul.keyHandler "x" idx d)) |}.

(** A field whose flag name has an equals sign, and a file. *)
Definition bad_flag_fields : FieldAPI (gmap FieldPtr (string * Z)) :=
  cell.API (names ["Body"])
    (sources [ {[ SourceSeed := "INFO"; SourceFlag := "a=b";
                  SourceFile := "/p" ]} ])
    cell.any_text cell.never_stale.

(** A field with a seed value, a flag, a consul key and a redis key. *)
Definition all_stores_fields : FieldAPI (gmap FieldPtr (string * Z)) :=
  cell.API (names ["Balance"])
    (sources [ {[ SourceSeed := "0.0"; SourceFlag := "balance";
                  SourceConsul := "app/balance";
                  SourceRedis := "balance" ]} ])
    cell.any_text cell.never_stale.

(** A poll watcher made for the key a given twice, two ticks in which the
    value of a changes, and the watcher after them. *)
Definition repeated_watcher : redis.Watcher :=
  {| redis.keys := ["a"; "a"]; redis.versions := [0; 0];
     redis.hashes := [""; ""]; redis.pollInterval := 100 |}.

Definition repeated_ticks : list redis.pollEvent :=
  [ redis.Tick (redis.MGetOk [Some "1"; Some "1"]);
    redis.Tick (redis.MGetOk [Some "2"; Some "2"]) ].

Definition repeated_polled : redis.Watcher :=
  {| redis.keys := ["a"; "a"]; redis.versions := [2; 2];
     redis.hashes := ["2"; "2"]; redis.pollInterval := 100 |}.

(** The poll watcher after a first tick with the values 1 and 2. *)
Definition ticked_watcher : redis.Watcher :=
  {| redis.keys := ["a"; "b"]; redis.versions := [1; 1];
     redis.hashes := ["1"; "2"]; redis.pollInterval := 100 |}.

End scenario.

(** * Vocabulary of the properties *)

Module spec.

(** The slices of a watcher have one slot per key. *)
Definition poll_wf (w : redis.Watcher) : Prop :=
  length (redis.versions w) = length (redis.keys w) ∧
  length (redis.hashes w) = length (redis.keys w).

(** A fetch that answers, answers with one entry per key. *)
Definition poll_sized (n : nat) (ev : redis.pollEvent) : Prop :=
  match ev with
  | redis.Tick (redis.MGetOk values) => length values = n
  | _ => True
  end.

(** Every value that was fetched has the digest stored for its key. *)
Definition poll_unchanged (hash : string → string) (w : redis.Watcher)
    (values : list (option string)) : Prop :=
  ∀ i v, values !! i = Some (Some v) → redis.hashes w !! i = Some (hash v).

(** The changes of a batch, nil pointers left out. *)
Definition changes_of (b : Batch) : list Change := omap id b.

(** The changes for one key among those of a batch. *)
Definition for_key (key : string) (b : Batch) : list Change :=
  filter (λ c, change.Key c = key) (changes_of b).

(** The versions of the changes sent for [key], in the order sent. *)
Definition versions_for (key : string) (out : list Batch) : list Z :=
  change.Version <$>
    filter (λ c, change.Key c = key) (changes_of (concat out)).

(** The change that the prefix handler makes of a pair. *)
Definition consul_change (p : consul.KVPair) : Change :=
  change.New SourceConsul (consul.kv_Key p) (consul.kv_Value p)
    (consul.kv_ModifyIndex p).

(** The field that the routing table gives for a source and a key. *)
Definition route (mp : monitor.sourceMap) (src : Source) (key : string)
    : option FieldPtr :=
  mp !! src ≫= (.!! key).

(** The field [f] has the key [key] for the source [src]. *)
Definition claims {St} (F : FieldAPI St) (f : FieldPtr) (src : Source)
    (key : string) : Prop :=
  Sources F f !! src = Some key.

(** Two fields of the list, at different places, have the key [key] for
    the source [src], which is not the seed source. *)
Definition claimed_twice {St} (F : FieldAPI St) (ff : list FieldPtr)
    (src : Source) (key : string) : Prop :=
  src ≠ SourceSeed ∧
  ∃ i j f g, (i < j)%nat ∧ ff !! i = Some f ∧ ff !! j = Some g ∧
             claims F f src key ∧ claims F g src key.

(** The text of the error of [generateMap]. *)
Definition duplicate_text (src : Source) (key : string) : string :=
  Source_string src +:+ " key " +:+ key +:+ " already exists in monitor map".

(** The calls of [Field.Set] in a trace, without their answers. *)
Definition set_calls (tr : list event) : list (FieldPtr * string * Z) :=
  omap (λ ev, match ev with
              | EvSet f value version _ => Some (f, value, version)
              | _ => None
              end) tr.

(** What dispatch does with one change: a change that has a route is
    handed to [Set], whatever [Set] answers; one that has none leaves the
    world as it is. *)
Definition dispatch_one {St} (F : FieldAPI St) (mp : monitor.sourceMap)
    (w : World St) (c : Change) : World St :=
  match route mp (change.Source c) (change.Key c) with
  | Some fld => (fieldSet F fld (change.Value c) (change.Version c) w).2
  | None => w
  end.

(** The call of [Set] that a change leads to, if it has a route. *)
Definition routed_call (mp : monitor.sourceMap) (c : Change)
    : option (FieldPtr * string * Z) :=
  fld ← route mp (change.Source c) (change.Key c);
  Some (fld, change.Value c, change.Version c).

(** A call of [Set] that answered with an error. *)
Definition failed_set (ev : event) : bool :=
  match ev with
  | EvSet _ _ _ (Some _) => true
  | _ => false
  end.

(** No call of [Set] among the events failed. *)
Definition clean (evs : list event) : Prop :=
  Forall (λ ev, failed_set ev = false) evs.

(** The event is a call of [Set] on the field [f]. *)
Definition on_field (f : FieldPtr) (ev : event) : bool :=
  match ev with
  | EvSet g _ _ _ => bool_decide (g = f)
  | _ => false
  end.

(** The field received a value: [Set] was called on it. *)
Definition received_value (f : FieldPtr) (evs : list event) : bool :=
  existsb (on_field f) evs.

(** The store after the calls of [Set] among the events, made in order
    from the store [st]. *)
Definition replay {St} (F : FieldAPI St) (st : St) (evs : list event) : St :=
  foldl (λ st ev, match ev with
                  | EvSet f value version _ => (Set_ F f value version st).2
                  | _ => st
                  end) st evs.

(** The text that [Seed] writes for a field that is not seeded. *)
Definition not_seeded_text {St} (F : FieldAPI St) (f : FieldPtr) : string :=
  "field " +:+ Name F f +:+ " not seeded".

(** The state that a statement of [Seed] leaves, wherever control goes. *)
Definition ctl_state {St} (c : seed.ctl (St := St)) : seed.state :=
  match c with
  | seed.Go x | seed.Continue x | seed.Return _ x | seed.Panic _ x => x
  end.

(** From the trace [tr0], the statements that led to [c] made no failing
    call of [Set], or made one, as their last step, and returned its
    error. *)
Definition set_failure_last {St} (tr0 : list event) (c : seed.ctl (St := St))
    : Prop :=
  ∃ evs, trace (seed.world (ctl_state c)) = tr0 ++ evs ∧
    (clean evs ∨
     ∃ evs0 f value version e x,
       evs = evs0 ++ [EvSet f value version (Some e)] ∧ clean evs0 ∧
       c = seed.Return (FieldErr e) x).

(** Control leaves the statement for the next one, or for the next turn
    of the loop, in the state [x']. *)
Definition passes {St} (c : seed.ctl (St := St)) (x' : seed.state) : Prop :=
  c = seed.Go x' ∨ c = seed.Continue x'.

(** From [x] to [x'], [Seed] worked on the field [f] only: the calls of
    [Set] are on [f], the store is the one they leave, [seedMap[f]] is set
    when there was such a call, and a flag that was recorded is a flag
    of [f]. *)
Definition field_step {St} (F : FieldAPI St) (f : FieldPtr)
    (x x' : seed.state (St := St)) : Prop :=
  ∃ evs,
    trace (seed.world x') = trace (seed.world x) ++ evs ∧
    store (seed.world x') = replay F (store (seed.world x)) evs ∧
    (∀ g, g ≠ f → received_value g evs = false) ∧
    seed.seedMap x' = (if received_value f evs
                       then <[f := true]> (seed.seedMap x)
                       else seed.seedMap x) ∧
    (∀ fi, fi ∈ seed.flagInfos x' →
           fi ∈ seed.flagInfos x ∨ seed.fi_field fi = f).

(** After the fields [done], from the world [w]: [seedMap] has the fields
    [done] for keys, each with whether it received a value, and the flags
    recorded are flags of these fields. *)
Definition seed_inv {St} (F : FieldAPI St) (w : World St)
    (done : list FieldPtr) (x : seed.state (St := St)) : Prop :=
  ∃ evs,
    trace (seed.world x) = trace w ++ evs ∧
    store (seed.world x) = replay F (store w) evs ∧
    (∀ f, received_value f evs = true → f ∈ done) ∧
    (∀ f, seed.seedMap x !! f
          = if decide (f ∈ done) then Some (received_value f evs) else None) ∧
    (∀ fi, fi ∈ seed.flagInfos x → seed.fi_field fi ∈ done).

(** The errors that end [Seed] inside its loops: the error of a failing
    [Set], or the error for a getter that is missing. *)
Definition abort_error (err : error) : Prop :=
  (∃ e, err = FieldErr e) ∨
  err = ErrorsNew "consul getter required" ∨
  err = ErrorsNew "redis getter required".

(** The two loops of [Seed] run to their end: no [return] and no panic
    inside them. *)
Definition completes {St} (F : FieldAPI St) (os : seed.OS) (s : seed.Seeder)
    (cfg : list FieldPtr) (w : World St) : bool :=
  match seed.seedFields F os s cfg
          {| seed.world := w; seed.seedMap := ∅; seed.flagInfos := [] |} with
  | seed.Go x | seed.Continue x =>
      match seed.seedFlags F os x with
      | seed.Go _ | seed.Continue _ => true
      | _ => false
      end
  | _ => false
  end.

(** The texts of the fields of a list, one after the other. *)
Definition not_seeded_texts {St} (F : FieldAPI St) (l : list FieldPtr)
    : string :=
  foldr (λ f t, not_seeded_text F f +:+ t) "" l.

(** The text names the field: it has the text of the field in it. *)
Definition names_field {St} (F : FieldAPI St) (text : string) (f : FieldPtr)
    : Prop :=
  ∃ a b, text = a +:+ not_seeded_text F f +:+ b.

(** The value and the version that a source has for a field, when the
    field has a key for the source and the lookup gives a value. *)
Definition source_value {St} (F : FieldAPI St) (os : seed.OS)
    (s : seed.Seeder) (f : FieldPtr) (src : Source) : option (string * Z) :=
  key ← Sources F f !! src;
  match src with
  | SourceSeed => Some (key, 0)
  | SourceEnv => v ← seed.LookupEnv os key; Some (v, 0)
  | SourceFlag => v ← seed.ParsedFlag os key; Some (v, 0)
  | SourceFile => v ← seed.ReadFile os key; Some (v, 0)
  | SourceConsul | SourceRedis =>
      gtr ← seed.getters s !! src;
      match seed.g_err (gtr key) with
      | Some _ => None
      | None => v ← seed.g_value (gtr key); Some (v, seed.g_version (gtr key))
      end
  end.

(** The field has a consul key and the consul lookup gives no value. *)
Definition consul_fails {St} (F : FieldAPI St) (os : seed.OS)
    (s : seed.Seeder) (f : FieldPtr) : bool :=
  bool_decide (is_Some (Sources F f !! SourceConsul)) &&
  bool_decide (source_value F os s f SourceConsul = None).

(** The sources that the loop of [Seed] applies to a field, in the order
    in which it does; redis is left out after a consul lookup that
    failed. *)
Definition loop_sources {St} (F : FieldAPI St) (os : seed.OS)
    (s : seed.Seeder) (f : FieldPtr) : list Source :=
  [SourceSeed; SourceEnv; SourceFile; SourceConsul] ++
  (if consul_fails F os s f then [] else [SourceRedis]).

(** The calls of [Set] on the field [f] in a trace: value and version. *)
Definition calls_on (f : FieldPtr) (tr : list event) : list (string * Z) :=
  omap (λ ev, match ev with
              | EvSet g value version _ =>
                  if decide (g = f) then Some (value, version) else None
              | _ => None
              end) tr.

(** The flag that the loop records for a field. *)
Definition flag_of {St} (F : FieldAPI St) (f : FieldPtr)
    : list seed.flagInfo :=
  match Sources F f !! SourceFlag with
  | Some key => [{| seed.fi_key := key; seed.fi_field := f |}]
  | None => []
  end.

(** From [x] to [x'] the calls of [Set] on [f] are [l] and the flags
    recorded are [fis]. *)
Definition calls_step {St} (f : FieldPtr) (x x' : seed.state (St := St))
    (l : list (string * Z)) (fis : list seed.flagInfo) : Prop :=
  ∃ evs, trace (seed.world x') = trace (seed.world x) ++ evs ∧
         calls_on f evs = l ∧
         seed.flagInfos x' = seed.flagInfos x ++ fis.

(** The value that makes the slot [i] change in a tick: the value fetched
    for it, when there is one and its digest is not the digest stored. *)
Definition slot_value (hash : string → string) (hashes : list string)
    (values : list (option string)) (i : nat) : option string :=
  match values !! i with
  | Some (Some v) =>
      if decide (hash v = default "" (hashes !! i)) then None else Some v
  | _ => None
  end.

(** The changes of a tick, slot by slot from the slot [i] on, worked out
    from the counters and the digests as they are before the tick. *)
Fixpoint slot_changes (hash : string → string) (versions : list Z)
    (hashes : list string) (values : list (option string)) (i : nat)
    (ks : list string) : list Change :=
  match ks with
  | [] => []
  | key :: ks' =>
      match slot_value hash hashes values i with
      | Some v =>
          [change.New SourceRedis key v
             (wrap64 (default 0 (versions !! i) + 1))]
      | None => []
      end ++ slot_changes hash versions hashes values (S i) ks'
  end.

(** The changes of the first tick of a new watcher: one for every key
    that has a value, with version 1. *)
Definition first_changes (keys : list string)
    (values : list (option string)) : list Change :=
  omap (λ kv : string * option string,
          v ← kv.2; Some (change.New SourceRedis kv.1 v 1))
       (zip keys values).

(** A change that the poll watcher may send for the keys [keys]. *)
Definition poll_change (keys : list string) (oc : option Change) : Prop :=
  ∃ c, oc = Some c ∧ change.Source c = SourceRedis ∧
       change.Key c ∈ keys ∧ 0 ≤ change.Version c < 2 ^ 64.

(** A counter is a [uint64]. *)
Definition is_uint64 (z : Z) : Prop := 0 ≤ z < 2 ^ 64.

(** The context is not done in any of the events. *)
Definition not_done (evs : list redis.pollEvent) : Prop :=
  Forall (λ ev, ev ≠ redis.CtxDone) evs.

(** The params of the plan of a key item, which watches [watched], and of
    the plan of a prefix item. *)
Definition key_params (dc token watched : string) : gmap string string :=
  {[ "datacenter" := dc; "token" := token; "key" := watched;
     "type" := "key" ]}.

Definition prefix_params (dc token keyPrefix : string) : gmap string string :=
  {[ "datacenter" := dc; "token" := token; "prefix" := keyPrefix;
     "type" := "keyprefix" ]}.

(** The params that [Watch] has parsed for an item, and the handler it
    gives the plan; [None] for an item that is neither a key item nor a
    prefix item. *)
Definition item_plan (path_Join : string → string → string)
    (dc token : string) (i : consul.Item)
    : option (gmap string string * consul.Handler) :=
  if decide (consul.tp i = "key") then
    Some (key_params dc token (path_Join (consul.prefix i) (consul.key i)),
          λ idx d, Some (consul.keyHandler (consul.key i) idx d))
  else if decide (consul.tp i = "keyprefix") then
    Some (prefix_params dc token (consul.key i), consul.keyPrefixHandler)
  else None.

(** The error of [watch.Parse] for the params of an item. *)
Definition item_error (path_Join : string → string → string)
    (watch_Parse : gmap string string → option string)
    (dc token : string) (i : consul.Item) : option string :=
  ps ← item_plan path_Join dc token i; watch_Parse ps.1.

(** The plan that runs for an item whose params parse. *)
Definition runs_for (path_Join : string → string → string)
    (dc token : string) (i : consul.Item) (pl : option consul.Plan) : Prop :=
  match item_plan path_Join dc token i with
  | Some ps =>
      ∃ p h, pl = Some p ∧ consul.pl_params p = ps.1 ∧
             consul.pl_Handler p = Some h ∧
             ∀ idx d, h idx d = ps.2 idx d
  | None => pl = None
  end.

(** The field needs the getter of the source [src]: it has a key for
    consul, or it has a key for redis and its consul lookup does not fail
    (after a consul lookup that fails, the redis block is not run). *)
Definition needs_getter {St} (F : FieldAPI St) (os : seed.OS)
    (s : seed.Seeder) (f : FieldPtr) (src : Source) : Prop :=
  is_Some (Sources F f !! src) ∧
  (src = SourceConsul ∨
   (src = SourceRedis ∧ consul_fails F os s f = false)).

(** The names of the flags of the fields, in the order of the fields. *)
Definition flag_names {St} (F : FieldAPI St) (cfg : list FieldPtr)
    : list string :=
  seed.fi_key <$> concat (flag_of F <$> cfg).

(** A name that [flagSet.StringVar] takes when it is not defined yet: it
    does not begin with "-" and does not contain "=". *)
Definition flag_name_ok (name : string) : Prop :=
  seed.HasPrefix name "-" = false ∧ seed.Contains name "=" = false.

(** [Seed] ends inside one of its loops: it panics, or it returns the
    error of a failing [Set] or the error for a missing getter. *)
Definition ends_early (out : seed.outcome) : Prop :=
  (∃ msg, out = seed.Panicked msg) ∨
  (∃ err, out = seed.Returned (Some err) ∧ abort_error err).

End spec.

(** * Properties *)

(** ** The poll watcher *)

Section PollProps.

Variable hash : string → string.

Lemma getValues_record (w : redis.Watcher) :
  {| redis.keys := redis.keys w; redis.versions := redis.versions w;
     redis.hashes := redis.hashes w;
     redis.pollInterval := redis.pollInterval w |} = w.
Proof. by destruct w. Qed.

(** An iteration that sees an unchanged or absent value leaves the loop
    state as it is. *)
Lemma getValues_iter_unchanged values i key st :
  (i < length values)%nat →
  (∀ v, values !! i = Some (Some v) → redis.l_hashes st !! i = Some (hash v)) →
  redis.getValues_iter hash values i key st = Some st.
Proof.
  intros Hlt Hun. unfold redis.getValues_iter.
  destruct (values !! i) as [[v|]|] eqn:Hv.
  - rewrite (Hun v eq_refl). by rewrite decide_True.
  - done.
  - apply lookup_ge_None in Hv. lia.
Qed.

Lemma getValues_loop_unchanged values ks i st :
  (i + length ks ≤ length values)%nat →
  (∀ j v, values !! j = Some (Some v) →
          redis.l_hashes st !! j = Some (hash v)) →
  redis.getValues_loop hash values i ks st = Some st.
Proof.
  revert i. induction ks as [|k ks IH]; intros i Hlen Hun; [done|].
  simpl in *. rewrite getValues_iter_unchanged; [|lia|naive_solver].
  apply IH; [lia|done].
Qed.

Lemma getValues_unchanged w values :
  (length (redis.keys w) ≤ length values)%nat →
  spec.poll_unchanged hash w values →
  redis.getValues hash w (redis.MGetOk values) = Some (w, None).
Proof.
  intros Hlen Hun. unfold redis.getValues.
  rewrite getValues_loop_unchanged; [|simpl; lia|done].
  simpl. by rewrite getValues_record.
Qed.

(** C5. A tick in which every fetched value has the digest already stored
    for its key (or the key has no value) leaves the watcher as it is and
    sends nothing; so does any number of such ticks in a row. *)
Theorem poll_unchanged_ticks_are_noops
    (w : redis.Watcher) (ticks : list (list (option string))) :
  Forall (λ values, (length (redis.keys w) ≤ length values)%nat ∧
                    spec.poll_unchanged hash w values) ticks →
  Forall (λ values,
            redis.getValues hash w (redis.MGetOk values) = Some (w, None))
         ticks ∧
  redis.monitor hash w ((λ values, redis.Tick (redis.MGetOk values)) <$> ticks)
    = Some (w, []).
Proof.
  induction 1 as [|values ticks [Hlen Hun] _ [IH1 IH2]]; [done|].
  pose proof (getValues_unchanged w values Hlen Hun) as Hg.
  split; [by constructor|].
  rewrite fmap_cons. cbn [redis.monitor]. by rewrite Hg, IH2.
Qed.

(** C9. A fetch error ends the tick at once: the watcher is as before,
    nothing is sent, and the loop goes on with the events that follow. *)
Theorem poll_fetch_error_skips_tick
    (w : redis.Watcher) (err : string) (evs : list redis.pollEvent) :
  redis.getValues hash w (redis.MGetErr err) = Some (w, None) ∧
  redis.monitor hash w (redis.Tick (redis.MGetErr err) :: evs)
    = redis.monitor hash w evs.
Proof.
  split; [done|]. cbn [redis.monitor redis.getValues].
  by destruct (redis.monitor hash w evs) as [[w' out]|].
Qed.

End PollProps.

Section PollVersions.

Variable hash : string → string.

Lemma wrap64_small (z : Z) : 0 ≤ z < 2 ^ 64 → wrap64 z = z.
Proof. intros. unfold wrap64. by apply Z.mod_small. Qed.

Lemma for_key_app key b1 b2 :
  spec.for_key key (b1 ++ b2) = spec.for_key key b1 ++ spec.for_key key b2.
Proof. unfold spec.for_key, spec.changes_of. by rewrite omap_app, filter_app. Qed.

Lemma versions_for_cons key b out :
  spec.versions_for key (b :: out)
  = (change.Version <$> spec.for_key key b) ++ spec.versions_for key out.
Proof.
  unfold spec.versions_for, spec.for_key, spec.changes_of. simpl.
  by rewrite omap_app, filter_app, fmap_app.
Qed.

(** What one pass of the loop does to the slot [n] of the key [k]: either
    nothing, or one change for [k] with the counter of the slot plus one,
    which is then the counter. [i] is the index the pass starts at and
    [pre] the keys before it. *)
Lemma getValues_loop_slot values (k : string) (n : nat) pre ks i st st' :
  NoDup (pre ++ ks) →
  length pre = i →
  (pre ++ ks) !! n = Some k →
  redis.getValues_loop hash values i ks st = Some st' →
  ∃ delta,
    spec.for_key k (redis.l_changes st') = spec.for_key k (redis.l_changes st) ++ delta ∧
    ((delta = [] ∧ redis.l_versions st' !! n = redis.l_versions st !! n) ∨
     (∃ v value,
        redis.l_versions st !! n = Some v ∧
        delta = [change.New SourceRedis k value (wrap64 (v + 1))] ∧
        redis.l_versions st' !! n = Some (wrap64 (v + 1)) ∧
        (i ≤ n)%nat)).
Proof.
  revert pre i st.
  induction ks as [|key ks IH]; intros pre i st Hnd Hlen Hk Hloop.
  { simpl in Hloop. simplify_eq. exists []. rewrite app_nil_r. auto. }
  cbn [redis.getValues_loop] in Hloop.
  destruct (redis.getValues_iter hash values i key st) as [st1|] eqn:Hit;
    [|done].
  assert (Hnext : ∃ delta,
    spec.for_key k (redis.l_changes st') = spec.for_key k (redis.l_changes st1) ++ delta ∧
    ((delta = [] ∧ redis.l_versions st' !! n = redis.l_versions st1 !! n) ∨
     (∃ v value,
        redis.l_versions st1 !! n = Some v ∧
        delta = [change.New SourceRedis k value (wrap64 (v + 1))] ∧
        redis.l_versions st' !! n = Some (wrap64 (v + 1)) ∧
        (S i ≤ n)%nat))).
  { apply (IH (pre ++ [key]) (S i) st1); rewrite <- ?app_assoc; try done.
    rewrite length_app; simpl; lia. }
  clear IH Hloop. destruct Hnext as (delta & Hch & Hcases).
  assert (Hkey : (pre ++ key :: ks) !! i = Some key).
  { rewrite lookup_app_r by lia. by replace (i - length pre)%nat with 0%nat by lia. }
  unfold redis.getValues_iter in Hit.
  destruct (values !! i) as [[value|]|]; [| |done].
  2:{ simplify_eq. exists delta. split; [done|].
      destruct Hcases as [?|(v & val & ? & ? & ? & ?)]; [by left|].
      right. exists v, val. repeat split; try done. lia. }
  destruct (redis.l_hashes st !! i) as [old|]; [|done].
  destruct (decide (hash value = old)).
  { simplify_eq. exists delta. split; [done|].
    destruct Hcases as [?|(v & val & ? & ? & ? & ?)]; [by left|].
    right. exists v, val. repeat split; try done. lia. }
  destruct (redis.l_versions st !! i) as [v|] eqn:Hv; [|done].
  injection Hit as <-. simpl in *.
  destruct (decide (i = n)) as [->|Hne].
  - (* the slot of [k] is written in this iteration *)
    assert (key = k) by congruence. subst key.
    destruct Hcases as [[-> Hsame]|(v' & val & _ & _ & _ & Hle)]; [|lia].
    exists [change.New SourceRedis k value (wrap64 (v + 1))].
    rewrite Hch, for_key_app, app_nil_r. split.
    + unfold spec.for_key at 2. simpl. by rewrite filter_cons_True.
    + right. exists v, value. repeat split; try done.
      rewrite Hsame. apply list_lookup_insert_eq.
      by apply lookup_lt_Some in Hv.
  - (* another slot is written; its key is not [k] *)
    assert (key ≠ k).
    { intros ->. apply Hne. eapply NoDup_lookup; eauto. }
    exists delta. rewrite Hch, for_key_app. split.
    + unfold spec.for_key at 2. simpl. rewrite filter_cons_False by done.
      by rewrite filter_nil, app_nil_r.
    + rewrite list_lookup_insert_ne in Hcases by done.
      destruct Hcases as [?|(v' & val & ? & ? & ? & ?)]; [by left|].
      right. exists v', val. repeat split; try done. lia.
Qed.

(** The loop does not panic when every slice has a slot for every key
    left, and it keeps the lengths of the slices. *)
Lemma getValues_loop_total values ks i st :
  (i + length ks ≤ length values)%nat →
  (i + length ks ≤ length (redis.l_versions st))%nat →
  (i + length ks ≤ length (redis.l_hashes st))%nat →
  ∃ st', redis.getValues_loop hash values i ks st = Some st' ∧
         length (redis.l_versions st') = length (redis.l_versions st) ∧
         length (redis.l_hashes st') = length (redis.l_hashes st).
Proof.
  revert i st. induction ks as [|key ks IH]; intros i st Hv Hver Hh.
  { by exists st. }
  simpl in *. unfold redis.getValues_iter.
  destruct (lookup_lt_is_Some_2 values i) as [ov Hov]; [lia|].
  destruct (lookup_lt_is_Some_2 (redis.l_versions st) i) as [v Hvi]; [lia|].
  destruct (lookup_lt_is_Some_2 (redis.l_hashes st) i) as [h Hhi]; [lia|].
  rewrite Hov, Hhi, Hvi.
  destruct ov as [value|]; [destruct (decide (hash value = h))|].
  - apply IH; lia.
  - edestruct (IH (S i)) as (st' & -> & Hl1 & Hl2); last first.
    { exists st'. split; [done|]. simpl in *.
      rewrite length_insert in Hl1. rewrite length_insert in Hl2. done. }
    all: simpl; rewrite ?length_insert; lia.
  - apply IH; lia.
Qed.

(** One tick, seen from the slot [n] of the key [k]. *)
Lemma getValues_slot w values (k : string) (n : nat) :
  spec.poll_wf w →
  NoDup (redis.keys w) →
  redis.keys w !! n = Some k →
  length values = length (redis.keys w) →
  ∃ w' sent delta,
    redis.getValues hash w (redis.MGetOk values) = Some (w', sent) ∧
    spec.poll_wf w' ∧ redis.keys w' = redis.keys w ∧
    spec.for_key k (default [] sent) = delta ∧
    ((delta = [] ∧ redis.versions w' !! n = redis.versions w !! n) ∨
     (∃ v value,
        redis.versions w !! n = Some v ∧
        delta = [change.New SourceRedis k value (wrap64 (v + 1))] ∧
        redis.versions w' !! n = Some (wrap64 (v + 1)))).
Proof.
  intros [Hw1 Hw2] Hnd Hk Hlen. unfold redis.getValues.
  destruct (getValues_loop_total values (redis.keys w) 0
    {| redis.l_versions := redis.versions w; redis.l_hashes := redis.hashes w;
       redis.l_changes := [] |}) as (st' & Hloop & Hl1 & Hl2);
    [simpl; lia..|].
  rewrite Hloop.
  destruct (getValues_loop_slot values k n [] (redis.keys w) 0 _ st'
              Hnd eq_refl Hk Hloop) as (delta & Hch & Hcases).
  simpl in *.
  assert (Hwf : spec.poll_wf
    {| redis.keys := redis.keys w; redis.versions := redis.l_versions st';
       redis.hashes := redis.l_hashes st';
       redis.pollInterval := redis.pollInterval w |}).
  { split; simpl; congruence. }
  assert (Hc : delta = [] ∧
                 redis.l_versions st' !! n = redis.versions w !! n
               ∨ (∃ v value,
                    redis.versions w !! n = Some v ∧
                    delta = [change.New SourceRedis k value (wrap64 (v + 1))] ∧
                    redis.l_versions st' !! n = Some (wrap64 (v + 1)))).
  { destruct Hcases as [?|(v & val & ? & ? & ? & ?)]; [by left|].
    right. by exists v, val. }
  case_decide as Hempty.
  - eexists _, None, delta. split; [done|]. split; [done|]. split; [done|].
    split; [|done].
    apply length_zero_iff_nil in Hempty. by rewrite Hempty in Hch.
  - eexists _, (Some _), delta. split; [done|]. split; [done|].
    split; [done|]. split; [|done]. exact Hch.
Qed.

End PollVersions.

Section PollRuns.

Variable hash : string → string.

(** A run from a watcher whose counter for [k] is [c]: the versions sent
    for [k] are [c+1, c+2, ...], and the counter ends at [c] plus their
    number. *)
Lemma monitor_versions_from (k : string) (n : nat) evs :
  ∀ (w : redis.Watcher) (c : nat),
  spec.poll_wf w →
  NoDup (redis.keys w) →
  redis.keys w !! n = Some k →
  Forall (spec.poll_sized (length (redis.keys w))) evs →
  redis.versions w !! n = Some (Z.of_nat c) →
  Z.of_nat c + Z.of_nat (length evs) < 2 ^ 64 →
  ∃ w' out m,
    redis.monitor hash w evs = Some (w', out) ∧
    spec.versions_for k out = Z.of_nat <$> seq (S c) m ∧
    redis.versions w' !! n = Some (Z.of_nat (c + m)) ∧
    (m ≤ length evs)%nat.
Proof.
  induction evs as [|ev evs IH]; intros w c Hwf Hnd Hk Hsz Hc Hbound.
  { exists w, [], 0%nat. rewrite Nat.add_0_r. by repeat split. }
  apply Forall_cons in Hsz as [Hev Hsz]. simpl in Hbound.
  destruct ev as [|[err|values]].
  - exists w, [], 0%nat. rewrite Nat.add_0_r. repeat split; try done.
    simpl; lia.
  - destruct (IH w c) as (w' & out & m & Hrun & Hvs & Hfin & Hm);
      try done; [lia|].
    exists w', out, m. cbn [redis.monitor redis.getValues]. rewrite Hrun.
    repeat split; try done. simpl; lia.
  - simpl in Hev.
    destruct (getValues_slot hash w values k n Hwf Hnd Hk Hev)
      as (w1 & sent & delta & Hget & Hwf1 & Hkeys & Hdelta & Hcases).
    cbn [redis.monitor]. rewrite Hget.
    assert (Hfk : ∀ out, spec.versions_for k
              (match sent with Some b => b :: out | None => out end)
              = (change.Version <$> delta) ++ spec.versions_for k out).
    { intros out. destruct sent as [b|]; simpl in Hdelta.
      - by rewrite versions_for_cons, Hdelta.
      - by rewrite <- Hdelta. }
    destruct Hcases as [[-> Hsame]|(v & value & Hv & -> & Hnew)].
    + destruct (IH w1 c) as (w' & out & m & Hrun & Hvs & Hfin & Hm);
        rewrite ?Hkeys; try done; [congruence|lia|].
      exists w', (match sent with Some b => b :: out | None => out end), m.
      rewrite Hrun, Hfk.
      repeat split; try done. simpl; lia.
    + assert (v = Z.of_nat c) by congruence. subst v.
      rewrite wrap64_small in Hnew by lia.
      destruct (IH w1 (S c)) as (w' & out & m & Hrun & Hvs & Hfin & Hm);
        rewrite ?Hkeys; try done.
      { rewrite Hnew. f_equal. lia. }
      { lia. }
      exists w', (match sent with Some b => b :: out | None => out end), (S m).
      rewrite Hrun, Hfk, Hvs.
      split; [done|]. split.
      { simpl. rewrite wrap64_small by lia. f_equal. lia. }
      split; [|simpl; lia].
      rewrite Hfin. f_equal. lia.
Qed.

Lemma New_wf {Client : Type} (client : option Client) pollInterval keys w :
  redis.New client pollInterval keys = inl w →
  spec.poll_wf w ∧ redis.keys w = keys ∧
  redis.versions w = replicate (length keys) 0.
Proof.
  unfold redis.New. destruct client; [|done].
  repeat case_decide; try done. intros [= <-].
  unfold spec.poll_wf. simpl. by rewrite !length_replicate.
Qed.

(** C4. In a run of a watcher made by [New] over distinct keys, the
    versions of the changes sent for a key are 1, 2, 3, ... in the order
    sent, and the counter of the key ends at their number: it moves only
    when a change for the key is sent. The run has fewer than 2^64 events,
    so the 64-bit counter does not wrap, and every fetch that answers has
    one entry per key, as MGET does. *)
Theorem poll_versions_count_from_one
    {Client : Type} (client : option Client) (pollInterval : Z)
    (keys : list string) (w0 : redis.Watcher) (evs : list redis.pollEvent)
    (n : nat) (k : string) :
  redis.New client pollInterval keys = inl w0 →
  NoDup keys →
  keys !! n = Some k →
  Forall (spec.poll_sized (length keys)) evs →
  Z.of_nat (length evs) < 2 ^ 64 →
  ∃ w out m,
    redis.monitor hash w0 evs = Some (w, out) ∧
    spec.versions_for k out = Z.of_nat <$> seq 1 m ∧
    redis.versions w !! n = Some (Z.of_nat m).
Proof.
  intros Hnew Hnd Hk Hsz Hbound.
  destruct (New_wf _ _ _ _ Hnew) as (Hwf & <- & Hvers).
  assert (Hzero : redis.versions w0 !! n = Some (Z.of_nat 0)).
  { rewrite Hvers. apply lookup_replicate_2. by apply lookup_lt_Some in Hk. }
  assert (Hfits : Z.of_nat 0 + Z.of_nat (length evs) < 2 ^ 64) by lia.
  destruct (monitor_versions_from k n evs w0 0%nat Hwf Hnd Hk Hsz Hzero Hfits)
    as (w & out & m & Hrun & Hvs & Hfin & _).
  by exists w, out, m.
Qed.

End PollRuns.

(** ** The push watcher *)

Section PushProps.

(** The loop fills the slots from [i] on, one pair after the other. *)
Lemma keyPrefix_loop_fills (pp : list consul.KVPair) (k i : nat) :
  (i + k = length pp)%nat →
  consul.keyPrefix_loop pp k i
    ((Some ∘ spec.consul_change <$> take i pp) ++ replicate k None)
  = Some (Some ∘ spec.consul_change <$> pp).
Proof.
  revert i. induction k as [|k IH]; intros i Hik.
  - simpl. rewrite app_nil_r, take_ge by lia. done.
  - cbn [consul.keyPrefix_loop].
    destruct (lookup_lt_is_Some_2 pp i) as [p Hp]; [lia|]. rewrite Hp.
    assert (Hlen : length (Some ∘ spec.consul_change <$> take i pp) = i).
    { rewrite length_fmap, length_take. lia. }
    rewrite decide_True
      by (rewrite length_app, Hlen, length_replicate; lia).
    rewrite insert_app_r_alt by lia. rewrite Hlen, Nat.sub_diag. simpl.
    specialize (IH (S i)). rewrite (take_S_r _ _ _ Hp), fmap_app in IH.
    rewrite <- app_assoc in IH. apply IH. lia.
Qed.

(** C6. Given [n] pairs, the prefix handler sends one batch of [n]
    changes: the change at position [i] is made of the pair at position
    [i], with the Consul source, the key and the value of the pair and its
    ModifyIndex as version. What the values were at the notification
    before plays no part. *)
Theorem keyPrefix_handler_sends_every_pair
    (idx : Z) (pp : list consul.KVPair) :
  ∃ batch : Batch,
    consul.keyPrefixHandler idx (consul.DataKVPairs pp) = Some (Some batch) ∧
    length batch = length pp ∧
    ∀ i p, pp !! i = Some p →
      batch !! i = Some (Some (change.New SourceConsul (consul.kv_Key p)
                                 (consul.kv_Value p)
                                 (consul.kv_ModifyIndex p))).
Proof.
  exists (Some ∘ spec.consul_change <$> pp).
  split; [|split].
  - unfold consul.keyPrefixHandler.
    pose proof (keyPrefix_loop_fills pp (length pp) 0 eq_refl) as Hloop.
    simpl in Hloop. by rewrite Hloop.
  - by rewrite length_fmap.
  - intros i p Hp. by rewrite list_lookup_fmap, Hp.
Qed.

End PushProps.

(** ** The monitor: dispatch *)

Section DispatchProps.

Context {St : Type} (F : FieldAPI St).

Lemma fieldSet_trace f value version (w : World St) :
  trace (fieldSet F f value version w).2
  = trace w ++ [EvSet f value version (fieldSet F f value version w).1].
Proof. unfold fieldSet. by destruct (Set_ F f value version (store w)). Qed.

Lemma set_calls_app tr1 tr2 :
  spec.set_calls (tr1 ++ tr2) = spec.set_calls tr1 ++ spec.set_calls tr2.
Proof. apply omap_app. Qed.

Lemma applyChange_cons mp (c : Change) (cs : list Change) (w : World St) :
  monitor.applyChange F mp (Some c :: (Some <$> cs)) w
  = monitor.applyChange F mp (Some <$> cs) (spec.dispatch_one F mp w c).
Proof.
  cbn [monitor.applyChange]. unfold spec.dispatch_one, spec.route.
  destruct (mp !! change.Source c) as [m|]; simpl; [|done].
  destruct (m !! change.Key c) as [fld|]; simpl; [|done].
  by destruct (fieldSet F fld (change.Value c) (change.Version c) w)
    as [[e|] w'].
Qed.

Lemma applyChange_fold mp (cs : list Change) (w : World St) :
  monitor.applyChange F mp (Some <$> cs) w
  = Some (foldl (spec.dispatch_one F mp) w cs).
Proof.
  revert w. induction cs as [|c cs IH]; intros w; [done|].
  rewrite fmap_cons, applyChange_cons. apply IH.
Qed.

Lemma dispatch_one_calls mp (w : World St) (c : Change) :
  spec.set_calls (trace (spec.dispatch_one F mp w c))
  = spec.set_calls (trace w) ++ option_list (spec.routed_call mp c).
Proof.
  unfold spec.dispatch_one, spec.routed_call.
  destruct (spec.route mp (change.Source c) (change.Key c)) as [fld|]; simpl.
  - by rewrite fieldSet_trace, set_calls_app.
  - by rewrite app_nil_r.
Qed.

Lemma dispatch_fold_calls mp (cs : list Change) (w : World St) :
  spec.set_calls (trace (foldl (spec.dispatch_one F mp) w cs))
  = spec.set_calls (trace w) ++ omap (spec.routed_call mp) cs.
Proof.
  revert w. induction cs as [|c cs IH]; intros w; simpl.
  - by rewrite app_nil_r.
  - rewrite IH, dispatch_one_calls, <- app_assoc. f_equal.
    by destruct (spec.routed_call mp c).
Qed.

(** C7. Dispatch of a batch never aborts and handles the changes one by
    one: the world after the batch is the world after each change in turn,
    where a change without a route does nothing and a change with a route
    is handed to [Set] whether or not [Set] fails. So [Set] is called once
    for every change that has a route, in the order of the batch, and a
    change without a route can be taken out of the batch without any
    effect on the others. *)
Theorem dispatch_handles_each_change_alone
    (mp : monitor.sourceMap) (cs : list Change) (w : World St) :
  ∃ w',
    monitor.applyChange F mp (Some <$> cs) w = Some w' ∧
    w' = foldl (spec.dispatch_one F mp) w cs ∧
    spec.set_calls (trace w')
      = spec.set_calls (trace w) ++ omap (spec.routed_call mp) cs ∧
    ∀ cs1 c cs2,
      cs = cs1 ++ c :: cs2 →
      spec.route mp (change.Source c) (change.Key c) = None →
      monitor.applyChange F mp (Some <$> cs1 ++ cs2) w = Some w'.
Proof.
  exists (foldl (spec.dispatch_one F mp) w cs).
  split; [apply applyChange_fold|]. split; [done|].
  split; [apply dispatch_fold_calls|].
  intros cs1 c cs2 -> Hnone. rewrite applyChange_fold. f_equal.
  rewrite !foldl_app. simpl. f_equal.
  generalize (foldl (spec.dispatch_one F mp) w cs1). intros w1.
  unfold spec.dispatch_one. by rewrite Hnone.
Qed.

End DispatchProps.

(** ** The monitor: the routing table *)

Section RoutingProps.

Context {St : Type} (F : FieldAPI St).
Variable range_order : ∀ A : Type, list A → list A.
Hypothesis range_order_perm : ∀ (A : Type) (l : list A), range_order A l ≡ₚ l.

Lemma route_insert (mp : monitor.sourceMap) m s0 k0 f s k :
  mp !! s0 = Some m →
  spec.route (<[s0 := <[k0 := f]> m]> mp) s k
  = if decide (s = s0 ∧ k = k0) then Some f else spec.route mp s k.
Proof.
  intros Hm. unfold spec.route.
  destruct (decide (s = s0)) as [->|Hs].
  - rewrite lookup_insert_eq, Hm. simpl.
    destruct (decide (k = k0)) as [->|Hk].
    + rewrite lookup_insert_eq. by rewrite decide_True.
    + rewrite lookup_insert_ne by done. case_decide; naive_solver.
  - rewrite lookup_insert_ne by done. case_decide; naive_solver.
Qed.

Lemma route_insert_singleton (mp : monitor.sourceMap) s0 k0 f s k :
  mp !! s0 = None →
  spec.route (<[s0 := {[k0 := f]}]> mp) s k
  = if decide (s = s0 ∧ k = k0) then Some f else spec.route mp s k.
Proof.
  intros Hm. unfold spec.route.
  destruct (decide (s = s0)) as [->|Hs].
  - rewrite lookup_insert_eq, Hm. simpl.
    destruct (decide (k = k0)) as [->|Hk].
    + rewrite lookup_singleton_eq. by rewrite decide_True.
    + rewrite lookup_singleton_ne by done. case_decide; naive_solver.
  - rewrite lookup_insert_ne by done. case_decide; naive_solver.
Qed.

(** One entry: it fails when its place in the table is taken, and
    otherwise takes the place, unless it is the seed entry. *)
Lemma generateMap_entry_spec f (mp : monitor.sourceMap) s0 k0 :
  match monitor.generateMap_entry f mp (s0, k0) with
  | inr e =>
      s0 ≠ SourceSeed ∧ is_Some (spec.route mp s0 k0) ∧
      e = ErrorsNew (spec.duplicate_text s0 k0)
  | inl mp' =>
      (s0 ≠ SourceSeed → spec.route mp s0 k0 = None) ∧
      (mp !! SourceSeed = None → mp' !! SourceSeed = None) ∧
      ∀ s k, spec.route mp' s k
             = if decide ((s = s0 ∧ k = k0) ∧ s0 ≠ SourceSeed) then Some f
               else spec.route mp s k
  end.
Proof.
  unfold monitor.generateMap_entry.
  destruct (decide (s0 = SourceSeed)) as [->|Hs0].
  { split; [done|]. split; [done|]. intros s k.
    case_decide; naive_solver. }
  destruct (mp !! s0) as [m|] eqn:Hm.
  - destruct (m !! k0) as [g|] eqn:Hk.
    + split; [done|]. split; [|done]. unfold spec.route.
      rewrite Hm. simpl. by rewrite Hk.
    + split; [intros _; unfold spec.route; rewrite Hm; simpl; by rewrite Hk|].
      split; [intros ?; by rewrite lookup_insert_ne|].
      intros s k. rewrite (route_insert _ _ _ _ _ _ _ Hm).
      repeat case_decide; naive_solver.
  - split; [intros _; unfold spec.route; by rewrite Hm|].
    split; [intros ?; by rewrite lookup_insert_ne|].
    intros s k. rewrite (route_insert_singleton _ _ _ _ _ _ Hm).
    repeat case_decide; naive_solver.
Qed.

(** The entries of one field, whose sources are pairwise different. *)
Lemma generateMap_field_spec f es (mp : monitor.sourceMap) :
  NoDup es.*1 →
  match monitor.generateMap_field f es mp with
  | inr e =>
      ∃ s k, (s, k) ∈ es ∧ s ≠ SourceSeed ∧ is_Some (spec.route mp s k) ∧
             e = ErrorsNew (spec.duplicate_text s k)
  | inl mp' =>
      (∀ s k, (s, k) ∈ es → s ≠ SourceSeed → spec.route mp s k = None) ∧
      (mp !! SourceSeed = None → mp' !! SourceSeed = None) ∧
      ∀ s k, spec.route mp' s k
             = if decide ((s, k) ∈ es ∧ s ≠ SourceSeed) then Some f
               else spec.route mp s k
  end.
Proof.
  revert mp. induction es as [|[s0 k0] es IH]; intros mp Hnd.
  { simpl. split; [intros ?? Hin; by apply elem_of_nil in Hin|].
    split; [done|]. done. }
  rewrite fmap_cons in Hnd. apply NoDup_cons in Hnd as [Hfresh Hnd].
  cbn [monitor.generateMap_field].
  pose proof (generateMap_entry_spec f mp s0 k0) as He.
  destruct (monitor.generateMap_entry f mp (s0, k0)) as [mp1|e].
  2:{ destruct He as (? & ? & ->). exists s0, k0. split; [left|done]. }
  destruct He as (Hfree & Hseed & Hroute).
  assert (Hother : ∀ s k, (s, k) ∈ es → spec.route mp1 s k = spec.route mp s k).
  { intros s k Hin. rewrite Hroute. rewrite decide_False; [done|].
    intros [[-> ->] _]. apply Hfresh. apply list_elem_of_fmap.
    by exists (s0, k0). }
  specialize (IH mp1 Hnd).
  destruct (monitor.generateMap_field f es mp1) as [mp'|e].
  - destruct IH as (IHfree & IHseed & IHroute). split; [|split].
    + intros s k Hin Hs. apply elem_of_cons in Hin as [[= -> ->]|Hin].
      * by apply Hfree.
      * rewrite <- Hother by done. by apply IHfree.
    + auto.
    + intros s k. rewrite IHroute, Hroute.
      repeat case_decide; try done; exfalso; set_solver.
  - destruct IH as (s & k & Hin & Hs & Htaken & ->).
    exists s, k. split; [by right|]. split; [done|].
    split; [|done]. by rewrite <- Hother.
Qed.

Lemma range_order_sources f :
  NoDup (range_order _ (map_to_list (Sources F f))).*1 ∧
  ∀ s k, (s, k) ∈ range_order _ (map_to_list (Sources F f))
         ↔ spec.claims F f s k.
Proof.
  split.
  - rewrite range_order_perm. apply NoDup_fst_map_to_list.
  - intros s k. rewrite range_order_perm. apply elem_of_map_to_list.
Qed.

(** The loop over the fields, from any table. *)
Lemma generateMap_loop_spec ff (mp : monitor.sourceMap) :
  match monitor.generateMap_loop F range_order ff mp with
  | inr e =>
      ∃ i f s k,
        ff !! i = Some f ∧ s ≠ SourceSeed ∧ spec.claims F f s k ∧
        e = ErrorsNew (spec.duplicate_text s k) ∧
        (is_Some (spec.route mp s k) ∨
         ∃ j g, (j < i)%nat ∧ ff !! j = Some g ∧ spec.claims F g s k)
  | inl mp' =>
      (∀ f s k, f ∈ ff → s ≠ SourceSeed → spec.claims F f s k →
                spec.route mp s k = None) ∧
      (∀ s k, ¬ spec.claimed_twice F ff s k) ∧
      (mp !! SourceSeed = None → mp' !! SourceSeed = None) ∧
      ∀ s k f, spec.route mp' s k = Some f ↔
               (spec.route mp s k = Some f ∨
                (f ∈ ff ∧ s ≠ SourceSeed ∧ spec.claims F f s k))
  end.
Proof.
  revert mp. induction ff as [|f0 ff IH]; intros mp.
  { simpl. split; [intros ??? Hin; by apply elem_of_nil in Hin|].
    split. { intros s k (_ & i & j & f & g & _ & Hi & _). done. }
    split; [done|]. intros s k f. split; [auto|].
    intros [?|[Hin _]]; [done|]. by apply elem_of_nil in Hin. }
  cbn [monitor.generateMap_loop].
  destruct (range_order_sources f0) as [Hnd Hmem].
  pose proof (generateMap_field_spec f0 _ mp Hnd) as Hfld.
  destruct (monitor.generateMap_field f0 _ mp) as [mp1|e].
  2:{ destruct Hfld as (s & k & Hin & Hs & Htaken & ->).
      exists 0%nat, f0, s, k. rewrite <- Hmem. auto 10. }
  destruct Hfld as (Hfree & Hseed & Hroute).
  assert (Hroute1 : ∀ s k f, spec.route mp1 s k = Some f ↔
            (f = f0 ∧ s ≠ SourceSeed ∧ spec.claims F f0 s k) ∨
            spec.route mp s k = Some f).
  { intros s k f. rewrite Hroute. case_decide as Hd.
    - destruct Hd as [Hin Hs]. rewrite (Hfree s k Hin Hs).
      apply Hmem in Hin. naive_solver.
    - rewrite Hmem in Hd. naive_solver. }
  specialize (IH mp1).
  destruct (monitor.generateMap_loop F range_order ff mp1) as [mp'|e].
  - destruct IH as (IHfree & IHtwice & IHseed & IHroute).
    assert (Hclash : ∀ g s k, g ∈ ff → s ≠ SourceSeed →
              spec.claims F g s k → ¬ spec.claims F f0 s k).
    { intros g s k Hg Hs Hc Hc0.
      pose proof (IHfree g s k Hg Hs Hc) as Hnone.
      assert (spec.route mp1 s k = Some f0) as Hsome
        by (apply Hroute1; auto).
      congruence. }
    split; [|split; [|split]].
    + intros f s k Hin Hs Hc. apply elem_of_cons in Hin as [->|Hin].
      * apply Hfree; [by apply Hmem|done].
      * pose proof (IHfree f s k Hin Hs Hc) as Hnone.
        destruct (spec.route mp s k) as [g|] eqn:Hr; [|done].
        assert (spec.route mp1 s k = Some g) by (apply Hroute1; auto).
        congruence.
    + intros s k (Hs & i & j & f & g & Hij & Hi & Hj & Hcf & Hcg).
      destruct j as [|j]; [lia|]. simpl in Hj.
      destruct i as [|i]; simpl in Hi.
      * injection Hi as <-.
        eapply Hclash; eauto. by eapply list_elem_of_lookup_2.
      * apply (IHtwice s k). split; [done|].
        exists i, j, f, g. repeat split; try done. lia.
    + auto.
    + intros s k f. rewrite IHroute, Hroute1, elem_of_cons. naive_solver.
  - destruct IH as (i & f & s & k & Hi & Hs & Hc & -> & Hor).
    exists (S i), f, s, k. repeat split; try done.
    destruct Hor as [[g Hg]|(j & g & Hj & Hjg & Hcg)].
    + destruct (proj1 (Hroute1 s k g) Hg) as [(-> & _ & Hc0)|Hg'].
      * right. exists 0%nat, f0. repeat split; try done. lia.
      * left. by exists g.
    + right. exists (S j), g. repeat split; try done. lia.
Qed.

(** C8. The routing table of [generateMap].
    - [generateMap] fails exactly when two fields of the list have the
      same key for the same source other than seed, and its error is the
      duplicate-key error of such a pair.
    - Otherwise the table has no entry for the seed source, and it gives
      a field for a source and a key exactly when that field of the list
      has this key for this source; no pair is claimed twice, so the
      field is the only one.
    - [New], given watchers, fails with that error and makes no
      [Monitor]; it is a function that calls no [Watch]. *)
Theorem routing_table_is_unique_or_construction_fails
    (ff : list FieldPtr) :
  ((∃ e, monitor.generateMap F range_order ff = inr e) ↔
   (∃ s k, spec.claimed_twice F ff s k)) ∧
  (∀ mp, monitor.generateMap F range_order ff = inl mp →
     mp !! SourceSeed = None ∧
     (∀ s k, ¬ spec.claimed_twice F ff s k) ∧
     ∀ s k f, spec.route mp s k = Some f ↔
              (f ∈ ff ∧ s ≠ SourceSeed ∧ spec.claims F f s k)) ∧
  (∀ (W : Type) (ww : list W),
     ww ≠ [] →
     (∃ s k, spec.claimed_twice F ff s k) →
     ∃ s k, spec.claimed_twice F ff s k ∧
            monitor.New F range_order (Some ff) ww
            = inr (ErrorsNew (spec.duplicate_text s k))).
Proof.
  pose proof (generateMap_loop_spec ff ∅) as Hspec.
  unfold monitor.New, monitor.generateMap.
  destruct (monitor.generateMap_loop F range_order ff ∅) as [mp|e].
  - destruct Hspec as (_ & Htwice & Hseed & Hroute).
    split; [|split].
    + split; [by intros [e ?]|]. intros (s & k & H2). by destruct (Htwice s k).
    + intros mp' [= <-]. split; [by apply Hseed|]. split; [done|].
      intros s k f. rewrite Hroute. unfold spec.route at 1.
      rewrite lookup_empty. naive_solver.
    + intros W ww _ (s & k & H2). by destruct (Htwice s k).
  - destruct Hspec as (i & f & s & k & Hi & Hs & Hc & -> & Hor).
    assert (H2 : spec.claimed_twice F ff s k).
    { destruct Hor as [[g Hg]|(j & g & Hj & Hjg & Hcg)].
      - unfold spec.route in Hg. by rewrite lookup_empty in Hg.
      - split; [done|]. by exists j, i, g, f. }
    split; [|split].
    + split; eauto.
    + done.
    + intros W ww Hww _. exists s, k. split; [done|].
      rewrite decide_False; [done|]. by destruct ww.
Qed.

End RoutingProps.

(** ** The seeder: a failing [Set] *)

Section SeedFailure.

Context {St : Type} (F : FieldAPI St).
Variable range_order : ∀ A : Type, list A → list A.
Variable os : seed.OS.
Variable s : seed.Seeder.

Abbreviation state := (seed.state (St := St)).
Abbreviation ctl := (seed.ctl (St := St)).

Lemma clean_app evs1 evs2 :
  spec.clean (evs1 ++ evs2) ↔ spec.clean evs1 ∧ spec.clean evs2.
Proof. apply Forall_app. Qed.

Lemma last_kept (c : ctl) (x : state) :
  trace (seed.world (spec.ctl_state c)) = trace (seed.world x) →
  spec.set_failure_last (trace (seed.world x)) c.
Proof.
  intros Htr. exists []. rewrite app_nil_r. split; [done|]. left. constructor.
Qed.

(** A statement that only records a lookup. *)
Lemma last_recorded (c : ctl) (x : state) (ev : event) :
  spec.failed_set ev = false →
  trace (seed.world (spec.ctl_state c)) = trace (seed.world x) ++ [ev] →
  spec.set_failure_last (trace (seed.world x)) c.
Proof.
  intros Hev Htr. exists [ev]. split; [done|]. left. by repeat constructor.
Qed.

Lemma last_trans tr0 (c : ctl) (x : state) evs :
  trace (seed.world x) = tr0 ++ evs → spec.clean evs →
  spec.set_failure_last (trace (seed.world x)) c →
  spec.set_failure_last tr0 c.
Proof.
  intros Htr Hclean (evs' & Htr' & Hcase).
  exists (evs ++ evs'). rewrite Htr' , Htr, <- app_assoc. split; [done|].
  destruct Hcase as [Hc|(evs0 & f & v & ver & e & y & -> & Hc & ->)].
  - left. by apply clean_app.
  - right. exists (evs ++ evs0), f, v, ver, e, y.
    rewrite <- app_assoc. split; [done|]. split; [|done]. by apply clean_app.
Qed.

Lemma last_andThen tr0 (c : ctl) (k : state → ctl) :
  spec.set_failure_last tr0 c →
  (∀ x, c = seed.Go x → spec.set_failure_last (trace (seed.world x)) (k x)) →
  spec.set_failure_last tr0 (seed.andThen c k).
Proof.
  intros Hc Hk. destruct c as [x| | |]; try done. simpl.
  destruct Hc as (evs & Htr & [Hclean|(? & ? & ? & ? & ? & ? & _ & _ & ?)]);
    [|done].
  eapply last_trans; eauto.
Qed.

Lemma last_apply f value version (x : state) :
  spec.set_failure_last (trace (seed.world x)) (seed.apply F f value version x).
Proof.
  unfold seed.apply, fieldSet.
  destruct (Set_ F f value version (store (seed.world x))) as [[e|] st'].
  - exists [EvSet f value version (Some e)]. split; [done|]. right.
    eexists [], f, value, version, e, _. split; [done|]. split; [|done].
    constructor.
  - exists [EvSet f value version None]. split; [done|]. left.
    by repeat constructor.
Qed.

Lemma last_seedSeed f (x : state) :
  spec.set_failure_last (trace (seed.world x)) (seed.seedSeed F f x).
Proof.
  unfold seed.seedSeed. destruct (Sources F f !! SourceSeed).
  - apply last_apply.
  - by apply last_kept.
Qed.

Lemma last_seedEnv f (x : state) :
  spec.set_failure_last (trace (seed.world x)) (seed.seedEnv F os f x).
Proof.
  unfold seed.seedEnv. destruct (Sources F f !! SourceEnv) as [key|];
    [|by apply last_kept].
  destruct (seed.LookupEnv os key).
  - eapply (last_trans _ _ _ [EvLookupEnv key]); [| |apply last_apply].
    + done.
    + by repeat constructor.
  - by apply (last_recorded _ _ (EvLookupEnv key)).
Qed.

Lemma flagVar_None (o : seed.OS) (name : string) (defined : list string) :
  seed.flagVar o name defined = None ↔
  spec.flag_name_ok name ∧ name ∉ defined.
Proof.
  unfold seed.flagVar, spec.flag_name_ok.
  destruct (seed.HasPrefix name "-"); [by split; [|intros [[? ?] ?]]|].
  destruct (seed.Contains name "="); [by split; [|intros [[? ?] ?]]|].
  case_decide; split; try done. by intros [_ ?].
Qed.

Lemma last_seedFlag f (x : state) :
  spec.set_failure_last (trace (seed.world x)) (seed.seedFlag F os f x).
Proof.
  unfold seed.seedFlag. destruct (Sources F f !! SourceFlag) as [key|];
    [|by apply last_kept].
  destruct (seed.flagVar os key _); by apply last_kept.
Qed.

Lemma last_seedFile f (x : state) :
  spec.set_failure_last (trace (seed.world x)) (seed.seedFile F os f x).
Proof.
  unfold seed.seedFile. destruct (Sources F f !! SourceFile) as [key|];
    [|by apply last_kept].
  destruct (seed.ReadFile os key).
  - eapply (last_trans _ _ _ [EvReadFile key]); [| |apply last_apply].
    + done.
    + by repeat constructor.
  - by apply (last_recorded _ _ (EvReadFile key)).
Qed.

Lemma last_seedGetter src f (x : state) :
  spec.set_failure_last (trace (seed.world x)) (seed.seedGetter F s src f x).
Proof.
  unfold seed.seedGetter. destruct (Sources F f !! src) as [key|];
    [|by apply last_kept].
  destruct (seed.getters s !! src) as [gtr|]; [|by apply last_kept].
  destruct (seed.g_err (gtr key));
    [by apply (last_recorded _ _ (EvGet src key))|].
  destruct (seed.g_value (gtr key));
    [|by apply (last_recorded _ _ (EvGet src key))].
  eapply (last_trans _ _ _ [EvGet src key]); [| |apply last_apply].
  - done.
  - by repeat constructor.
Qed.

Lemma last_seedField f (x : state) :
  spec.set_failure_last (trace (seed.world x)) (seed.seedField F os s f x).
Proof.
  unfold seed.seedField.
  repeat (apply last_andThen; [|intros ? _]);
    auto using last_seedEnv, last_seedFlag, last_seedFile, last_seedGetter.
  apply (last_seedSeed f (seed.mark f false x)).
Qed.

Lemma last_seedFields ff (x : state) :
  spec.set_failure_last (trace (seed.world x)) (seed.seedFields F os s ff x).
Proof.
  revert x. induction ff as [|f ff IH]; intros x; [by apply last_kept|].
  cbn [seed.seedFields].
  pose proof (last_seedField f x) as Hf.
  destruct (seed.seedField F os s f x) as [x'|x'|err x'|msg x'] eqn:Hc;
    try done.
  - destruct Hf as (evs & Htr & [Hclean|(? & ? & ? & ? & ? & ? & _ & _ & ?)]);
      [|done].
    eapply last_trans; eauto.
  - destruct Hf as (evs & Htr & [Hclean|(? & ? & ? & ? & ? & ? & _ & _ & ?)]);
      [|done].
    eapply last_trans; eauto.
Qed.

Lemma last_applyFlags fis (x : state) :
  spec.set_failure_last (trace (seed.world x)) (seed.applyFlags F os fis x).
Proof.
  revert x. induction fis as [|fi fis IH]; intros x; [by apply last_kept|].
  cbn [seed.applyFlags]. destruct (seed.ParsedFlag os (seed.fi_key fi)).
  - apply last_andThen; [apply last_apply|]. intros ? _. apply IH.
  - apply IH.
Qed.

Lemma last_seedFlags (x : state) :
  spec.set_failure_last (trace (seed.world x)) (seed.seedFlags F os x).
Proof.
  unfold seed.seedFlags. case_decide; [apply last_applyFlags|].
  by apply last_kept.
Qed.

Lemma clean_no_failure evs f value version e :
  spec.clean evs → EvSet f value version (Some e) ∉ evs.
Proof.
  intros Hclean Hin. unfold spec.clean in Hclean.
  rewrite Forall_forall in Hclean. by apply Hclean in Hin.
Qed.

(** What [set_failure_last] says of the call as a whole. *)
Lemma last_outcome tr0 (c : ctl) (out : seed.outcome) :
  spec.set_failure_last tr0 c →
  (∀ err x, c = seed.Return err x → out = seed.Returned (Some err)) →
  ∃ evs,
    trace (seed.world (spec.ctl_state c)) = tr0 ++ evs ∧
    ∀ f value version e,
      EvSet f value version (Some e) ∈ evs →
      out = seed.Returned (Some (FieldErr e)) ∧
      ∃ evs0, evs = evs0 ++ [EvSet f value version (Some e)] ∧
              spec.clean evs0.
Proof.
  intros (evs & Htr & Hcase) Hout. exists evs. split; [done|].
  intros f value version e Hin.
  destruct Hcase as [Hc|(evs0 & f' & v' & ver' & e' & y & -> & Hc & ->)].
  { by apply clean_no_failure in Hin. }
  apply elem_of_app in Hin as [Hin|Hin].
  { by apply clean_no_failure in Hin. }
  apply list_elem_of_singleton in Hin. injection Hin as -> -> -> ->.
  split; [by eapply Hout|]. by exists evs0.
Qed.

(** C10. A call of [Set] that fails ends the call of [Seed]: whatever the
    source that was being applied (seed, env, file, consul, redis or a
    flag), the failing call is the last thing that [Seed] does (no lookup
    and no call of [Set] follows, be it for the same field or for
    another) and [Seed] returns the error of that call, not an error of
    its own making such as the list of the fields that are not seeded. *)
Theorem seed_aborts_on_set_failure
    (cfg : list FieldPtr) (w : World St) :
  ∃ evs,
    trace (seed.Seed F range_order os s cfg w).1 = trace w ++ evs ∧
    ∀ f value version e,
      EvSet f value version (Some e) ∈ evs →
      (seed.Seed F range_order os s cfg w).2
        = seed.Returned (Some (FieldErr e)) ∧
      ∃ evs0, evs = evs0 ++ [EvSet f value version (Some e)] ∧
              spec.clean evs0.
Proof.
  unfold seed.Seed.
  pose proof (last_seedFields cfg
    {| seed.world := w; seed.seedMap := ∅; seed.flagInfos := [] |}) as H1.
  simpl in H1.
  destruct (seed.seedFields F os s cfg _) as [x|x|err x|msg x] eqn:Hc1.
  3,4: by (eapply (last_outcome _ _ _ H1); intros ?? [= -> ->]).
  all: pose proof (last_seedFlags x) as H2;
    destruct H1 as (evs1 & Htr1 & [Hclean|(? & ? & ? & ? & ? & ? & _ & _ & ?)]);
      [|done];
    pose proof (last_trans _ _ _ _ Htr1 Hclean H2) as H3;
    destruct (seed.seedFlags F os x) as [x'|x'|err x'|msg x'] eqn:Hc2;
    by (eapply (last_outcome _ _ _ H3); intros ?? [= -> ->]).
Qed.

End SeedFailure.

(** ** The seeder: what ends it early *)

Section SeedAborts.

Context {St : Type} (F : FieldAPI St).
Variable range_order : ∀ A : Type, list A → list A.
Variable os : seed.OS.
Variable s : seed.Seeder.

Abbreviation state := (seed.state (St := St)).
Abbreviation ctl := (seed.ctl (St := St)).

Lemma abort_apply f value version (x x' : state) err :
  seed.apply F f value version x = seed.Return err x' →
  spec.abort_error err.
Proof.
  unfold seed.apply.
  destruct (fieldSet F f value version (seed.world x)) as [[e|] w'];
    intros [= <- _]. left. by exists e.
Qed.

Lemma abort_andThen (c : ctl) (k : state → ctl) err (x' : state) :
  seed.andThen c k = seed.Return err x' →
  c = seed.Return err x' ∨ ∃ x1, c = seed.Go x1 ∧ k x1 = seed.Return err x'.
Proof. destruct c as [x1| | |]; simpl; eauto. Qed.

Lemma abort_seedGetter src f (x x' : state) err :
  src = SourceConsul ∨ src = SourceRedis →
  seed.seedGetter F s src f x = seed.Return err x' →
  spec.abort_error err.
Proof.
  intros Hsrc. unfold seed.seedGetter.
  destruct (Sources F f !! src) as [key|]; [|done].
  destruct (seed.getters s !! src) as [gtr|].
  - destruct (seed.g_err (gtr key)); [done|].
    destruct (seed.g_value (gtr key)); [|done]. apply abort_apply.
  - intros [= <- _]. right. by destruct Hsrc as [-> | ->]; [left|right].
Qed.

Lemma abort_seedField f (x x' : state) err :
  seed.seedField F os s f x = seed.Return err x' → spec.abort_error err.
Proof.
  unfold seed.seedField, seed.seedSeed, seed.seedEnv, seed.seedFlag,
    seed.seedFile.
  intros H.
  repeat (apply abort_andThen in H as [H|(? & _ & H)]);
    repeat (case_match; try done);
    eauto using abort_apply, abort_seedGetter.
Qed.

Lemma abort_seedFields ff : ∀ (x x' : state) err,
  seed.seedFields F os s ff x = seed.Return err x' → spec.abort_error err.
Proof.
  induction ff as [|f ff IH]; intros x x' err; [done|].
  cbn [seed.seedFields].
  destruct (seed.seedField F os s f x) as [x1|x1|e x1|msg x1] eqn:Hc;
    try done; eauto.
  intros [= <- _]. by eapply abort_seedField.
Qed.

Lemma abort_applyFlags fis : ∀ (x x' : state) err,
  seed.applyFlags F os fis x = seed.Return err x' → spec.abort_error err.
Proof.
  induction fis as [|fi fis IH]; intros x x' err; [done|].
  cbn [seed.applyFlags].
  destruct (seed.ParsedFlag os (seed.fi_key fi)); [|by eauto].
  intros [H|(x1 & _ & H)]%abort_andThen; eauto using abort_apply.
Qed.

(** When a loop of [Seed] does not run to its end, [Seed] panics (a flag
    name is refused: it begins with "-", contains "=" or is defined
    already) or returns the error of a failing [Set] or the error for a
    missing getter. *)
Lemma seed_ends_early_on_abort (cfg : list FieldPtr) (w : World St) :
  spec.completes F os s cfg w = false →
  (∃ msg, (seed.Seed F range_order os s cfg w).2 = seed.Panicked msg) ∨
  (∃ err, (seed.Seed F range_order os s cfg w).2 = seed.Returned (Some err) ∧
          spec.abort_error err).
Proof.
  unfold spec.completes, seed.Seed.
  destruct (seed.seedFields F os s cfg _) as [x|x|err x|msg x] eqn:H1.
  3:{ intros _. right. exists err. split; [done|]. by eapply abort_seedFields. }
  3:{ intros _. left. by exists msg. }
  all: unfold seed.seedFlags;
    destruct (decide (0 < length (seed.flagInfos x))%nat); [|done];
    destruct (seed.applyFlags F os (seed.flagInfos x) x)
      as [x'|x'|err x'|msg x'] eqn:H2; try done; intros _;
    [right; exists err; split; [done|]; by eapply abort_applyFlags
    |left; by exists msg].
Qed.

End SeedAborts.

(** ** The seeder: which fields are seeded *)

Section StringFacts.

Lemma append_cons c (a b : string) : String c a +:+ b = String c (a +:+ b).
Proof. reflexivity. Qed.

Lemma append_empty_r (a : string) : a +:+ "" = a.
Proof. induction a as [|c a IH]; [done|]. by rewrite append_cons, IH. Qed.

Lemma append_assoc (a b c : string) : (a +:+ b) +:+ c = a +:+ b +:+ c.
Proof. induction a as [|ch a IH]; [done|]. by rewrite !append_cons, IH. Qed.

Lemma length_append (a b : string) :
  String.length (a +:+ b) = (String.length a + String.length b)%nat.
Proof.
  induction a as [|ch a IH]; [done|]. rewrite append_cons. simpl.
  by rewrite IH.
Qed.

End StringFacts.

Section SeedCompletes.

Context {St : Type} (F : FieldAPI St).
Variable range_order : ∀ A : Type, list A → list A.
Hypothesis range_order_perm : ∀ (A : Type) (l : list A), range_order A l ≡ₚ l.
Variable os : seed.OS.
Variable s : seed.Seeder.

Abbreviation state := (seed.state (St := St)).
Abbreviation ctl := (seed.ctl (St := St)).

Lemma received_app f evs1 evs2 :
  spec.received_value f (evs1 ++ evs2)
  = spec.received_value f evs1 || spec.received_value f evs2.
Proof. unfold spec.received_value. apply existsb_app. Qed.

Lemma replay_app (st : St) evs1 evs2 :
  spec.replay F st (evs1 ++ evs2) = spec.replay F (spec.replay F st evs1) evs2.
Proof. unfold spec.replay. apply foldl_app. Qed.

Lemma field_step_refl f (x x' : state) :
  seed.world x' = seed.world x → seed.seedMap x' = seed.seedMap x →
  (∀ fi, fi ∈ seed.flagInfos x' →
         fi ∈ seed.flagInfos x ∨ seed.fi_field fi = f) →
  spec.field_step F f x x'.
Proof.
  intros Hw Hm Hfl. exists []. rewrite Hw, app_nil_r. by repeat split.
Qed.

Lemma field_step_trans f (x1 x2 x3 : state) :
  spec.field_step F f x1 x2 → spec.field_step F f x2 x3 →
  spec.field_step F f x1 x3.
Proof.
  intros (evs1 & Ht1 & Hs1 & Ho1 & Hm1 & Hf1) (evs2 & Ht2 & Hs2 & Ho2 & Hm2 & Hf2).
  exists (evs1 ++ evs2). split; [by rewrite Ht2, Ht1, app_assoc|].
  split; [by rewrite Hs2, Hs1, replay_app|].
  split; [intros g Hg; by rewrite received_app, Ho1, Ho2|].
  split.
  - rewrite Hm2, Hm1, received_app.
    destruct (spec.received_value f evs1), (spec.received_value f evs2);
      simpl; try done. by rewrite insert_insert_eq.
  - intros fi Hfi. destruct (Hf2 fi Hfi) as [Hin|?]; [|by right]. by apply Hf1.
Qed.

(** A lookup is recorded and nothing else happens. *)
Lemma field_step_record f (x : state) (ev : event) :
  (∀ g, spec.on_field g ev = false) →
  spec.field_step F f x (seed.set_world (record_event ev (seed.world x)) x).
Proof.
  intros Hev. exists [ev]. split; [done|]. split.
  { simpl. by destruct ev as [g ? ? ?| | |]; [specialize (Hev g); simpl in Hev;
      by rewrite bool_decide_eq_true_2 in Hev|..]. }
  split; [intros g _; simpl; by rewrite Hev|].
  split; [simpl; by rewrite Hev|]. auto.
Qed.

Lemma field_step_apply f value version (x x' : state) :
  spec.passes (seed.apply F f value version x) x' →
  spec.field_step F f x x'.
Proof.
  unfold seed.apply, fieldSet. intros Hp.
  destruct (Set_ F f value version (store (seed.world x))) as [[e|] st'] eqn:HS;
    destruct Hp as [[= <-]|[=]].
  exists [EvSet f value version None]. split; [done|].
  split; [simpl; by rewrite HS|].
  split. { intros g Hg. simpl. by rewrite bool_decide_eq_false_2. }
  split; [|auto]. simpl. by rewrite bool_decide_eq_true_2.
Qed.

Lemma passes_andThen (c : ctl) (k : state → ctl) (x' : state) :
  spec.passes (seed.andThen c k) x' →
  c = seed.Continue x' ∨ ∃ x1, c = seed.Go x1 ∧ spec.passes (k x1) x'.
Proof.
  destruct c as [x1| | |]; simpl; intros [H|H]; try done; eauto.
  - right. exists x1. split; [done|]. by left.
  - right. exists x1. split; [done|]. by right.
Qed.

Lemma passes_Go (x x' : state) : spec.passes (seed.Go x) x' → x' = x.
Proof. by intros [[=]|[=]]. Qed.

Lemma passes_Continue (x x' : state) :
  spec.passes (seed.Continue x) x' → x' = x.
Proof. by intros [[=]|[=]]. Qed.

Lemma field_step_seedSeed f (x x' : state) :
  spec.passes (seed.seedSeed F f x) x' → spec.field_step F f x x'.
Proof.
  unfold seed.seedSeed. destruct (Sources F f !! SourceSeed).
  - apply field_step_apply.
  - intros ->%passes_Go. by apply field_step_refl; auto.
Qed.

Lemma field_step_seedEnv f (x x' : state) :
  spec.passes (seed.seedEnv F os f x) x' → spec.field_step F f x x'.
Proof.
  unfold seed.seedEnv. destruct (Sources F f !! SourceEnv) as [key|].
  - destruct (seed.LookupEnv os key).
    + intros Hp. eapply field_step_trans;
        [by apply (field_step_record f x (EvLookupEnv key))
        |by eapply field_step_apply].
    + intros ->%passes_Go.
      by apply (field_step_record f x (EvLookupEnv key)).
  - intros ->%passes_Go. by apply field_step_refl; auto.
Qed.

Lemma field_step_seedFlag f (x x' : state) :
  spec.passes (seed.seedFlag F os f x) x' → spec.field_step F f x x'.
Proof.
  unfold seed.seedFlag. destruct (Sources F f !! SourceFlag) as [key|].
  - destruct (seed.flagVar os key _); [by intros [[=]|[=]]|].
    intros ->%passes_Go.
    apply field_step_refl; try done. simpl. intros fi Hfi.
    apply elem_of_app in Hfi as [?|Hfi]; [by left|].
    apply list_elem_of_singleton in Hfi as ->. by right.
  - intros ->%passes_Go. by apply field_step_refl; auto.
Qed.

Lemma field_step_seedFile f (x x' : state) :
  spec.passes (seed.seedFile F os f x) x' → spec.field_step F f x x'.
Proof.
  unfold seed.seedFile. destruct (Sources F f !! SourceFile) as [key|].
  - destruct (seed.ReadFile os key).
    + intros Hp. eapply field_step_trans;
        [by apply (field_step_record f x (EvReadFile key))
        |by eapply field_step_apply].
    + intros ->%passes_Go.
      by apply (field_step_record f x (EvReadFile key)).
  - intros ->%passes_Go. by apply field_step_refl; auto.
Qed.

Lemma field_step_seedGetter src f (x x' : state) :
  spec.passes (seed.seedGetter F s src f x) x' → spec.field_step F f x x'.
Proof.
  unfold seed.seedGetter. destruct (Sources F f !! src) as [key|].
  - destruct (seed.getters s !! src) as [gtr|]; [|by intros [[=]|[=]]].
    destruct (seed.g_err (gtr key)).
    { intros ->%passes_Continue.
      by apply (field_step_record f x (EvGet src key)). }
    destruct (seed.g_value (gtr key)).
    + intros Hp. eapply field_step_trans;
        [by apply (field_step_record f x (EvGet src key))
        |by eapply field_step_apply].
    + intros ->%passes_Continue.
      by apply (field_step_record f x (EvGet src key)).
  - intros ->%passes_Go. by apply field_step_refl; auto.
Qed.

Local Ltac seed_chain Hp lem :=
  let x1 := fresh "x" in
  let H1 := fresh "H" in
  apply passes_andThen in Hp as [Hp|(x1 & H1 & Hp)];
  [ eapply lem; right; exact Hp
  | eapply field_step_trans; [eapply lem; left; exact H1|] ].

(** The body of the loop, after [seedMap[f] = false]. *)
Lemma field_step_seedField f (x x' : state) :
  spec.passes (seed.seedField F os s f x) x' →
  spec.field_step F f (seed.mark f false x) x'.
Proof.
  unfold seed.seedField. intros Hp.
  seed_chain Hp field_step_seedSeed.
  seed_chain Hp field_step_seedEnv.
  seed_chain Hp field_step_seedFlag.
  seed_chain Hp field_step_seedFile.
  seed_chain Hp field_step_seedGetter.
  by eapply field_step_seedGetter.
Qed.

Lemma received_none_outside w done (x : state) f :
  spec.seed_inv F w done x → f ∉ done →
  ∀ evs, trace (seed.world x) = trace w ++ evs →
         spec.received_value f evs = false.
Proof.
  intros (evs & Htr & _ & Hdone & _) Hf evs' Htr'.
  rewrite Htr in Htr'. apply app_inv_head in Htr' as <-.
  destruct (spec.received_value f evs) eqn:Hr; [|done].
  by apply Hdone in Hr.
Qed.

(** A turn of the loop for a field that is not done yet. *)
Lemma seed_inv_field w done f (x x' : state) :
  spec.seed_inv F w done x → f ∉ done →
  spec.field_step F f (seed.mark f false x) x' →
  spec.seed_inv F w (f :: done) x'.
Proof.
  intros Hinv Hf (evs2 & Ht2 & Hs2 & Ho2 & Hm2 & Hf2).
  pose proof Hinv as (evs1 & Ht1 & Hs1 & Hdone & Hmap & Hflags).
  simpl in *. exists (evs1 ++ evs2).
  split; [by rewrite Ht2, Ht1, app_assoc|].
  split; [by rewrite Hs2, Hs1, replay_app|].
  assert (Hfresh : spec.received_value f evs1 = false).
  { destruct (spec.received_value f evs1) eqn:Hr; [|done].
    by apply Hdone in Hr. }
  split; [|split].
  - intros g. rewrite received_app, orb_true_iff.
    intros [Hg|Hg]; [right; by apply Hdone|].
    destruct (decide (g = f)) as [->|Hne]; [left|]. by rewrite Ho2 in Hg.
  - intros g. rewrite Hm2, received_app.
    destruct (decide (g = f)) as [->|Hne].
    + rewrite decide_True by left. rewrite Hfresh. simpl.
      destruct (spec.received_value f evs2); by rewrite lookup_insert_eq.
    + rewrite (Ho2 g Hne), orb_false_r.
      assert (Hg : (if spec.received_value f evs2
                    then <[f:=true]> (<[f:=false]> (seed.seedMap x))
                    else <[f:=false]> (seed.seedMap x)) !! g
                   = seed.seedMap x !! g).
      { destruct (spec.received_value f evs2);
          by rewrite !lookup_insert_ne. }
      rewrite Hg, Hmap. repeat case_decide; set_solver.
  - intros fi Hfi. destruct (Hf2 fi Hfi) as [Hin| ->]; [|left].
    right. by apply Hflags.
Qed.

(** The loop over the fields, when it runs to its end. *)
Lemma seed_inv_seedFields w ff : ∀ done (x x' : state),
  spec.seed_inv F w done x → NoDup (ff ++ done) →
  spec.passes (seed.seedFields F os s ff x) x' →
  spec.seed_inv F w (reverse ff ++ done) x'.
Proof.
  induction ff as [|f ff IH]; intros done x x' Hinv Hnd Hp.
  { by apply passes_Go in Hp as ->. }
  cbn [seed.seedFields] in Hp. simpl in Hnd.
  apply NoDup_cons in Hnd as [Hf Hnd].
  rewrite reverse_cons, <- app_assoc. simpl.
  assert (Hturn : ∀ x1, spec.passes (seed.seedField F os s f x) x1 →
            spec.passes (seed.seedFields F os s ff x1) x' →
            spec.seed_inv F w (reverse ff ++ f :: done) x').
  { intros x1 H1 H2.
    apply (IH (f :: done) x1 x');
      [|rewrite <- Permutation_middle; by constructor|done].
    apply (seed_inv_field _ _ _ x); [done|set_solver|].
    by apply field_step_seedField. }
  destruct (seed.seedField F os s f x) as [x1|x1|err x1|msg x1] eqn:Hc.
  - apply (Hturn x1); [by left|done].
  - apply (Hturn x1); [by right|done].
  - by destruct Hp as [[=]|[=]].
  - by destruct Hp as [[=]|[=]].
Qed.

(** Work on a field that is done already (a flag of the field). *)
Lemma seed_inv_again w done f (x x' : state) :
  spec.seed_inv F w done x → f ∈ done →
  spec.field_step F f x x' →
  spec.seed_inv F w done x'.
Proof.
  intros (evs1 & Ht1 & Hs1 & Hdone & Hmap & Hflags) Hf
         (evs2 & Ht2 & Hs2 & Ho2 & Hm2 & Hf2).
  exists (evs1 ++ evs2).
  split; [by rewrite Ht2, Ht1, app_assoc|].
  split; [by rewrite Hs2, Hs1, replay_app|].
  split; [|split].
  - intros g. rewrite received_app, orb_true_iff.
    intros [Hg|Hg]; [by apply Hdone|].
    destruct (decide (g = f)) as [->|Hne]; [done|]. by rewrite Ho2 in Hg.
  - intros g. rewrite Hm2, received_app.
    destruct (decide (g = f)) as [->|Hne].
    + pose proof (Hmap f) as Hmf. rewrite decide_True in Hmf by done.
      rewrite decide_True by done.
      destruct (spec.received_value f evs2).
      * by rewrite lookup_insert_eq, orb_true_r.
      * by rewrite Hmf, orb_false_r.
    + rewrite (Ho2 g Hne), orb_false_r.
      destruct (spec.received_value f evs2);
        rewrite ?lookup_insert_ne by done; apply Hmap.
  - intros fi Hfi. destruct (Hf2 fi Hfi) as [Hin| ->]; [|done].
    by apply Hflags.
Qed.

Lemma apply_flagInfos f value version (x x' : state) :
  spec.passes (seed.apply F f value version x) x' →
  seed.flagInfos x' = seed.flagInfos x.
Proof.
  unfold seed.apply.
  destruct (fieldSet F f value version (seed.world x)) as [[e|] w'];
    by intros [[= <-]|[=]].
Qed.

Lemma seed_inv_applyFlags w done fis : ∀ (x x' : state),
  spec.seed_inv F w done x →
  Forall (λ fi, seed.fi_field fi ∈ done) fis →
  spec.passes (seed.applyFlags F os fis x) x' →
  spec.seed_inv F w done x'.
Proof.
  induction fis as [|fi fis IH]; intros x x' Hinv Hfis Hp.
  { by apply passes_Go in Hp as ->. }
  apply Forall_cons in Hfis as [Hfi Hfis]. cbn [seed.applyFlags] in Hp.
  destruct (seed.ParsedFlag os (seed.fi_key fi)) as [value|]; [|by eapply IH].
  apply passes_andThen in Hp as [Hp|(x1 & H1 & Hp)].
  - eapply seed_inv_again; [done..|]. eapply field_step_apply. by right.
  - apply (IH x1 x'); [|done..].
    eapply seed_inv_again; [done..|]. eapply field_step_apply. by left.
Qed.

Lemma seed_inv_seedFlags w done (x x' : state) :
  spec.seed_inv F w done x →
  spec.passes (seed.seedFlags F os x) x' →
  spec.seed_inv F w done x'.
Proof.
  intros Hinv. unfold seed.seedFlags. case_decide.
  - apply seed_inv_applyFlags; [done|].
    destruct Hinv as (_ & _ & _ & _ & _ & Hflags). by apply Forall_forall.
  - by intros ->%passes_Go.
Qed.

(** The text in the builder: the texts of the entries that are false, in
    the order of the loop. *)
Lemma notSeeded_fold (l : list (FieldPtr * bool)) : ∀ acc,
  foldl (λ sb e, if e.2 : bool then sb
                 else sb +:+ ("field " +:+ Name F e.1 +:+ " not seeded"))
        acc l
  = acc +:+ spec.not_seeded_texts F (filter (λ e, e.2 = false) l).*1.
Proof.
  induction l as [|[f b] l IH]; intros acc.
  { simpl. by rewrite append_empty_r. }
  cbn [foldl snd fst]. rewrite IH. destruct b.
  - by rewrite filter_cons_False.
  - rewrite filter_cons_True by done. rewrite fmap_cons.
    cbn [spec.not_seeded_texts foldr fst]. unfold spec.not_seeded_text.
    by rewrite !append_assoc.
Qed.

Lemma not_seeded_texts_app l1 l2 :
  spec.not_seeded_texts F (l1 ++ l2)
  = spec.not_seeded_texts F l1 +:+ spec.not_seeded_texts F l2.
Proof.
  induction l1 as [|f l1 IH]; simpl; [done|]. by rewrite IH, append_assoc.
Qed.

Lemma not_seeded_texts_length l :
  (0 < String.length (spec.not_seeded_texts F l))%nat ↔ l ≠ [].
Proof.
  destruct l as [|f l]; simpl; [split; [lia|done]|].
  split; [done|]. intros _. unfold spec.not_seeded_text.
  rewrite !length_append. simpl. lia.
Qed.

Lemma not_seeded_texts_names l f :
  f ∈ l → spec.names_field F (spec.not_seeded_texts F l) f.
Proof.
  intros (l1 & l2 & ->)%list_elem_of_split.
  exists (spec.not_seeded_texts F l1), (spec.not_seeded_texts F l2).
  by rewrite not_seeded_texts_app.
Qed.

Lemma unseeded_of_pairs (r : FieldPtr → bool) (l : list FieldPtr) :
  (filter (λ e : FieldPtr * bool, e.2 = false) ((λ f, (f, r f)) <$> l)).*1
  = filter (λ f, r f = false) l.
Proof.
  induction l as [|f l IH]; [done|]. rewrite fmap_cons.
  destruct (r f) eqn:Hr.
  - rewrite !filter_cons_False by (simpl; congruence). done.
  - rewrite !filter_cons_True by done. rewrite fmap_cons. simpl. by f_equal.
Qed.

(** The entries of [seedMap] when all fields are done. *)
Lemma seed_inv_entries w done (x : state) evs :
  NoDup done →
  trace (seed.world x) = trace w ++ evs →
  spec.seed_inv F w done x →
  map_to_list (seed.seedMap x)
  ≡ₚ (λ f, (f, spec.received_value f evs)) <$> done.
Proof.
  intros Hnd Htr (evs' & Htr' & _ & _ & Hmap & _).
  rewrite Htr in Htr'. apply app_inv_head in Htr' as <-.
  set (g := λ f : FieldPtr, (f, spec.received_value f evs)).
  assert (Hfst : (g <$> done).*1 = done).
  { rewrite <- list_fmap_compose. apply list_fmap_id. }
  assert (seed.seedMap x = list_to_map (g <$> done)) as ->.
  { apply map_eq. intros f. rewrite Hmap. case_decide as Hf; symmetry.
    - apply elem_of_list_to_map_1; [by rewrite Hfst|].
      apply list_elem_of_fmap. by exists f.
    - apply not_elem_of_list_to_map_1. by rewrite Hfst. }
  apply map_to_list_to_map. by rewrite Hfst.
Qed.

(** The result of [Seed] from a state in which all fields are done. *)
Lemma seedResult_spec (cfg : list FieldPtr) (w : World St) (x2 : state) :
  NoDup cfg →
  spec.seed_inv F w (reverse cfg) x2 →
  ∃ evs unseeded,
    trace (seed.world x2) = trace w ++ evs ∧
    store (seed.world x2) = spec.replay F (store w) evs ∧
    unseeded ≡ₚ filter (λ f, spec.received_value f evs = false) cfg ∧
    seed.seedResult F range_order x2
      = match unseeded with
        | [] => None
        | _ => Some (ErrorsNew (spec.not_seeded_texts F unseeded))
        end.
Proof.
  intros Hnd Hinv.
  pose proof Hinv as (evs & Htr & Hstore & _ & Hmap & _).
  set (l := range_order _ (map_to_list (seed.seedMap x2))).
  set (unseeded := (filter (λ e : FieldPtr * bool, e.2 = false) l).*1).
  assert (Htext : seed.notSeeded F range_order x2
                  = spec.not_seeded_texts F unseeded).
  { unfold seed.notSeeded. by rewrite notSeeded_fold. }
  assert (Hperm : unseeded
            ≡ₚ filter (λ f, spec.received_value f evs = false) cfg).
  { unfold unseeded, l. rewrite range_order_perm.
    rewrite (seed_inv_entries w (reverse cfg) x2 evs);
      [|by rewrite reverse_Permutation|done|done].
    rewrite unseeded_of_pairs. by rewrite reverse_Permutation. }
  exists evs, unseeded. split; [done|]. split; [done|]. split; [done|].
  unfold seed.seedResult. rewrite Htext.
  pose proof (not_seeded_texts_length unseeded) as Hlen.
  case_decide as Hd.
  - apply Hlen in Hd. by destruct unseeded.
  - destruct unseeded; [done|]. exfalso. apply Hd, Hlen. done.
Qed.

(** C3, as amended. For a config that lists every field once: when the
    two loops of [Seed] run to their end (no getter is missing, no call of
    [Set] fails, and no flag name is refused by [StringVar], which panics
    for a name that begins with "-", contains "=" or is defined already),
    [Seed] returns an error exactly when a field of the config received no
    value. The error is one error made by [Seed]; its text is the text
    "field <name> not seeded" of every field that received no value, one
    after the other in the order in which the map is visited, so it names
    each of them. The store is the one that the calls of [Set] left: the
    fields that received a value keep it whatever [Seed] returns. *)
Theorem seed_error_names_unseeded_fields
    (cfg : list FieldPtr) (w : World St) :
  NoDup cfg →
  spec.completes F os s cfg w = true →
  ∃ evs unseeded,
    trace (seed.Seed F range_order os s cfg w).1 = trace w ++ evs ∧
    store (seed.Seed F range_order os s cfg w).1
      = spec.replay F (store w) evs ∧
    unseeded ≡ₚ filter (λ f, spec.received_value f evs = false) cfg ∧
    (seed.Seed F range_order os s cfg w).2
      = seed.Returned
          (match unseeded with
           | [] => None
           | _ => Some (ErrorsNew (spec.not_seeded_texts F unseeded))
           end) ∧
    ((seed.Seed F range_order os s cfg w).2 = seed.Returned None ↔
     ∀ f, f ∈ cfg → spec.received_value f evs = true) ∧
    ∀ f, f ∈ unseeded →
         spec.names_field F (spec.not_seeded_texts F unseeded) f.
Proof.
  intros Hnd Hcomp. unfold spec.completes in Hcomp. unfold seed.Seed.
  set (x0 := {| seed.world := w; seed.seedMap := ∅; seed.flagInfos := [] |})
    in *.
  assert (Hinv0 : spec.seed_inv F w [] x0).
  { exists []. rewrite app_nil_r. repeat split; try done.
    intros fi Hfi. by apply elem_of_nil in Hfi. }
  assert (∃ x1 x2, spec.passes (seed.seedFields F os s cfg x0) x1 ∧
                   spec.passes (seed.seedFlags F os x1) x2)
    as (x1 & x2 & Hp1 & Hp2).
  { destruct (seed.seedFields F os s cfg x0) as [x1|x1|? ?|? ?]; try done;
      destruct (seed.seedFlags F os x1) as [x2|x2|? ?|? ?] eqn:Hfl; try done;
      exists x1, x2; rewrite Hfl; unfold spec.passes; auto. }
  assert (Hinv : spec.seed_inv F w (reverse cfg) x2).
  { eapply seed_inv_seedFlags; [|done].
    rewrite <- (app_nil_r (reverse cfg)).
    eapply seed_inv_seedFields; [done| |done]. by rewrite app_nil_r. }
  destruct (seedResult_spec cfg w x2 Hnd Hinv)
    as (evs & unseeded & Htr & Hstore & Hperm & Hresult).
  assert (Hseed :
    match seed.seedFields F os s cfg x0 with
    | seed.Go x | seed.Continue x =>
        match seed.seedFlags F os x with
        | seed.Go x' | seed.Continue x' =>
            (seed.world x', seed.Returned (seed.seedResult F range_order x'))
        | seed.Return err x' => (seed.world x', seed.Returned (Some err))
        | seed.Panic msg x' => (seed.world x', seed.Panicked msg)
        end
    | seed.Return err x => (seed.world x, seed.Returned (Some err))
    | seed.Panic msg x => (seed.world x, seed.Panicked msg)
    end = (seed.world x2, seed.Returned (seed.seedResult F range_order x2))).
  { by destruct Hp1 as [-> | ->], Hp2 as [-> | ->]. }
  rewrite Hseed, Hresult. clear Hseed Hcomp. simpl.
  exists evs, unseeded.
  split; [done|]. split; [done|]. split; [done|]. split; [done|].
  split; [|by apply not_seeded_texts_names].
  split.
  - intros Hnone f Hf.
    assert (unseeded = []) as Hnil by (by destruct unseeded).
    rewrite Hnil in Hperm. symmetry in Hperm.
    apply Permutation_nil_r in Hperm.
    destruct (spec.received_value f evs) eqn:Hr; [done|].
    assert (f ∈ filter (λ f, spec.received_value f evs = false) cfg)
      as Hin by (by apply list_elem_of_filter).
    rewrite Hperm in Hin. by apply elem_of_nil in Hin.
  - intros Hall. destruct unseeded as [|f u] eqn:Hu; [done|]. exfalso.
    assert (f ∈ filter (λ f, spec.received_value f evs = false) cfg)
      as [Hr Hin]%list_elem_of_filter by (rewrite <- Hperm; left).
    rewrite (Hall f Hin) in Hr. done.
Qed.

End SeedCompletes.

(** ** The seeder: the order of the sources *)

Section SeedOrder.

Context {St : Type} (F : FieldAPI St).
Variable range_order : ∀ A : Type, list A → list A.
Variable os : seed.OS.
Variable s : seed.Seeder.

Abbreviation state := (seed.state (St := St)).
Abbreviation ctl := (seed.ctl (St := St)).

(** The calls [l], when the field worked on is the field observed. *)
Local Abbreviation on f g l := (if decide (g = f) then l else []).

Lemma calls_on_app f tr1 tr2 :
  spec.calls_on f (tr1 ++ tr2) = spec.calls_on f tr1 ++ spec.calls_on f tr2.
Proof. apply omap_app. Qed.

Lemma calls_step_refl f (x x' : state) fis :
  seed.world x' = seed.world x →
  seed.flagInfos x' = seed.flagInfos x ++ fis →
  spec.calls_step f x x' [] fis.
Proof. intros Hw Hfl. exists []. by rewrite Hw, app_nil_r. Qed.

Lemma calls_step_trans f (x1 x2 x3 : state) l1 l2 fis1 fis2 :
  spec.calls_step f x1 x2 l1 fis1 → spec.calls_step f x2 x3 l2 fis2 →
  spec.calls_step f x1 x3 (l1 ++ l2) (fis1 ++ fis2).
Proof.
  intros (evs1 & Ht1 & <- & Hf1) (evs2 & Ht2 & <- & Hf2).
  exists (evs1 ++ evs2). rewrite Ht2, Ht1, Hf2, Hf1, calls_on_app.
  by rewrite !app_assoc.
Qed.

Lemma calls_step_record f (x : state) (ev : event) :
  spec.calls_on f [ev] = [] →
  spec.calls_step f x
    (seed.set_world (record_event ev (seed.world x)) x) [] [].
Proof. intros Hev. exists [ev]. simpl. by rewrite app_nil_r. Qed.

Lemma calls_step_apply f g value version (x x' : state) :
  spec.passes (seed.apply F g value version x) x' →
  spec.calls_step f x x' (on f g [(value, version)]) [].
Proof.
  unfold seed.apply, fieldSet. intros Hp.
  destruct (Set_ F g value version (store (seed.world x))) as [[e|] st'];
    destruct Hp as [[= <-]|[=]].
  exists [EvSet g value version None]. simpl. rewrite app_nil_r.
  by case_decide.
Qed.

Lemma apply_not_Continue g value version (x x' : state) :
  seed.apply F g value version x ≠ seed.Continue x'.
Proof.
  unfold seed.apply.
  by destruct (fieldSet F g value version (seed.world x)) as [[e|] w'].
Qed.

Lemma calls_step_seedSeed f g (x x' : state) :
  seed.seedSeed F g x = seed.Go x' →
  spec.calls_step f x x'
    (on f g (option_list (spec.source_value F os s g SourceSeed))) [].
Proof.
  unfold seed.seedSeed, spec.source_value.
  destruct (Sources F g !! SourceSeed) as [val|]; simpl.
  - intros Hp. apply calls_step_apply. by left.
  - intros [= <-]. case_decide; by apply calls_step_refl; rewrite ?app_nil_r.
Qed.

Lemma calls_step_seedEnv f g (x x' : state) :
  seed.seedEnv F os g x = seed.Go x' →
  spec.calls_step f x x'
    (on f g (option_list (spec.source_value F os s g SourceEnv))) [].
Proof.
  unfold seed.seedEnv, spec.source_value.
  destruct (Sources F g !! SourceEnv) as [key|]; simpl.
  - destruct (seed.LookupEnv os key) as [val|]; simpl.
    + intros Hp.
      eapply (calls_step_trans f x _ x' [] _ [] []);
        [by apply (calls_step_record f x (EvLookupEnv key))|].
      apply calls_step_apply. by left.
    + intros [= <-]. case_decide;
        by apply (calls_step_record f x (EvLookupEnv key)).
  - intros [= <-]. case_decide; by apply calls_step_refl; rewrite ?app_nil_r.
Qed.

Lemma calls_step_seedFlag f g (x x' : state) :
  seed.seedFlag F os g x = seed.Go x' →
  spec.calls_step f x x' [] (spec.flag_of F g).
Proof.
  unfold seed.seedFlag, spec.flag_of.
  destruct (Sources F g !! SourceFlag) as [key|].
  - destruct (seed.flagVar os key _); [done|].
    intros [= <-]. by apply calls_step_refl.
  - intros [= <-]. by apply calls_step_refl; rewrite ?app_nil_r.
Qed.

Lemma calls_step_seedFile f g (x x' : state) :
  seed.seedFile F os g x = seed.Go x' →
  spec.calls_step f x x'
    (on f g (option_list (spec.source_value F os s g SourceFile))) [].
Proof.
  unfold seed.seedFile, spec.source_value.
  destruct (Sources F g !! SourceFile) as [key|]; simpl.
  - destruct (seed.ReadFile os key) as [val|]; simpl.
    + intros Hp.
      eapply (calls_step_trans f x _ x' [] _ [] []);
        [by apply (calls_step_record f x (EvReadFile key))|].
      apply calls_step_apply. by left.
    + intros [= <-]. case_decide;
        by apply (calls_step_record f x (EvReadFile key)).
  - intros [= <-]. case_decide; by apply calls_step_refl; rewrite ?app_nil_r.
Qed.

(** The consul block and the redis block. *)
Lemma calls_step_seedGetter src f g (x x' : state) :
  src = SourceConsul ∨ src = SourceRedis →
  spec.passes (seed.seedGetter F s src g x) x' →
  spec.calls_step f x x'
    (on f g (option_list (spec.source_value F os s g src))) [].
Proof.
  intros Hsrc. unfold seed.seedGetter.
  assert (Hval : spec.source_value F os s g src
                 = key ← Sources F g !! src;
                   gtr ← seed.getters s !! src;
                   match seed.g_err (gtr key) with
                   | Some _ => None
                   | None => v ← seed.g_value (gtr key);
                             Some (v, seed.g_version (gtr key))
                   end).
  { unfold spec.source_value. by destruct Hsrc as [-> | ->]. }
  rewrite Hval. clear Hval.
  destruct (Sources F g !! src) as [key|]; simpl.
  2:{ intros ->%passes_Go. case_decide;
        by apply calls_step_refl; rewrite ?app_nil_r. }
  destruct (seed.getters s !! src) as [gtr|]; simpl;
    [|by intros [[=]|[=]]].
  destruct (seed.g_err (gtr key)); simpl.
  { intros ->%passes_Continue. case_decide;
      by apply (calls_step_record f x (EvGet src key)). }
  destruct (seed.g_value (gtr key)) as [val|]; simpl.
  - intros Hp.
    eapply (calls_step_trans f x _ x' [] _ [] []);
      [by apply (calls_step_record f x (EvGet src key))|].
    by apply calls_step_apply.
  - intros ->%passes_Continue. case_decide;
      by apply (calls_step_record f x (EvGet src key)).
Qed.

(** The consul block falls through exactly when the lookup did not
    fail. *)
Lemma consul_fails_spec g (x x' : state) :
  (seed.seedGetter F s SourceConsul g x = seed.Go x' →
   spec.consul_fails F os s g = false) ∧
  (seed.seedGetter F s SourceConsul g x = seed.Continue x' →
   spec.consul_fails F os s g = true).
Proof.
  unfold seed.seedGetter, spec.consul_fails, spec.source_value.
  destruct (Sources F g !! SourceConsul) as [key|]; simpl; [|by split].
  destruct (seed.getters s !! SourceConsul) as [gtr|]; simpl; [|by split].
  destruct (seed.g_err (gtr key)); simpl; [by split|].
  destruct (seed.g_value (gtr key)) as [val|]; simpl; [|by split].
  split; [done|]. intros H. by apply apply_not_Continue in H.
Qed.

Lemma seedSeed_not_Continue g (x x' : state) :
  seed.seedSeed F g x ≠ seed.Continue x'.
Proof.
  unfold seed.seedSeed. destruct (Sources F g !! SourceSeed); [|done].
  apply apply_not_Continue.
Qed.

Lemma seedEnv_not_Continue g (x x' : state) :
  seed.seedEnv F os g x ≠ seed.Continue x'.
Proof.
  unfold seed.seedEnv. destruct (Sources F g !! SourceEnv) as [key|]; [|done].
  destruct (seed.LookupEnv os key); [|done]. apply apply_not_Continue.
Qed.

Lemma seedFlag_not_Continue g (x x' : state) :
  seed.seedFlag F os g x ≠ seed.Continue x'.
Proof.
  unfold seed.seedFlag. destruct (Sources F g !! SourceFlag); [|done].
  by destruct (seed.flagVar os _ _).
Qed.

Lemma seedFile_not_Continue g (x x' : state) :
  seed.seedFile F os g x ≠ seed.Continue x'.
Proof.
  unfold seed.seedFile. destruct (Sources F g !! SourceFile) as [key|]; [|done].
  destruct (seed.ReadFile os key); [|done]. apply apply_not_Continue.
Qed.

Lemma omap_cons_list {A B} (h : A → option B) (a : A) (l : list A) :
  omap h (a :: l) = option_list (h a) ++ omap h l.
Proof. simpl. by destruct (h a). Qed.

Lemma on_app {A} (f g : FieldPtr) (l1 l2 : list A) :
  on f g l1 ++ on f g l2 = on f g (l1 ++ l2).
Proof. by case_decide. Qed.

(** A turn of the loop: the calls on the field of the turn are the values
    of the sources of [loop_sources], in that order. *)
Lemma calls_step_seedField f g (x x' : state) :
  spec.passes (seed.seedField F os s g x) x' →
  spec.calls_step f (seed.mark g false x) x'
    (on f g (omap (spec.source_value F os s g) (spec.loop_sources F os s g)))
    (spec.flag_of F g).
Proof.
  unfold seed.seedField. intros Hp.
  apply passes_andThen in Hp as [Hp|(x1 & H1 & Hp)];
    [by apply seedSeed_not_Continue in Hp|].
  apply passes_andThen in Hp as [Hp|(x2 & H2 & Hp)];
    [by apply seedEnv_not_Continue in Hp|].
  apply passes_andThen in Hp as [Hp|(x3 & H3 & Hp)];
    [by apply seedFlag_not_Continue in Hp|].
  apply passes_andThen in Hp as [Hp|(x4 & H4 & Hp)];
    [by apply seedFile_not_Continue in Hp|].
  apply (calls_step_seedSeed f) in H1. apply (calls_step_seedEnv f) in H2.
  apply (calls_step_seedFlag f) in H3. apply (calls_step_seedFile f) in H4.
  pose proof (calls_step_trans _ _ _ _ _ _ _ _
    (calls_step_trans _ _ _ _ _ _ _ _
       (calls_step_trans _ _ _ _ _ _ _ _ H1 H2) H3) H4) as H14.
  clear H1 H2 H3 H4. simpl in H14. rewrite app_nil_r, !on_app in H14.
  destruct (consul_fails_spec g x4 x') as [_ HC].
  unfold spec.loop_sources.
  apply passes_andThen in Hp as [Hp|(x5 & H5 & Hp)].
  - rewrite (HC Hp). cbn [app].
    pose proof (calls_step_seedGetter SourceConsul f g x4 x'
                  (or_introl eq_refl) (or_intror Hp)) as H5.
    pose proof (calls_step_trans _ _ _ _ _ _ _ _ H14 H5) as H.
    simpl in H. rewrite !on_app in H.
    rewrite !omap_cons_list. simpl.
    rewrite ?app_nil_r, <- ?app_assoc in H. by rewrite ?app_nil_r.
  - destruct (consul_fails_spec g x4 x5) as [HG _]. rewrite (HG H5).
    cbn [app].
    pose proof (calls_step_seedGetter SourceConsul f g x4 x5
                  (or_introl eq_refl) (or_introl H5)) as H5'.
    pose proof (calls_step_seedGetter SourceRedis f g x5 x'
                  (or_intror eq_refl) Hp) as H6.
    pose proof (calls_step_trans _ _ _ _ _ _ _ _
                  (calls_step_trans _ _ _ _ _ _ _ _ H14 H5') H6) as H.
    simpl in H. rewrite !on_app in H.
    rewrite !omap_cons_list. simpl.
    rewrite ?app_nil_r, <- ?app_assoc in H. by rewrite ?app_nil_r.
Qed.

Lemma calls_step_seedFields f ff : ∀ (x x' : state),
  NoDup ff →
  spec.passes (seed.seedFields F os s ff x) x' →
  spec.calls_step f x x'
    (if decide (f ∈ ff)
     then omap (spec.source_value F os s f) (spec.loop_sources F os s f)
     else [])
    (concat (spec.flag_of F <$> ff)).
Proof.
  induction ff as [|g ff IH]; intros x x' Hnd Hp.
  { apply passes_Go in Hp as ->. rewrite decide_False by apply not_elem_of_nil.
    by apply calls_step_refl; rewrite ?app_nil_r. }
  apply NoDup_cons in Hnd as [Hg Hnd]. cbn [seed.seedFields] in Hp.
  assert (Hturn : ∀ x1, spec.passes (seed.seedField F os s g x) x1 →
            spec.passes (seed.seedFields F os s ff x1) x' →
            spec.calls_step f x x'
              (if decide (f ∈ g :: ff)
               then omap (spec.source_value F os s f)
                         (spec.loop_sources F os s f)
               else [])
              (concat (spec.flag_of F <$> g :: ff))).
  { intros x1 H1 H2. apply (calls_step_seedField f) in H1.
    pose proof (calls_step_trans _ _ _ _ _ _ _ _ H1 (IH x1 x' Hnd H2)) as H.
    rewrite fmap_cons. cbn [concat].
    destruct H as (evs & Htr & Hcalls & Hfl). exists evs.
    split; [done|]. split; [|done]. rewrite Hcalls.
    destruct (decide (g = f)) as [->|Hne].
    - rewrite (decide_False (P := f ∈ ff)) by done.
      rewrite decide_True by left. by rewrite app_nil_r.
    - simpl. destruct (decide (f ∈ ff)) as [Hin|Hout].
      + by rewrite decide_True by (by right).
      + rewrite decide_False; [done|].
        intros [->|?]%elem_of_cons; done. }
  destruct (seed.seedField F os s g x) as [x1|x1|err x1|msg x1] eqn:Hc.
  - apply (Hturn x1); [by left|done].
  - apply (Hturn x1); [by right|done].
  - by destruct Hp as [[=]|[=]].
  - by destruct Hp as [[=]|[=]].
Qed.

(** The loop over the flags: a call for every flag that is on the command
    line. *)
Lemma calls_step_applyFlags f fis : ∀ (x x' : state),
  spec.passes (seed.applyFlags F os fis x) x' →
  spec.calls_step f x x'
    (omap (λ fi, if decide (seed.fi_field fi = f)
                 then v ← seed.ParsedFlag os (seed.fi_key fi); Some (v, 0)
                 else None) fis)
    [].
Proof.
  induction fis as [|fi fis IH]; intros x x' Hp.
  { apply passes_Go in Hp as ->. by apply calls_step_refl; rewrite ?app_nil_r. }
  cbn [seed.applyFlags] in Hp. rewrite omap_cons_list.
  destruct (seed.ParsedFlag os (seed.fi_key fi)) as [value|].
  - apply passes_andThen in Hp as [Hp|(x1 & H1 & Hp)];
      [by apply apply_not_Continue in Hp|].
    pose proof (calls_step_apply f (seed.fi_field fi) value 0 x x1
                  (or_introl H1)) as Hs.
    pose proof (calls_step_trans _ _ _ _ _ _ _ _ Hs (IH x1 x' Hp)) as H.
    simpl in *. by case_decide.
  - specialize (IH x x' Hp). simpl. by case_decide.
Qed.

Lemma flags_of_field f cfg :
  NoDup cfg →
  omap (λ fi, if decide (seed.fi_field fi = f)
              then v ← seed.ParsedFlag os (seed.fi_key fi); Some (v, 0)
              else None)
       (concat (spec.flag_of F <$> cfg))
  = if decide (f ∈ cfg)
    then option_list (spec.source_value F os s f SourceFlag)
    else [].
Proof.
  induction cfg as [|g cfg IH]; intros Hnd.
  { by rewrite decide_False by apply not_elem_of_nil. }
  apply NoDup_cons in Hnd as [Hg Hnd].
  rewrite fmap_cons. cbn [concat]. rewrite omap_app, (IH Hnd).
  assert (Hhead :
    omap (λ fi, if decide (seed.fi_field fi = f)
                then v ← seed.ParsedFlag os (seed.fi_key fi); Some (v, 0)
                else None) (spec.flag_of F g)
    = on f g (option_list (spec.source_value F os s g SourceFlag))).
  { unfold spec.flag_of, spec.source_value.
    destruct (Sources F g !! SourceFlag) as [key|]; simpl.
    - destruct (decide (g = f)); [|done].
      by destruct (seed.ParsedFlag os key).
    - by destruct (decide (g = f)). }
  rewrite Hhead. destruct (decide (g = f)) as [->|Hne].
  - rewrite (decide_False (P := f ∈ cfg)) by done.
    rewrite decide_True by left. by rewrite app_nil_r.
  - simpl. destruct (decide (f ∈ cfg)) as [Hin|Hout].
    + by rewrite decide_True by (by right).
    + rewrite decide_False; [done|]. intros [->|?]%elem_of_cons; done.
Qed.

(** X17. The order of the sources. When the two loops of [Seed] run to their
    end, the calls of [Set] on a field of the config are the values of its
    sources in the order seed, env, file, consul, redis, flag: the first
    five inside the loop over the fields, the flag after it. A source
    whose lookup gives no value makes no call. Redis is left out after a
    consul lookup that failed ([loop_sources]). *)
Theorem seed_applies_sources_in_order
    (cfg : list FieldPtr) (w : World St) (f : FieldPtr) :
  NoDup cfg →
  spec.completes F os s cfg w = true →
  f ∈ cfg →
  spec.calls_on f (trace (seed.Seed F range_order os s cfg w).1)
  = spec.calls_on f (trace w) ++
    omap (spec.source_value F os s f)
         (spec.loop_sources F os s f ++ [SourceFlag]).
Proof.
  intros Hnd Hcomp Hf. unfold spec.completes in Hcomp. unfold seed.Seed.
  set (x0 := {| seed.world := w; seed.seedMap := ∅; seed.flagInfos := [] |})
    in *.
  assert (∃ x1 x2, spec.passes (seed.seedFields F os s cfg x0) x1 ∧
                   spec.passes (seed.seedFlags F os x1) x2)
    as (x1 & x2 & Hp1 & Hp2).
  { destruct (seed.seedFields F os s cfg x0) as [x1|x1|? ?|? ?]; try done;
      destruct (seed.seedFlags F os x1) as [x2|x2|? ?|? ?] eqn:Hfl; try done;
      exists x1, x2; rewrite Hfl; unfold spec.passes; auto. }
  assert (Hworld :
    (match seed.seedFields F os s cfg x0 with
     | seed.Go x | seed.Continue x =>
         match seed.seedFlags F os x with
         | seed.Go x' | seed.Continue x' =>
             (seed.world x', seed.Returned (seed.seedResult F range_order x'))
         | seed.Return err x' => (seed.world x', seed.Returned (Some err))
         | seed.Panic msg x' => (seed.world x', seed.Panicked msg)
         end
     | seed.Return err x => (seed.world x, seed.Returned (Some err))
     | seed.Panic msg x => (seed.world x, seed.Panicked msg)
     end).1 = seed.world x2).
  { by destruct Hp1 as [-> | ->], Hp2 as [-> | ->]. }
  rewrite Hworld. clear Hworld Hcomp.
  pose proof (calls_step_seedFields f cfg x0 x1 Hnd Hp1)
    as (evs1 & Ht1 & Hc1 & Hfl1).
  rewrite decide_True in Hc1 by done. simpl in Ht1, Hfl1.
  assert (Hflags : spec.passes (seed.applyFlags F os (seed.flagInfos x1) x1) x2).
  { unfold seed.seedFlags in Hp2. case_decide as Hlen; [done|].
    destruct (seed.flagInfos x1); [done|]. simpl in Hlen. lia. }
  pose proof (calls_step_applyFlags f _ x1 x2 Hflags)
    as (evs2 & Ht2 & Hc2 & _).
  rewrite Hfl1, (flags_of_field f cfg Hnd), decide_True in Hc2 by done.
  rewrite Ht2, Ht1, !calls_on_app, Hc1, Hc2, omap_app, <- app_assoc.
  do 2 f_equal.
Qed.

End SeedOrder.

(** * The scenarios *)

Section Scenarios.

Lemma in_order_perm (A : Type) (l : list A) : scenario.in_order A l ≡ₚ l.
Proof. done. Qed.

(** Scenario A of the spec: the first tick sends both keys with version
    1, the second sends b alone with version 2. *)
Example poll_two_ticks :
  redis.monitor scenario.plain scenario.poll_watcher scenario.poll_ticks
  = Some (scenario.polled_watcher,
          [ [Some (change.New SourceRedis "a" "1" 1);
             Some (change.New SourceRedis "b" "2" 1)];
            [Some (change.New SourceRedis "b" "3" 2)] ]).
Proof. reflexivity. Qed.

Lemma poll_versions_witness :
  NoDup ["a"; "b"] ∧
  ∃ w out m,
    redis.monitor scenario.plain scenario.poll_watcher scenario.poll_ticks
      = Some (w, out) ∧
    spec.versions_for "b" out = Z.of_nat <$> seq 1 m ∧
    redis.versions w !! 1%nat = Some (Z.of_nat m).
Proof.
  assert (Hnd : NoDup ["a"; "b"]) by compute_done.
  split; [exact Hnd|].
  apply (poll_versions_count_from_one scenario.plain (Some tt) 100
           ["a"; "b"] scenario.poll_watcher scenario.poll_ticks 1 "b").
  - reflexivity.
  - exact Hnd.
  - reflexivity.
  - repeat constructor.
  - reflexivity.
Defined.

Lemma poll_unchanged_witness :
  redis.monitor scenario.plain scenario.polled_watcher
    [ redis.Tick (redis.MGetOk [Some "1"; Some "3"]);
      redis.Tick (redis.MGetOk [None; Some "3"]) ]
  = Some (scenario.polled_watcher, []).
Proof.
  apply (poll_unchanged_ticks_are_noops scenario.plain scenario.polled_watcher
           [ [Some "1"; Some "3"]; [None; Some "3"] ]).
  repeat constructor; simpl; try lia.
  - intros [|[|i]] v [= <-]; reflexivity.
  - intros [|[|i]] v [= <-]; reflexivity.
Defined.

(** Scenario B of the spec: cfg/x was set to 9, and cfg/y, which did not
    change, is sent again. *)
Example prefix_resends_unchanged_key :
  consul.keyPrefixHandler 12 (consul.DataKVPairs scenario.prefix_pairs)
  = Some (Some [ Some (change.New SourceConsul "cfg/x" "9" 12);
                 Some (change.New SourceConsul "cfg/y" "2" 8) ]).
Proof. reflexivity. Qed.

Lemma keyPrefix_witness :
  ∃ batch : Batch,
    consul.keyPrefixHandler 12 (consul.DataKVPairs scenario.prefix_pairs)
      = Some (Some batch) ∧
    length batch = 2%nat ∧
    ∀ i p, scenario.prefix_pairs !! i = Some p →
      batch !! i = Some (Some (change.New SourceConsul (consul.kv_Key p)
                                 (consul.kv_Value p)
                                 (consul.kv_ModifyIndex p))).
Proof. exact (keyPrefix_handler_sends_every_pair 12 scenario.prefix_pairs). Defined.

(** Batch isolation: the change for the unknown key is dropped, the one
    for cfg/x is applied. *)
Example dispatch_mixed_batch :
  ∃ w', monitor.applyChange scenario.route_fields scenario.one_route
          (Some <$> scenario.mixed_batch) cell.empty_world = Some w' ∧
        trace w' = [EvSet 0%nat "9" 4 None] ∧
        cell.value (store w') 0%nat = Some "9".
Proof. eexists. split; [reflexivity|]. by vm_compute. Qed.

Lemma dispatch_witness :
  ∃ w',
    monitor.applyChange scenario.route_fields scenario.one_route
      (Some <$> scenario.mixed_batch) cell.empty_world = Some w' ∧
    w' = foldl (spec.dispatch_one scenario.route_fields scenario.one_route)
           cell.empty_world scenario.mixed_batch ∧
    spec.set_calls (trace w')
      = spec.set_calls (trace cell.empty_world)
        ++ omap (spec.routed_call scenario.one_route) scenario.mixed_batch ∧
    ∀ cs1 c cs2,
      scenario.mixed_batch = cs1 ++ c :: cs2 →
      spec.route scenario.one_route (change.Source c) (change.Key c) = None →
      monitor.applyChange scenario.route_fields scenario.one_route
        (Some <$> cs1 ++ cs2) cell.empty_world = Some w'.
Proof.
  exact (dispatch_handles_each_change_alone scenario.route_fields
           scenario.one_route scenario.mixed_batch cell.empty_world).
Defined.

Lemma routing_witness :
  spec.claimed_twice scenario.clash_fields [0%nat; 1%nat]
    SourceConsul "cfg/x" ∧
  ∃ s k,
    spec.claimed_twice scenario.clash_fields [0%nat; 1%nat] s k ∧
    monitor.New scenario.clash_fields scenario.in_order
      (Some [0%nat; 1%nat]) [tt]
    = inr (ErrorsNew (spec.duplicate_text s k)).
Proof.
  assert (Htwice : spec.claimed_twice scenario.clash_fields [0%nat; 1%nat]
                     SourceConsul "cfg/x").
  { split; [done|]. exists 0%nat, 1%nat, 0%nat, 1%nat.
    split; [lia|]. by repeat split. }
  split; [exact Htwice|].
  apply (routing_table_is_unique_or_construction_fails scenario.clash_fields
           scenario.in_order in_order_perm [0%nat; 1%nat]).
  - done.
  - by exists SourceConsul, "cfg/x".
Defined.

(** The statement that follows a failing consul lookup is the next turn
    of the loop: the redis block of the same field is not run. *)
Lemma consul_failure_ends_the_turn {St : Type} (F : FieldAPI St)
    (s : seed.Seeder) (f : FieldPtr) (key : string) (gtr : seed.Getter)
    (x : seed.state (St := St)) :
  Sources F f !! SourceConsul = Some key →
  seed.getters s !! SourceConsul = Some gtr →
  seed.g_err (gtr key) ≠ None ∨ seed.g_value (gtr key) = None →
  seed.andThen (seed.seedGetter F s SourceConsul f x)
               (seed.seedGetter F s SourceRedis f)
  = seed.Continue
      (seed.set_world
         (record_event (EvGet SourceConsul key) (seed.world x)) x).
Proof.
  intros Hkey Hgtr Hfail. unfold seed.seedGetter at 1. rewrite Hkey.
  rewrite Hgtr.
  destruct (seed.g_err (gtr key)) as [e|]; [done|].
  destruct Hfail as [?|Hnone]; [done|]. by rewrite Hnone.
Qed.

(** C1, at a field with a consul key and a redis key, when consul cannot
    be reached and redis has the value: the only thing [Seed] does is the
    consul lookup. Redis is not asked, the field gets no value, and [Seed]
    reports it as not seeded. *)
Theorem consul_failure_leaves_redis_untried :
  seed.Seed scenario.stores_fields scenario.in_order
    (scenario.process ∅ ∅) scenario.stores_seeder [0%nat] cell.empty_world
  = ({| store := ∅; trace := [EvGet SourceConsul "app/balance"] |},
     seed.Returned (Some (ErrorsNew "field Balance not seeded"))).
Proof. by vm_compute. Qed.

(** The redis block alone, for the same field, does seed it. *)
Example redis_alone_seeds_the_field :
  ∃ x, seed.seedGetter scenario.stores_fields scenario.stores_seeder
         SourceRedis 0%nat
         {| seed.world := cell.empty_world; seed.seedMap := ∅;
            seed.flagInfos := [] |} = seed.Go x ∧
       cell.value (store (seed.world x)) 0%nat = Some "100.0".
Proof. eexists. split; [reflexivity|]. by vm_compute. Qed.

(** C2, at a field with a seed value, a consul key and a redis key, when
    consul cannot be reached and redis has the value "100.0": the seed
    value is applied, the consul lookup fails, and the field keeps the
    seed value. The value of redis, the later source, is not applied. *)
Theorem redis_does_not_overwrite_after_consul_failure :
  ∃ w,
    seed.Seed scenario.seeded_stores_fields scenario.in_order
      (scenario.process ∅ ∅) scenario.stores_seeder [0%nat] cell.empty_world
    = (w, seed.Returned None) ∧
    trace w = [EvSet 0%nat "0.0" 0 None; EvGet SourceConsul "app/balance"] ∧
    cell.value (store w) 0%nat = Some "0.0".
Proof. eexists. split; [reflexivity|]. by vm_compute. Qed.

(** The precedence scenario of the spec: seed "DEBUG", the env variable
    set to "INFO", the flag not on the command line. The field ends with
    "INFO". *)
Example env_overrides_seed :
  ∃ w,
    seed.Seed scenario.precedence_fields scenario.in_order
      scenario.precedence_os (seed.New []) [0%nat] cell.empty_world
    = (w, seed.Returned None) ∧
    spec.set_calls (trace w) = [(0%nat, "DEBUG", 0); (0%nat, "INFO", 0)] ∧
    cell.value (store w) 0%nat = Some "INFO".
Proof. eexists. split; [reflexivity|]. by vm_compute. Qed.

(** A flag that is on the command line is applied after the loop and
    overrides the env variable. *)
Example flag_overrides_env :
  ∃ w,
    seed.Seed scenario.precedence_fields scenario.in_order
      (scenario.process {[ "ENV_LOG_LEVEL" := "INFO" ]}
                        {[ "loglevel" := "WARN" ]})
      (seed.New []) [0%nat] cell.empty_world
    = (w, seed.Returned None) ∧
    spec.set_calls (trace w)
      = [(0%nat, "DEBUG", 0); (0%nat, "INFO", 0); (0%nat, "WARN", 0)] ∧
    cell.value (store w) 0%nat = Some "WARN".
Proof. eexists. split; [reflexivity|]. by vm_compute. Qed.

(** C3 as stated fails: with a seed value and a consul key but no consul
    getter, the field receives its seed value and [Seed] returns an error
    all the same. *)
Lemma seed_error_with_every_field_seeded :
  let r := seed.Seed scenario.no_getter_fields scenario.in_order
             (scenario.process ∅ ∅) (seed.New []) [0%nat]
             cell.empty_world in
  r.2 = seed.Returned (Some (ErrorsNew "consul getter required")) ∧
  cell.value (store r.1) 0%nat = Some "0.0" ∧
  ¬ ((∃ e, r.2 = seed.Returned (Some e)) ↔
     (∃ f, f ∈ [0%nat] ∧ spec.received_value f (trace r.1) = false)).
Proof.
  split; [by vm_compute|]. split; [by vm_compute|].
  intros [Hex _]. destruct Hex as (f & Hf & Hr).
  { eexists. by vm_compute. }
  apply list_elem_of_singleton in Hf as ->. by vm_compute in Hr.
Qed.

(** Scenario C of the spec: three fields, the first seedable, the others
    not. *)
Example seed_aggregation :
  ∃ w,
    seed.Seed scenario.aggregation_fields scenario.in_order
      (scenario.process ∅ ∅) (seed.New []) [0%nat; 1%nat; 2%nat]
      cell.empty_world
    = (w, seed.Returned
            (Some (ErrorsNew
                     "field Level not seededfield Retention not seeded"))) ∧
    cell.value (store w) 0%nat = Some "customers-v1".
Proof. eexists. split; [by vm_compute|]. by vm_compute. Qed.

Lemma seed_aggregation_witness :
  NoDup [0%nat; 1%nat; 2%nat] ∧
  spec.completes scenario.aggregation_fields (scenario.process ∅ ∅)
    (seed.New []) [0%nat; 1%nat; 2%nat] cell.empty_world = true ∧
  ∃ evs unseeded,
    trace (seed.Seed scenario.aggregation_fields scenario.in_order
             (scenario.process ∅ ∅) (seed.New []) [0%nat; 1%nat; 2%nat]
             cell.empty_world).1 = trace cell.empty_world ++ evs ∧
    unseeded ≡ₚ filter (λ f, spec.received_value f evs = false)
                  [0%nat; 1%nat; 2%nat] ∧
    (seed.Seed scenario.aggregation_fields scenario.in_order
       (scenario.process ∅ ∅) (seed.New []) [0%nat; 1%nat; 2%nat]
       cell.empty_world).2
    = seed.Returned
        (match unseeded with
         | [] => None
         | _ => Some (ErrorsNew
                        (spec.not_seeded_texts scenario.aggregation_fields
                           unseeded))
         end).
Proof.
  assert (Hnd : NoDup [0%nat; 1%nat; 2%nat]) by compute_done.
  assert (Hc : spec.completes scenario.aggregation_fields
                 (scenario.process ∅ ∅) (seed.New [])
                 [0%nat; 1%nat; 2%nat] cell.empty_world = true)
    by (vm_compute; reflexivity).
  split; [exact Hnd|]. split; [exact Hc|].
  destruct (seed_error_names_unseeded_fields scenario.aggregation_fields
              scenario.in_order in_order_perm (scenario.process ∅ ∅)
              (seed.New []) [0%nat; 1%nat; 2%nat] cell.empty_world Hnd Hc)
    as (evs & unseeded & Htr & _ & Hperm & Hout & _).
  exists evs, unseeded. exact (conj Htr (conj Hperm Hout)).
Defined.

(** The order of the sources in the precedence scenario with the flag on
    the command line. *)
Lemma seed_order_of_log_level :
  NoDup [0%nat] ∧
  spec.completes scenario.precedence_fields
    (scenario.process {[ "ENV_LOG_LEVEL" := "INFO" ]}
                      {[ "loglevel" := "WARN" ]})
    (seed.New []) [0%nat] cell.empty_world = true ∧
  0%nat ∈ [0%nat] ∧
  spec.calls_on 0%nat
    (trace (seed.Seed scenario.precedence_fields scenario.in_order
              (scenario.process {[ "ENV_LOG_LEVEL" := "INFO" ]}
                                {[ "loglevel" := "WARN" ]})
              (seed.New []) [0%nat] cell.empty_world).1)
  = [("DEBUG", 0); ("INFO", 0); ("WARN", 0)].
Proof.
  assert (Hnd : NoDup [0%nat]) by apply NoDup_singleton.
  assert (Hc : spec.completes scenario.precedence_fields
                 (scenario.process {[ "ENV_LOG_LEVEL" := "INFO" ]}
                                   {[ "loglevel" := "WARN" ]})
                 (seed.New []) [0%nat] cell.empty_world = true)
    by (vm_compute; reflexivity).
  assert (Hin : 0%nat ∈ [0%nat]) by left.
  split; [exact Hnd|]. split; [exact Hc|]. split; [exact Hin|].
  rewrite (seed_applies_sources_in_order scenario.precedence_fields
             scenario.in_order _ (seed.New []) [0%nat] cell.empty_world
             0%nat Hnd Hc Hin).
  vm_compute. reflexivity.
Defined.

(** A seed value that does not parse: [Seed] stops at the first field. *)
Example seed_stops_at_bad_value :
  seed.Seed scenario.bad_seed_fields scenario.in_order
    (scenario.process ∅ ∅) (seed.New []) [0%nat; 1%nat] cell.empty_world
  = ({| store := ∅;
        trace := [EvSet 0%nat "a day" 0 (Some "cannot parse a day")] |},
     seed.Returned (Some (FieldErr "cannot parse a day"))).
Proof. by vm_compute. Qed.

Lemma seed_set_failure_witness :
  ∃ evs,
    trace (seed.Seed scenario.bad_seed_fields scenario.in_order
             (scenario.process ∅ ∅) (seed.New []) [0%nat; 1%nat]
             cell.empty_world).1 = trace cell.empty_world ++ evs ∧
    ∀ f value version e,
      EvSet f value version (Some e) ∈ evs →
      (seed.Seed scenario.bad_seed_fields scenario.in_order
         (scenario.process ∅ ∅) (seed.New []) [0%nat; 1%nat]
         cell.empty_world).2 = seed.Returned (Some (FieldErr e)) ∧
      ∃ evs0, evs = evs0 ++ [EvSet f value version (Some e)] ∧
              spec.clean evs0.
Proof.
  exact (seed_aborts_on_set_failure scenario.bad_seed_fields
           scenario.in_order (scenario.process ∅ ∅) (seed.New [])
           [0%nat; 1%nat] cell.empty_world).
Defined.

End Scenarios.

(** * Further properties *)

(** ** The poll watcher: one tick *)

Section PollTick.

Variable hash : string → string.

Lemma slot_value_ext hashes1 hashes2 values i :
  hashes1 !! i = hashes2 !! i →
  spec.slot_value hash hashes1 values i = spec.slot_value hash hashes2 values i.
Proof. intros H. unfold spec.slot_value. by rewrite H. Qed.

(** The changes from the slot [i] on read the slots from [i] on only. *)
Lemma slot_changes_ext vs1 vs2 hs1 hs2 values ks : ∀ i,
  (∀ j, (i ≤ j)%nat → vs1 !! j = vs2 !! j ∧ hs1 !! j = hs2 !! j) →
  spec.slot_changes hash vs1 hs1 values i ks
  = spec.slot_changes hash vs2 hs2 values i ks.
Proof.
  induction ks as [|key ks IH]; intros i Hsame; [done|]. simpl.
  destruct (Hsame i) as [Hv Hh]; [lia|].
  rewrite (slot_value_ext hs1 hs2 values i Hh), Hv.
  f_equal. apply IH. intros j Hj. apply Hsame. lia.
Qed.

(** One iteration, from the slot it works on. *)
Lemma getValues_iter_spec values i key st :
  (i < length values)%nat →
  (i < length (redis.l_versions st))%nat →
  (i < length (redis.l_hashes st))%nat →
  redis.getValues_iter hash values i key st
  = Some match spec.slot_value hash (redis.l_hashes st) values i with
         | Some v =>
             {| redis.l_versions :=
                  <[i := wrap64 (default 0 (redis.l_versions st !! i) + 1)]>
                    (redis.l_versions st);
                redis.l_hashes := <[i := hash v]> (redis.l_hashes st);
                redis.l_changes := redis.l_changes st ++
                  [Some (change.New SourceRedis key v
                     (wrap64 (default 0 (redis.l_versions st !! i) + 1)))] |}
         | None => st
         end.
Proof.
  intros Hv Hver Hh. unfold redis.getValues_iter, spec.slot_value.
  destruct (lookup_lt_is_Some_2 values i Hv) as [ov Hov].
  destruct (lookup_lt_is_Some_2 _ i Hver) as [v Hvi].
  destruct (lookup_lt_is_Some_2 _ i Hh) as [h Hhi].
  rewrite Hov, Hhi, Hvi. destruct ov as [value|]; [|done]. simpl.
  by case_decide.
Qed.

(** The loop against the state before it: the batch grows by the changes
    of the slots it visits, and each of these slots gets its new counter
    and digest; the other slots stay. *)
Lemma getValues_loop_spec values ks : ∀ i st,
  (i + length ks ≤ length values)%nat →
  (i + length ks ≤ length (redis.l_versions st))%nat →
  (i + length ks ≤ length (redis.l_hashes st))%nat →
  ∃ st',
    redis.getValues_loop hash values i ks st = Some st' ∧
    redis.l_changes st' = redis.l_changes st ++
      (Some <$> spec.slot_changes hash (redis.l_versions st)
                  (redis.l_hashes st) values i ks) ∧
    length (redis.l_versions st') = length (redis.l_versions st) ∧
    length (redis.l_hashes st') = length (redis.l_hashes st) ∧
    ∀ j,
      redis.l_versions st' !! j
      = (if decide (i ≤ j < i + length ks)%nat
         then (λ v, if spec.slot_value hash (redis.l_hashes st) values j
                    is Some _ then wrap64 (v + 1) else v)
                <$> redis.l_versions st !! j
         else redis.l_versions st !! j) ∧
      redis.l_hashes st' !! j
      = (if decide (i ≤ j < i + length ks)%nat
         then (λ h, default h (hash <$> spec.slot_value hash
                                 (redis.l_hashes st) values j))
                <$> redis.l_hashes st !! j
         else redis.l_hashes st !! j).
Proof.
  induction ks as [|key ks IH]; intros i st Hv Hver Hh.
  { exists st. simpl. rewrite app_nil_r. repeat split; try done;
      case_decide; try done; lia. }
  simpl in Hv, Hver, Hh. cbn [redis.getValues_loop].
  rewrite getValues_iter_spec by lia.
  set (st1 := match spec.slot_value hash (redis.l_hashes st) values i with
              | Some v => _ | None => st end).
  assert (Hlen1 : length (redis.l_versions st1) = length (redis.l_versions st)
                  ∧ length (redis.l_hashes st1) = length (redis.l_hashes st)).
  { unfold st1. destruct (spec.slot_value _ _ _ _); simpl;
      by rewrite ?length_insert. }
  destruct Hlen1 as [Hl1 Hl2].
  assert (Hother : ∀ j, j ≠ i →
            redis.l_versions st1 !! j = redis.l_versions st !! j ∧
            redis.l_hashes st1 !! j = redis.l_hashes st !! j).
  { intros j Hj. unfold st1. destruct (spec.slot_value _ _ _ _); simpl;
      by rewrite ?list_lookup_insert_ne. }
  destruct (IH (S i) st1) as (st' & Hloop & Hch & Hlv & Hlh & Hslots);
    [lia..|].
  exists st'. split; [done|]. split; [|split; [lia|split; [lia|]]].
  - rewrite Hch.
    rewrite (slot_changes_ext _ (redis.l_versions st) _ (redis.l_hashes st))
      by (intros j Hj; apply Hother; lia).
    simpl. unfold st1.
    destruct (spec.slot_value hash (redis.l_hashes st) values i); simpl.
    + by rewrite <- app_assoc.
    + done.
  - intros j. destruct (Hslots j) as [Hjv Hjh]. rewrite Hjv, Hjh.
    destruct (decide (j = i)) as [->|Hne].
    + destruct (lookup_lt_is_Some_2 (redis.l_versions st) i) as [v Hvi];
        [lia|].
      destruct (lookup_lt_is_Some_2 (redis.l_hashes st) i) as [h Hhi];
        [lia|].
      repeat case_decide; try (simpl in *; lia).
      unfold st1. rewrite Hvi, Hhi.
      destruct (spec.slot_value hash (redis.l_hashes st) values i); simpl.
      * rewrite !list_lookup_insert_eq by lia. done.
      * by rewrite Hvi, Hhi.
    + destruct (Hother j Hne) as [Hov Hoh].
      rewrite (slot_value_ext _ (redis.l_hashes st) values j Hoh), Hov, Hoh.
      repeat case_decide; try done; simpl in *; lia.
Qed.

(** X1. A tick that is answered, for a watcher with one slot per key.
    The batch is worked out against the counters and the digests as they
    were before the tick: in the order of the keys, one change for every
    key whose value is there and has another digest than the one stored,
    with the counter of the key plus one (modulo 2^64) as version. Nothing
    is sent when there is no such key. After the tick these keys have the
    new counter and the digest of the new value; every other slot, the
    keys and the interval are as before. *)
Theorem getValues_tick
    (w : redis.Watcher) (values : list (option string)) :
  spec.poll_wf w →
  (length (redis.keys w) ≤ length values)%nat →
  ∃ w',
    redis.getValues hash w (redis.MGetOk values)
    = Some (w',
            match spec.slot_changes hash (redis.versions w) (redis.hashes w)
                    values 0 (redis.keys w) with
            | [] => None
            | cs => Some (Some <$> cs)
            end) ∧
    spec.poll_wf w' ∧
    redis.keys w' = redis.keys w ∧
    redis.pollInterval w' = redis.pollInterval w ∧
    ∀ j,
      redis.versions w' !! j
      = (λ v, if spec.slot_value hash (redis.hashes w) values j is Some _
              then wrap64 (v + 1) else v) <$> redis.versions w !! j ∧
      redis.hashes w' !! j
      = (λ h, default h (hash <$> spec.slot_value hash (redis.hashes w)
                                    values j)) <$> redis.hashes w !! j.
Proof.
  intros [Hw1 Hw2] Hlen. unfold redis.getValues.
  destruct (getValues_loop_spec values (redis.keys w) 0
    {| redis.l_versions := redis.versions w; redis.l_hashes := redis.hashes w;
       redis.l_changes := [] |})
    as (st' & Hloop & Hch & Hlv & Hlh & Hslots); [simpl; lia..|].
  rewrite Hloop. simpl in *.
  exists {| redis.keys := redis.keys w; redis.versions := redis.l_versions st';
            redis.hashes := redis.l_hashes st';
            redis.pollInterval := redis.pollInterval w |}.
  split; [|split; [|split; [|split]]]; simpl.
  - rewrite Hch.
    by destruct (spec.slot_changes hash (redis.versions w) (redis.hashes w)
                   values 0 (redis.keys w)) as [|c cs].
  - split; simpl; congruence.
  - done.
  - done.
  - intros j. destruct (Hslots j) as [Hjv Hjh]. rewrite Hjv, Hjh.
    case_decide as Hj; [done|].
    rewrite (lookup_ge_None_2 (redis.versions w) j) by lia.
    rewrite (lookup_ge_None_2 (redis.hashes w) j) by lia. done.
Qed.

(** The loop panics when the answer has no entry for one of the keys
    left. *)
Lemma getValues_loop_short values ks : ∀ i st,
  (i ≤ length values < i + length ks)%nat →
  (i + length ks ≤ length (redis.l_versions st))%nat →
  (i + length ks ≤ length (redis.l_hashes st))%nat →
  redis.getValues_loop hash values i ks st = None.
Proof.
  induction ks as [|key ks IH]; intros i st Hv Hver Hh; simpl in *; [lia|].
  destruct (decide (i < length values)%nat) as [Hi|Hi].
  - rewrite getValues_iter_spec by lia.
    apply IH;
      destruct (spec.slot_value hash (redis.l_hashes st) values i); simpl;
      rewrite ?length_insert; lia.
  - unfold redis.getValues_iter.
    by rewrite (lookup_ge_None_2 values i) by lia.
Qed.

(** X2. A tick panics (index out of range) exactly when the answer of the
    fetch has fewer entries than the watcher has keys. *)
Theorem getValues_panics_iff_short
    (w : redis.Watcher) (values : list (option string)) :
  spec.poll_wf w →
  redis.getValues hash w (redis.MGetOk values) = None ↔
  (length values < length (redis.keys w))%nat.
Proof.
  intros [Hw1 Hw2]. unfold redis.getValues. split.
  - intros Hnone.
    destruct (decide (length values < length (redis.keys w))%nat) as [|Hge];
      [done|]. exfalso.
    destruct (getValues_loop_spec values (redis.keys w) 0
      {| redis.l_versions := redis.versions w;
         redis.l_hashes := redis.hashes w; redis.l_changes := [] |})
      as (st' & Hloop & _); [simpl; lia..|].
    rewrite Hloop in Hnone. by case_decide.
  - intros Hshort. rewrite getValues_loop_short; [done|simpl; lia..].
Qed.

(** X3. A tick that is answered again with the same values does nothing:
    whatever the first tick sent, the second leaves the watcher as the
    first left it and sends nothing. *)
Theorem getValues_same_answer_twice
    (w w' : redis.Watcher) (values : list (option string))
    (sent : option Batch) :
  spec.poll_wf w →
  length values = length (redis.keys w) →
  redis.getValues hash w (redis.MGetOk values) = Some (w', sent) →
  redis.getValues hash w' (redis.MGetOk values) = Some (w', None).
Proof.
  intros Hwf Hlen Hget. pose proof Hwf as [Hw1 Hw2].
  unfold redis.getValues in Hget.
  destruct (getValues_loop_spec values (redis.keys w) 0
    {| redis.l_versions := redis.versions w; redis.l_hashes := redis.hashes w;
       redis.l_changes := [] |})
    as (st' & Hloop & _ & _ & Hlh & Hslots); [simpl; lia..|].
  rewrite Hloop in Hget. simpl in *.
  assert (Hw' : redis.keys w' = redis.keys w ∧
                redis.hashes w' = redis.l_hashes st').
  { by case_decide; injection Hget as <- _. }
  destruct Hw' as [Hk Hh]. clear Hget.
  apply getValues_unchanged; [rewrite Hk; lia|].
  intros i v Hv. rewrite Hh. destruct (Hslots i) as [_ Hi]. rewrite Hi.
  assert (i < length values)%nat as Hlt by (by apply lookup_lt_Some in Hv).
  rewrite decide_True by lia.
  destruct (lookup_lt_is_Some_2 (redis.hashes w) i) as [h Hhi]; [lia|].
  rewrite Hhi. simpl. unfold spec.slot_value. rewrite Hv, Hhi. simpl.
  destruct (decide (hash v = h)) as [Hd|Hd]; simpl; congruence.
Qed.

Lemma first_slot_changes n values ks : ∀ i,
  (∀ v, hash v ≠ "") →
  (i + length ks ≤ n)%nat →
  (i + length ks ≤ length values)%nat →
  spec.slot_changes hash (replicate n 0) (replicate n "") values i ks
  = spec.first_changes ks (drop i values).
Proof.
  induction ks as [|key ks IH]; intros i Hhash Hn Hv; [done|].
  simpl in Hn, Hv.
  destruct (lookup_lt_is_Some_2 values i) as [ov Hov]; [lia|].
  rewrite (drop_S _ _ _ Hov). cbn [spec.slot_changes].
  rewrite IH by (done || lia). unfold spec.first_changes. cbn [zip zip_with].
  rewrite omap_cons_list. f_equal.
  unfold spec.slot_value. rewrite Hov, !lookup_replicate_2 by lia. simpl.
  destruct ov as [v|]; [|done]. simpl. by rewrite decide_False.
Qed.

(** X4. The first tick of a watcher made by [New]. As the digest of a
    value is never the empty text (an MD5 digest in hex has 32
    characters), every key that has a value is sent, with version 1 and in
    the order of the keys, whatever the value is; a key without value is
    not sent. *)
Theorem first_tick_sends_every_value
    {Client : Type} (client : option Client) (pollInterval : Z)
    (keys : list string) (w0 : redis.Watcher)
    (values : list (option string)) :
  (∀ v, hash v ≠ "") →
  redis.New client pollInterval keys = inl w0 →
  length values = length keys →
  ∃ w1,
    redis.getValues hash w0 (redis.MGetOk values)
    = Some (w1, match spec.first_changes keys values with
                | [] => None
                | cs => Some (Some <$> cs)
                end).
Proof.
  intros Hhash Hnew Hlen.
  assert (redis.keys w0 = keys ∧
          redis.versions w0 = replicate (length keys) 0 ∧
          redis.hashes w0 = replicate (length keys) "") as (Hk & Hv & Hh).
  { unfold redis.New in Hnew. destruct client; [|done].
    repeat case_decide; try done. by injection Hnew as <-. }
  destruct w0 as [ks vs hs p]. simpl in Hk, Hv, Hh. subst ks vs hs.
  unfold redis.getValues. simpl.
  destruct (getValues_loop_spec values keys 0
    {| redis.l_versions := replicate (length keys) 0;
       redis.l_hashes := replicate (length keys) "";
       redis.l_changes := [] |})
    as (st' & Hloop & Hch & _);
    [simpl; rewrite ?length_replicate; lia..|].
  rewrite Hloop. simpl in Hch.
  rewrite first_slot_changes, drop_0 in Hch by (done || lia).
  rewrite Hch. eexists.
  destruct (spec.first_changes keys values) as [|c cs]; simpl; done.
Qed.

End PollTick.

(** ** The poll watcher: runs *)

Section PollLoop.

Variable hash : string → string.

(** X5. The loop and the context. What follows the event in which the
    context is done is never handled; and a run in which the context is
    not done is the run of its first part followed by the run of the rest
    from the watcher that the first part leaves, with the batches of both
    in order. *)
Theorem monitor_stops_and_composes
    (w : redis.Watcher) (evs1 evs2 : list redis.pollEvent) :
  redis.monitor hash w (evs1 ++ redis.CtxDone :: evs2)
    = redis.monitor hash w evs1 ∧
  (spec.not_done evs1 →
   redis.monitor hash w (evs1 ++ evs2)
   = match redis.monitor hash w evs1 with
     | None => None
     | Some (w1, out1) =>
         match redis.monitor hash w1 evs2 with
         | None => None
         | Some (w2, out2) => Some (w2, out1 ++ out2)
         end
     end).
Proof.
  revert w. induction evs1 as [|ev evs1 IH]; intros w.
  { split; [done|]. intros _. simpl.
    by destruct (redis.monitor hash w evs2) as [[w2 out2]|]. }
  destruct ev as [|r].
  { split; [done|]. intros Hnd. apply Forall_cons in Hnd as [Hne _]. done. }
  split.
  - cbn [app redis.monitor].
    destruct (redis.getValues hash w r) as [[w' sent]|]; [|done].
    by rewrite (proj1 (IH w')).
  - intros Hnd. apply Forall_cons in Hnd as [_ Hnd].
    cbn [app redis.monitor].
    destruct (redis.getValues hash w r) as [[w' sent]|]; [|done].
    rewrite (proj2 (IH w') Hnd).
    destruct (redis.monitor hash w' evs1) as [[w1 out1]|]; [|done].
    destruct (redis.monitor hash w1 evs2) as [[w2 out2]|]; [|done].
    by destruct sent.
Qed.

(** The changes of a tick are changes of the watcher's keys. *)
Lemma slot_changes_poll_change vs hs values keys ks : ∀ i,
  ks ⊆ keys →
  Forall (spec.poll_change keys)
    (Some <$> spec.slot_changes hash vs hs values i ks).
Proof.
  induction ks as [|key ks IH]; intros i Hsub; [constructor|].
  cbn [spec.slot_changes]. rewrite fmap_app. apply Forall_app. split.
  - destruct (spec.slot_value hash hs values i) as [v|]; [|constructor].
    repeat constructor. eexists. split; [done|]. simpl.
    split; [done|]. split; [apply Hsub; left|].
    unfold wrap64. by apply Z.mod_pos_bound.
  - apply IH. intros k Hk. apply Hsub. by right.
Qed.

(** One tick keeps the watcher well formed, its keys and the range of its
    counters, and sends changes of its keys only, at least one. *)
Lemma getValues_keeps w values :
  spec.poll_wf w →
  Forall spec.is_uint64 (redis.versions w) →
  length values = length (redis.keys w) →
  ∃ w' sent,
    redis.getValues hash w (redis.MGetOk values) = Some (w', sent) ∧
    spec.poll_wf w' ∧ redis.keys w' = redis.keys w ∧
    Forall spec.is_uint64 (redis.versions w') ∧
    ∀ b, sent = Some b → b ≠ [] ∧ Forall (spec.poll_change (redis.keys w)) b.
Proof.
  intros [Hw1 Hw2] Hrange Hlen. unfold redis.getValues.
  destruct (getValues_loop_spec hash values (redis.keys w) 0
    {| redis.l_versions := redis.versions w; redis.l_hashes := redis.hashes w;
       redis.l_changes := [] |})
    as (st' & Hloop & Hch & Hlv & Hlh & Hslots); [simpl; lia..|].
  rewrite Hloop. simpl in *.
  assert (Hr' : Forall spec.is_uint64 (redis.l_versions st')).
  { apply Forall_lookup. intros j v' Hj. destruct (Hslots j) as [Hjv _].
    rewrite Hj in Hjv.
    assert (∃ v, redis.versions w !! j = Some v ∧
                 (v' = v ∨ v' = wrap64 (v + 1))) as (v & Hv & Hor).
    { case_decide; [|eauto].
      destruct (redis.versions w !! j) as [v|]; [|done].
      exists v. split; [done|]. simpl in Hjv. injection Hjv as ->.
      destruct (spec.slot_value _ _ _ _); auto. }
    destruct Hor as [-> | ->].
    - by eapply Forall_lookup_1 in Hrange.
    - unfold spec.is_uint64, wrap64. by apply Z.mod_pos_bound. }
  case_decide as Hempty.
  - eexists _, None. split; [done|]. split; [split; simpl; congruence|].
    split; [done|]. split; [done|]. by intros batch [=].
  - eexists _, (Some _). split; [done|].
    split; [split; simpl; congruence|]. split; [done|]. split; [done|].
    intros batch [= <-]. split.
    + intros Hnil. by rewrite Hnil in Hempty.
    + rewrite Hch. by apply slot_changes_poll_change.
Qed.

(** X6. A run of a watcher made by [New], when every fetch that answers
    has one entry per key. The run does not panic; the watcher keeps its
    keys and one slot per key, and its counters stay in the range of
    [uint64]; a batch that is sent is never empty and holds no nil
    pointer, and every change in it is a redis change for one of the
    watcher's keys. *)
Theorem monitor_run_is_safe
    {Client : Type} (client : option Client) (pollInterval : Z)
    (keys : list string) (w0 : redis.Watcher)
    (evs : list redis.pollEvent) :
  redis.New client pollInterval keys = inl w0 →
  Forall (spec.poll_sized (length keys)) evs →
  ∃ w out,
    redis.monitor hash w0 evs = Some (w, out) ∧
    spec.poll_wf w ∧ redis.keys w = keys ∧
    Forall spec.is_uint64 (redis.versions w) ∧
    Forall (λ b, b ≠ [] ∧ Forall (spec.poll_change keys) b) out.
Proof.
  intros Hnew Hsz.
  destruct (New_wf _ _ _ _ Hnew) as (Hwf & <- & Hvers).
  assert (Hrange : Forall spec.is_uint64 (redis.versions w0)).
  { rewrite Hvers. apply Forall_replicate. by compute. }
  clear Hnew Hvers. revert w0 Hwf Hrange Hsz.
  induction evs as [|ev evs IH]; intros w Hwf Hrange Hsz.
  { by exists w, []. }
  apply Forall_cons in Hsz as [Hev Hsz].
  destruct ev as [|[err|values]].
  - by exists w, [].
  - destruct (IH w Hwf Hrange Hsz) as (w' & out & Hrun & ?).
    exists w', out. cbn [redis.monitor redis.getValues]. by rewrite Hrun.
  - simpl in Hev.
    destruct (getValues_keeps w values Hwf Hrange Hev)
      as (w1 & sent & Hget & Hwf1 & Hk1 & Hr1 & Hsent).
    rewrite <- Hk1 in Hsz.
    destruct (IH w1 Hwf1 Hr1 Hsz) as (w' & out & Hrun & Hwf' & Hk' & Hr' & Hout).
    cbn [redis.monitor]. rewrite Hget, Hrun. eexists _, _.
    split; [done|]. split; [done|]. split; [congruence|]. split; [done|].
    rewrite Hk1 in Hout. destruct sent as [b|]; [|done].
    constructor; [|done]. by apply Hsent.
Qed.

End PollLoop.

(** ** The push watcher: starting the plans *)

Section PushWatch.

Context {Client : Type}.
Variable path_Join : string → string → string.
Variable watch_Parse : gmap string string → option string.

Lemma getPlan_params (w : consul.Watcher Client) tp key :
  match consul.getPlan watch_Parse w tp key with
  | inl pl =>
      watch_Parse (consul.pl_params pl) = None ∧
      consul.pl_params pl
      = <["type" := tp]>
          (<[(if decide (tp = "key") then "key" else "prefix") := key]>
             (<["token" := consul.token w]>
                (<["datacenter" := consul.dc w]> ∅)))
  | inr err =>
      watch_Parse
        (<["type" := tp]>
           (<[(if decide (tp = "key") then "key" else "prefix") := key]>
              (<["token" := consul.token w]>
                 (<["datacenter" := consul.dc w]> ∅)))) = Some err
  end.
Proof.
  unfold consul.getPlan. case_decide;
    destruct (watch_Parse _) as [err|] eqn:Hp; simpl; by rewrite ?Hp.
Qed.

Lemma key_params_eq dc token watched :
  <["type" := "key"]>
    (<["key" := watched]> (<["token" := token]> (<["datacenter" := dc]> ∅)))
  = spec.key_params dc token watched.
Proof.
  unfold spec.key_params. apply map_eq. intros k.
  repeat (rewrite lookup_insert; case_decide; [done|]). done.
Qed.

Lemma prefix_params_eq dc token p :
  <["type" := "keyprefix"]>
    (<["prefix" := p]> (<["token" := token]> (<["datacenter" := dc]> ∅)))
  = spec.prefix_params dc token p.
Proof.
  unfold spec.prefix_params. apply map_eq. intros k.
  repeat (rewrite lookup_insert; case_decide; [done|]). done.
Qed.

(** The plan of one item. *)
Lemma Watch_plan_spec (w : consul.Watcher Client) (i : consul.Item) :
  match consul.Watch_plan path_Join watch_Parse w i with
  | inl pl =>
      spec.item_error path_Join watch_Parse (consul.dc w) (consul.token w) i
        = None ∧
      spec.runs_for path_Join (consul.dc w) (consul.token w) i pl
  | inr err =>
      spec.item_error path_Join watch_Parse (consul.dc w) (consul.token w) i
        = Some err
  end.
Proof.
  unfold consul.Watch_plan, spec.item_error, spec.runs_for, spec.item_plan,
    consul.createKeyPlanWithPrefix, consul.createKeyPrefixPlan.
  destruct (decide (consul.tp i = "key")) as [Hk|Hk].
  - pose proof (getPlan_params w "key"
                  (path_Join (consul.prefix i) (consul.key i))) as Hg.
    rewrite decide_True in Hg by done. rewrite key_params_eq in Hg.
    destruct (consul.getPlan _ _ _ _) as [pl|err]; simpl.
    + destruct Hg as [Hp Hps]. rewrite <- Hps. split; [done|]. eauto 10.
    + done.
  - destruct (decide (consul.tp i = "keyprefix")) as [Hp|Hp]; [|done].
    pose proof (getPlan_params w "keyprefix" (consul.key i)) as Hg.
    rewrite decide_False in Hg by done. rewrite prefix_params_eq in Hg.
    destruct (consul.getPlan _ _ _ _) as [pl|err]; simpl.
    + destruct Hg as [Hpa Hps]. rewrite <- Hps. split; [done|]. eauto 10.
    + done.
Qed.

(** The loop, from any watcher and any list of plans running. *)
Lemma Watch_loop_spec items : ∀ (w : consul.Watcher Client) running,
  ∃ started,
    consul.w_running (consul.Watch_loop path_Join watch_Parse w items running).1
      = running ++ started ∧
    consul.pp (consul.w_watcher
                 (consul.Watch_loop path_Join watch_Parse w items running).1)
      = consul.pp w ++ started ∧
    Forall2 (spec.runs_for path_Join (consul.dc w) (consul.token w))
      (take (length started) items) started ∧
    Forall (λ i, spec.item_error path_Join watch_Parse (consul.dc w)
                   (consul.token w) i = None)
      (take (length started) items) ∧
    match (consul.Watch_loop path_Join watch_Parse w items running).2 with
    | None =>
        length started = length items ∧
        consul.w_stopper
          (consul.Watch_loop path_Join watch_Parse w items running).1 = true
    | Some err =>
        (∃ i, items !! length started = Some i ∧
              spec.item_error path_Join watch_Parse (consul.dc w)
                (consul.token w) i = Some err) ∧
        consul.w_stopper
          (consul.Watch_loop path_Join watch_Parse w items running).1 = false
    end.
Proof.
  induction items as [|i items IH]; intros w running.
  { exists []. simpl. rewrite !app_nil_r. repeat split; constructor. }
  cbn [consul.Watch_loop].
  pose proof (Watch_plan_spec w i) as Hi.
  destruct (consul.Watch_plan path_Join watch_Parse w i) as [pl|err].
  - destruct Hi as [Hok Hruns].
    destruct (IH {| consul.cl := consul.cl w; consul.dc := consul.dc w;
                    consul.token := consul.token w;
                    consul.pp := consul.pp w ++ [pl];
                    consul.ii := consul.ii w |} (running ++ [pl]))
      as (started & Hr & Hpp & Hall & Hoks & Hend).
    exists (pl :: started). simpl in *.
    rewrite Hr, Hpp, <- !app_assoc. split; [done|]. split; [done|].
    split; [by constructor|]. split; [by constructor|].
    destruct (consul.Watch_loop _ _ _ _ _).2 as [err|].
    + destruct Hend as [(j & Hj & He) Hs]. split; [|done]. by exists j.
    + destruct Hend as [Hl Hs]. split; [by f_equal|done].
  - exists []. simpl. rewrite !app_nil_r.
    split; [done|]. split; [done|]. split; [constructor|].
    split; [constructor|]. split; [|done]. by exists i.
Qed.

(** X7. [Watch] of the push watcher, given a context and a channel.
    Every plan that [Watch] adds to the watcher is also handed to a
    goroutine that runs it, and the other way round. When [Watch] returns
    nil, there is one plan per item, in the order of the items, and the
    goroutine that stops the plans was started. When it returns an error,
    the error is the one of [watch.Parse] for the first item whose params
    it refuses; the plans of the items before this one are running, and
    the goroutine that would stop them was not started. *)
Theorem Watch_starts_plans_in_order (w : consul.Watcher Client) :
  ∃ started,
    consul.w_running (consul.Watch path_Join watch_Parse true true w).1
      = started ∧
    consul.pp (consul.w_watcher
                 (consul.Watch path_Join watch_Parse true true w).1)
      = consul.pp w ++ started ∧
    Forall (λ i, spec.item_error path_Join watch_Parse (consul.dc w)
                   (consul.token w) i = None)
      (take (length started) (consul.ii w)) ∧
    match (consul.Watch path_Join watch_Parse true true w).2 with
    | None =>
        length started = length (consul.ii w) ∧
        consul.w_stopper
          (consul.Watch path_Join watch_Parse true true w).1 = true
    | Some err =>
        (∃ i, consul.ii w !! length started = Some i ∧
              spec.item_error path_Join watch_Parse (consul.dc w)
                (consul.token w) i = Some err) ∧
        consul.w_stopper
          (consul.Watch path_Join watch_Parse true true w).1 = false
    end.
Proof.
  unfold consul.Watch. simpl.
  destruct (Watch_loop_spec (consul.ii w) w [])
    as (started & Hr & Hpp & _ & Hoks & Hend).
  exists started. by rewrite Hr.
Qed.

(** X8. The plans that [Watch] starts. The plan of a key item watches the
    path that [path.Join] makes of the prefix and the key of the item, but
    its handler sends its changes under the key of the item alone; the
    plan of a prefix item watches the key of the item as a prefix and has
    the handler that sends one change per pair. Both carry the datacenter
    and the token of the watcher and nothing else. An item of another type
    gets a nil plan, which is run like the others. *)
Theorem Watch_plan_of_each_item
    (w : consul.Watcher Client) (n : nat) (i : consul.Item)
    (pl : option consul.Plan) :
  consul.ii w !! n = Some i →
  consul.w_running (consul.Watch path_Join watch_Parse true true w).1 !! n
    = Some pl →
  match pl with
  | Some p =>
      (consul.tp i = "key" ∧
       consul.pl_params p
       = spec.key_params (consul.dc w) (consul.token w)
           (path_Join (consul.prefix i) (consul.key i)) ∧
       ∃ h, consul.pl_Handler p = Some h ∧
            ∀ idx d, h idx d = Some (consul.keyHandler (consul.key i) idx d)) ∨
      (consul.tp i = "keyprefix" ∧
       consul.pl_params p
       = spec.prefix_params (consul.dc w) (consul.token w) (consul.key i) ∧
       ∃ h, consul.pl_Handler p = Some h ∧
            ∀ idx d, h idx d = consul.keyPrefixHandler idx d)
  | None => consul.tp i ≠ "key" ∧ consul.tp i ≠ "keyprefix"
  end.
Proof.
  intros Hi Hpl. unfold consul.Watch in Hpl. simpl in Hpl.
  destruct (Watch_loop_spec (consul.ii w) w [])
    as (started & Hr & _ & Hall & _).
  rewrite Hr in Hpl. simpl in Hpl.
  assert (Hn : take (length started) (consul.ii w) !! n = Some i).
  { rewrite lookup_take_lt; [done|]. by apply lookup_lt_Some in Hpl. }
  pose proof (Forall2_lookup_lr _ _ _ _ _ _ Hall Hn Hpl) as Hruns.
  unfold spec.runs_for, spec.item_plan in Hruns.
  destruct (decide (consul.tp i = "key")) as [Hk|Hk].
  { destruct Hruns as (p & h & -> & Hps & Hh & Hext). left. eauto 10. }
  destruct (decide (consul.tp i = "keyprefix")) as [Hp|Hp].
  { destruct Hruns as (p & h & -> & Hps & Hh & Hext). right. eauto 10. }
  by subst pl.
Qed.

End PushWatch.

(** ** The monitor: starting the watchers, batches, and routes *)

Section MonitorMore.

Context {St : Type} (F : FieldAPI St).

(** X9. [Monitor.Monitor] calls [Watch] on the watchers in order and
    stops at the first that fails. The watchers whose [Watch] was called
    are a first part of the list; the call returns nil exactly when every
    watcher starts, and then all were called; when it returns an error,
    the error is the one of the last watcher called, the watchers before
    it have all started (and stay so: nothing stops them), and the
    watchers after it were never called. *)
Theorem Monitor_starts_watchers_in_order
    {W : Type} (watch : W → option error) (ww : list W) :
  ∃ rest,
    ww = (monitor.Monitor_watch watch ww).1 ++ rest ∧
    match (monitor.Monitor_watch watch ww).2 with
    | None =>
        rest = [] ∧ Forall (λ w, watch w = None) ww
    | Some err =>
        ∃ pre w,
          (monitor.Monitor_watch watch ww).1 = pre ++ [w] ∧
          Forall (λ w, watch w = None) pre ∧ watch w = Some err
    end.
Proof.
  induction ww as [|w ww IH]; [by exists []|].
  cbn [monitor.Monitor_watch].
  destruct (watch w) as [err|] eqn:Hw.
  { exists ww. split; [done|]. by exists [], w. }
  destruct IH as (rest & Hww & Hend).
  destruct (monitor.Monitor_watch watch ww) as [started r]. simpl in *.
  exists rest. split; [by f_equal|].
  destruct r as [err|].
  - destruct Hend as (pre & w' & -> & Hpre & Hw').
    exists (w :: pre), w'. split; [done|]. split; [by constructor|done].
  - destruct Hend as [-> Hall]. split; [done|]. by constructor.
Qed.

(** X10. Where a batch ends does not matter to dispatch: a batch that is
    the changes of two batches one after the other is handled as the two
    batches are, one after the other, also by the loop that receives
    them. *)
Theorem applyChange_of_joined_batches
    (mp : monitor.sourceMap) (cc1 cc2 : Batch) (w : World St)
    (evs : list monitor.dispatchEvent) :
  monitor.applyChange F mp (cc1 ++ cc2) w
    = monitor.applyChange F mp cc1 w ≫= monitor.applyChange F mp cc2 ∧
  monitor.monitor F mp (monitor.Recv (cc1 ++ cc2) :: evs) w
    = monitor.monitor F mp (monitor.Recv cc1 :: monitor.Recv cc2 :: evs) w.
Proof.
  assert (Happ : ∀ w, monitor.applyChange F mp (cc1 ++ cc2) w
            = monitor.applyChange F mp cc1 w ≫= monitor.applyChange F mp cc2).
  { induction cc1 as [|[c|] cc1 IH]; intros w0; [done| |done].
    cbn [app monitor.applyChange].
    destruct (mp !! change.Source c) as [m|]; [|apply IH].
    destruct (m !! change.Key c) as [fld|]; [|apply IH].
    destruct (fieldSet F fld (change.Value c) (change.Version c) w0)
      as [[e|] w1]; apply IH. }
  split; [apply Happ|]. cbn [monitor.monitor]. rewrite Happ.
  by destruct (monitor.applyChange F mp cc1 w).
Qed.

Variable range_order : ∀ A : Type, list A → list A.
Hypothesis range_order_perm : ∀ (A : Type) (l : list A), range_order A l ≡ₚ l.

Lemma routed_call_claims (ff : list FieldPtr) (mp : monitor.sourceMap)
    (c : Change) (call : FieldPtr * string * Z) :
  monitor.generateMap F range_order ff = inl mp →
  spec.routed_call mp c = Some call →
  call = (call.1.1, change.Value c, change.Version c) ∧
  call.1.1 ∈ ff ∧ change.Source c ≠ SourceSeed ∧
  spec.claims F call.1.1 (change.Source c) (change.Key c).
Proof.
  intros Hgen Hcall. unfold monitor.generateMap in Hgen.
  pose proof (generateMap_loop_spec F range_order range_order_perm ff ∅)
    as Hspec.
  rewrite Hgen in Hspec. destruct Hspec as (_ & _ & _ & Hroute).
  unfold spec.routed_call in Hcall.
  destruct (spec.route mp (change.Source c) (change.Key c)) as [f|] eqn:Hr;
    [|done].
  simpl in Hcall. injection Hcall as <-. simpl. split; [done|].
  apply Hroute in Hr as [Hr|?]; [|done].
  unfold spec.route in Hr. by rewrite lookup_empty in Hr.
Qed.

(** X11. Dispatch over the table that [generateMap] makes of the fields
    [ff]. Every call of [Set] that the dispatch of a batch makes is for a
    change of the batch whose source is not the seed source, with the
    value and the version of the change, on a field of [ff] that has the
    key of the change for the source of the change. So a change with the
    seed source is never applied, and no field outside [ff] is ever
    set. *)
Theorem dispatch_sets_claiming_fields_only
    (ff : list FieldPtr) (mp : monitor.sourceMap) (cs : list Change)
    (w : World St) :
  monitor.generateMap F range_order ff = inl mp →
  ∃ w' calls,
    monitor.applyChange F mp (Some <$> cs) w = Some w' ∧
    spec.set_calls (trace w') = spec.set_calls (trace w) ++ calls ∧
    Forall (λ call : FieldPtr * string * Z,
              ∃ c, c ∈ cs ∧ change.Source c ≠ SourceSeed ∧
                   call = (call.1.1, change.Value c, change.Version c) ∧
                   call.1.1 ∈ ff ∧
                   spec.claims F call.1.1 (change.Source c) (change.Key c))
           calls.
Proof.
  intros Hgen.
  exists (foldl (spec.dispatch_one F mp) w cs), (omap (spec.routed_call mp) cs).
  split; [apply applyChange_fold|]. split; [apply dispatch_fold_calls|].
  apply Forall_forall. intros call Hin.
  apply list_elem_of_omap in Hin as (c & Hc & Hcall).
  destruct (routed_call_claims ff mp c call Hgen Hcall) as (? & ? & ? & ?).
  by exists c.
Qed.

(** X12. The order in which [range] visits the sources of a field does
    not change the routes: for any two orders, [generateMap] fails for
    both or for neither, and when it does not fail the two tables give
    the same field for every source and key. (The text of the error may
    differ: it names the duplicate that was met first.) *)
Theorem routes_do_not_depend_on_range_order
    (range_order' : ∀ A : Type, list A → list A) (ff : list FieldPtr) :
  (∀ (A : Type) (l : list A), range_order' A l ≡ₚ l) →
  match monitor.generateMap F range_order ff,
        monitor.generateMap F range_order' ff with
  | inl mp, inl mp' => ∀ s k, spec.route mp s k = spec.route mp' s k
  | inr _, inr _ => True
  | _, _ => False
  end.
Proof.
  intros Hperm'. unfold monitor.generateMap.
  pose proof (generateMap_loop_spec F range_order range_order_perm ff ∅) as H1.
  pose proof (generateMap_loop_spec F range_order' Hperm' ff ∅) as H2.
  assert (Hempty : ∀ s k, is_Some (spec.route (∅ : monitor.sourceMap) s k)
                          → False).
  { intros s k [f Hf]. unfold spec.route in Hf.
    by rewrite lookup_empty in Hf. }
  assert (Htwice : ∀ i f s k,
            ff !! i = Some f → s ≠ SourceSeed → spec.claims F f s k →
            (is_Some (spec.route (∅ : monitor.sourceMap) s k) ∨
             ∃ j g, (j < i)%nat ∧ ff !! j = Some g ∧ spec.claims F g s k) →
            spec.claimed_twice F ff s k).
  { intros i f s k Hi Hs Hc [Hsome|(j & g & Hj & Hg & Hcg)].
    - by apply Hempty in Hsome.
    - split; [done|]. by exists j, i, g, f. }
  destruct (monitor.generateMap_loop F range_order ff ∅) as [mp|e],
           (monitor.generateMap_loop F range_order' ff ∅) as [mp'|e'];
    try done.
  - destruct H1 as (_ & _ & _ & Hr1), H2 as (_ & _ & _ & Hr2).
    intros s k. apply option_eq. intros f. by rewrite Hr1, Hr2.
  - destruct H1 as (_ & Hno & _), H2 as (i & f & s & k & Hi & Hs & Hc & _ & Hor).
    by apply (Hno s k), (Htwice i f).
  - destruct H2 as (_ & Hno & _), H1 as (i & f & s & k & Hi & Hs & Hc & _ & Hor).
    by apply (Hno s k), (Htwice i f).
Qed.

End MonitorMore.

(** ** The seeder: getters, and when the loops run to their end *)

Section SeedMore.

Context {St : Type} (F : FieldAPI St).
Variable range_order : ∀ A : Type, list A → list A.
Variable os : seed.OS.
Variable s : seed.Seeder.

Abbreviation state := (seed.state (St := St)).
Abbreviation ctl := (seed.ctl (St := St)).

(** X13. [seed.New] keeps one getter per source: the getter of the last
    param given for the source, and none for a source without param. *)
Theorem New_keeps_last_getter (pp : list seed.Param) (src : Source) :
  seed.getters (seed.New pp) !! src
  = seed.getter <$> last (filter (λ p, seed.src p = src) pp).
Proof.
  unfold seed.New. simpl.
  induction pp as [|p pp IH] using rev_ind; [done|].
  rewrite foldl_app, filter_app. simpl.
  destruct (decide (seed.src p = src)) as [<-|Hne].
  - rewrite lookup_insert_eq, filter_cons_True by done.
    by rewrite filter_nil, last_snoc.
  - rewrite lookup_insert_ne by done.
    by rewrite filter_cons_False, filter_nil, app_nil_r.
Qed.

Lemma passes_not_Return (err : error) (x x' : state) :
  ¬ spec.passes (seed.Return err x) x'.
Proof. by intros [[=]|[=]]. Qed.

(** A turn of the loop that runs to its end had the getters it needed. *)
Lemma seedField_passes_getter f src (x x' : state) :
  spec.passes (seed.seedField F os s f x) x' →
  spec.needs_getter F os s f src →
  is_Some (seed.getters s !! src).
Proof.
  unfold seed.seedField. intros Hp [[key Hkey] Hsrc].
  apply passes_andThen in Hp as [Hp|(x1 & H1 & Hp)];
    [by apply seedSeed_not_Continue in Hp|].
  apply passes_andThen in Hp as [Hp|(x2 & H2 & Hp)];
    [by apply seedEnv_not_Continue in Hp|].
  apply passes_andThen in Hp as [Hp|(x3 & H3 & Hp)];
    [by apply seedFlag_not_Continue in Hp|].
  apply passes_andThen in Hp as [Hp|(x4 & H4 & Hp)];
    [by apply seedFile_not_Continue in Hp|].
  destruct (seed.getters s !! src) as [gtr|] eqn:Hg; [by eexists|].
  exfalso. destruct Hsrc as [->|[-> Hok]].
  - unfold seed.seedGetter at 1 in Hp. rewrite Hkey, Hg in Hp.
    by apply passes_not_Return in Hp.
  - apply passes_andThen in Hp as [Hp|(x5 & H5 & Hp)].
    + destruct (consul_fails_spec F os s f x4 x') as [_ HC].
      rewrite (HC Hp) in Hok. done.
    + unfold seed.seedGetter in Hp. rewrite Hkey, Hg in Hp.
      by apply passes_not_Return in Hp.
Qed.

Lemma seedFields_passes_turn ff f : ∀ (x x' : state),
  spec.passes (seed.seedFields F os s ff x) x' → f ∈ ff →
  ∃ x1 x2, spec.passes (seed.seedField F os s f x1) x2.
Proof.
  induction ff as [|g ff IH]; intros x x' Hp Hf.
  { by apply elem_of_nil in Hf. }
  cbn [seed.seedFields] in Hp.
  destruct (seed.seedField F os s g x) as [x1|x1|err x1|msg x1] eqn:Hc;
    try by destruct Hp as [[=]|[=]].
  - apply elem_of_cons in Hf as [->|Hf]; [|by eapply IH].
    exists x, x1. rewrite Hc. by left.
  - apply elem_of_cons in Hf as [->|Hf]; [|by eapply IH].
    exists x, x1. rewrite Hc. by right.
Qed.

Lemma completes_passes (cfg : list FieldPtr) (w : World St) :
  spec.completes F os s cfg w = true →
  ∃ x1 x2,
    spec.passes
      (seed.seedFields F os s cfg
         {| seed.world := w; seed.seedMap := ∅; seed.flagInfos := [] |}) x1 ∧
    spec.passes (seed.seedFlags F os x1) x2.
Proof.
  unfold spec.completes.
  destruct (seed.seedFields F os s cfg _) as [x1|x1|? ?|? ?]; try done;
    destruct (seed.seedFlags F os x1) as [x2|x2|? ?|? ?] eqn:Hfl; try done;
    intros _; exists x1, x2; rewrite Hfl; unfold spec.passes; auto.
Qed.

(** X14. A getter that is missing is fatal. When a field of the config
    needs the getter of consul or of redis and the seeder has none for
    that source, [Seed] never gets to its end: it returns neither nil nor
    the error that lists the fields not seeded, but panics or returns the
    error of a failing [Set] or of a missing getter, whatever values the
    other sources have for the field. *)
Theorem seed_needs_its_getters
    (cfg : list FieldPtr) (w : World St) (f : FieldPtr) (src : Source) :
  f ∈ cfg →
  spec.needs_getter F os s f src →
  seed.getters s !! src = None →
  spec.ends_early (seed.Seed F range_order os s cfg w).2.
Proof.
  intros Hf Hneeds Hnone.
  apply seed_ends_early_on_abort.
  destruct (spec.completes F os s cfg w) eqn:Hc; [|done]. exfalso.
  apply completes_passes in Hc as (x1 & x2 & Hp1 & _).
  destruct (seedFields_passes_turn cfg f _ _ Hp1 Hf) as (y1 & y2 & Hturn).
  destruct (seedField_passes_getter f src y1 y2 Hturn Hneeds) as [g Hg].
  congruence.
Qed.

(** A turn of the loop that runs to its end has recorded the flag of its
    field, whose name was not defined before. *)
Lemma seedField_passes_flag f (x x' : state) :
  spec.passes (seed.seedField F os s f x) x' →
  seed.flagInfos x' = seed.flagInfos x ++ spec.flag_of F f ∧
  ∀ k, k ∈ seed.fi_key <$> spec.flag_of F f →
       k ∉ seed.fi_key <$> seed.flagInfos x.
Proof.
  intros Hp. split.
  { by destruct (calls_step_seedField F os s f f x x' Hp) as (_ & _ & _ & ?). }
  unfold seed.seedField in Hp.
  apply passes_andThen in Hp as [Hp|(x1 & H1 & Hp)];
    [by apply seedSeed_not_Continue in Hp|].
  apply passes_andThen in Hp as [Hp|(x2 & H2 & Hp)];
    [by apply seedEnv_not_Continue in Hp|].
  apply passes_andThen in Hp as [Hp|(x3 & H3 & Hp)];
    [by apply seedFlag_not_Continue in Hp|].
  destruct (calls_step_seedSeed F os s f f _ _ H1) as (_ & _ & _ & Hf1).
  destruct (calls_step_seedEnv F os s f f _ _ H2) as (_ & _ & _ & Hf2).
  rewrite app_nil_r in Hf1, Hf2. simpl in Hf1.
  unfold seed.seedFlag in H3. unfold spec.flag_of.
  destruct (Sources F f !! SourceFlag) as [key|]; [|by intros k ?%elem_of_nil].
  destruct (seed.flagVar os key _) as [msg|] eqn:Hvar; [done|].
  apply flagVar_None in Hvar as (_ & Hin).
  intros k ->%list_elem_of_singleton. by rewrite Hf2, Hf1 in Hin.
Qed.

(** The loop over the fields, when it runs to its end, has defined the
    flags of the fields, each name once. *)
Lemma seedFields_passes_flags ff : ∀ (x x' : state),
  spec.passes (seed.seedFields F os s ff x) x' →
  seed.flagInfos x' = seed.flagInfos x ++ concat (spec.flag_of F <$> ff) ∧
  NoDup (spec.flag_names F ff) ∧
  ∀ k, k ∈ spec.flag_names F ff → k ∉ seed.fi_key <$> seed.flagInfos x.
Proof.
  unfold spec.flag_names.
  induction ff as [|f ff IH]; intros x x' Hp.
  { apply passes_Go in Hp as ->. rewrite app_nil_r.
    split; [done|]. split; [constructor|]. by intros k ?%elem_of_nil. }
  cbn [seed.seedFields] in Hp.
  assert (Hturn : ∀ x1, spec.passes (seed.seedField F os s f x) x1 →
            spec.passes (seed.seedFields F os s ff x1) x' →
            seed.flagInfos x'
            = seed.flagInfos x ++ concat (spec.flag_of F <$> f :: ff) ∧
            NoDup (seed.fi_key <$> concat (spec.flag_of F <$> f :: ff)) ∧
            ∀ k, k ∈ seed.fi_key <$> concat (spec.flag_of F <$> f :: ff) →
                 k ∉ seed.fi_key <$> seed.flagInfos x).
  { intros x1 H1 H2.
    destruct (seedField_passes_flag f x x1 H1) as [Hfl Hnew].
    destruct (IH x1 x' H2) as (Hfl' & Hnd & Hfresh).
    rewrite fmap_cons. cbn [concat]. rewrite fmap_app.
    split; [by rewrite Hfl', Hfl, app_assoc|]. split.
    - apply NoDup_app. split; [|split; [|done]].
      + unfold spec.flag_of. destruct (Sources F f !! SourceFlag); simpl;
          [apply NoDup_singleton|constructor].
      + intros k Hk Hk'. apply (Hfresh k Hk').
        rewrite Hfl, fmap_app. apply elem_of_app. by right.
    - intros k [Hk|Hk]%elem_of_app; [by apply Hnew|].
      intros Hin. apply (Hfresh k Hk).
      rewrite Hfl, fmap_app. apply elem_of_app. by left. }
  destruct (seed.seedField F os s f x) as [x1|x1|err x1|msg x1] eqn:Hc.
  - apply (Hturn x1); [by left|done].
  - apply (Hturn x1); [by right|done].
  - by destruct Hp as [[=]|[=]].
  - by destruct Hp as [[=]|[=]].
Qed.

Lemma flag_of_concat g fi ff :
  fi ∈ spec.flag_of F g → g ∈ ff → fi ∈ concat (spec.flag_of F <$> ff).
Proof.
  intros Hfi. induction ff as [|h ff IH]; [by intros ?%elem_of_nil|].
  rewrite fmap_cons. cbn [concat]. intros Hin. apply elem_of_app.
  apply elem_of_cons in Hin as [<-|Hin]; [by left|right; by apply IH].
Qed.

(** X15. A flag name that two fields share is fatal. When two fields of
    the config, at different places, have the same flag name, [Seed]
    never gets to its end: the second definition of the name makes the
    flag set panic, unless a failing [Set] or a missing getter ends
    [Seed] before. *)
Theorem seed_needs_distinct_flag_names
    (cfg : list FieldPtr) (w : World St) (i j : nat) (f g : FieldPtr)
    (name : string) :
  (i < j)%nat →
  cfg !! i = Some f → cfg !! j = Some g →
  Sources F f !! SourceFlag = Some name →
  Sources F g !! SourceFlag = Some name →
  spec.ends_early (seed.Seed F range_order os s cfg w).2.
Proof.
  intros Hij Hi Hj Hf Hg.
  apply seed_ends_early_on_abort.
  destruct (spec.completes F os s cfg w) eqn:Hc; [|done]. exfalso.
  apply completes_passes in Hc as (x1 & x2 & Hp1 & _).
  destruct (seedFields_passes_flags cfg _ _ Hp1) as (_ & Hnd & _).
  clear Hp1. unfold spec.flag_names in Hnd.
  revert i j Hij Hi Hj Hnd.
  induction cfg as [|h cfg IH]; intros i j Hij Hi Hj Hnd; [done|].
  rewrite fmap_cons in Hnd. cbn [concat] in Hnd. rewrite fmap_app in Hnd.
  apply NoDup_app in Hnd as (_ & Hdisj & Hnd).
  destruct j as [|j]; [lia|]. simpl in Hj.
  destruct i as [|i]; simpl in Hi.
  - injection Hi as ->. apply (Hdisj name).
    + unfold spec.flag_of. rewrite Hf. simpl. left.
    + apply list_elem_of_fmap. exists {| seed.fi_key := name; seed.fi_field := g |}.
      split; [done|]. apply (flag_of_concat g); [|by eapply list_elem_of_lookup_2].
      unfold spec.flag_of. rewrite Hg. left.
  - apply (IH i j); [lia|done..].
Qed.

(** With a [Set] that does not fail, [apply] goes on. *)
Lemma apply_goes f value version (x : state) :
  (∀ g v ver st, (Set_ F g v ver st).1 = None) →
  ∃ x', seed.apply F f value version x = seed.Go x'.
Proof.
  intros Hset. unfold seed.apply, fieldSet.
  pose proof (Hset f value version (store (seed.world x))) as Hok.
  destruct (Set_ F f value version (store (seed.world x))) as [e st'].
  simpl in Hok. subst e. eauto.
Qed.

Lemma applyFlags_goes fis : ∀ (x : state),
  (∀ g v ver st, (Set_ F g v ver st).1 = None) →
  ∃ x', seed.applyFlags F os fis x = seed.Go x'.
Proof.
  induction fis as [|fi fis IH]; intros x Hset; [by eexists|].
  cbn [seed.applyFlags].
  destruct (seed.ParsedFlag os (seed.fi_key fi)) as [value|]; [|by apply IH].
  destruct (apply_goes (seed.fi_field fi) value 0 x Hset) as [x1 ->].
  simpl. by apply IH.
Qed.

(** A turn of the loop runs to its end when [Set] does not fail, the
    getters are there and the flag name is one that [StringVar] takes and
    is new. *)
Lemma seedField_goes f (x : state) :
  (∀ g v ver st, (Set_ F g v ver st).1 = None) →
  (∀ src, src = SourceConsul ∨ src = SourceRedis →
          is_Some (Sources F f !! src) → is_Some (seed.getters s !! src)) →
  (∀ k, k ∈ seed.fi_key <$> spec.flag_of F f →
        spec.flag_name_ok k ∧ k ∉ seed.fi_key <$> seed.flagInfos x) →
  ∃ x', spec.passes (seed.seedField F os s f x) x'.
Proof.
  intros Hset Hget Hnew. unfold seed.seedField.
  assert (Hs : ∃ x1, seed.seedSeed F f (seed.mark f false x) = seed.Go x1).
  { unfold seed.seedSeed. destruct (Sources F f !! SourceSeed);
      [by apply apply_goes|by eexists]. }
  destruct Hs as [x1 H1]. rewrite H1. simpl.
  assert (He : ∃ x2, seed.seedEnv F os f x1 = seed.Go x2).
  { unfold seed.seedEnv. destruct (Sources F f !! SourceEnv) as [key|];
      [|by eexists].
    destruct (seed.LookupEnv os key); [by apply apply_goes|by eexists]. }
  destruct He as [x2 H2]. rewrite H2. simpl.
  assert (Hfl12 : seed.flagInfos x2 = seed.flagInfos x).
  { destruct (calls_step_seedSeed F os s f f _ _ H1) as (_ & _ & _ & Hf1).
    destruct (calls_step_seedEnv F os s f f _ _ H2) as (_ & _ & _ & Hf2).
    rewrite app_nil_r in Hf1, Hf2. by rewrite Hf2, Hf1. }
  assert (Hf : ∃ x3, seed.seedFlag F os f x2 = seed.Go x3).
  { unfold seed.seedFlag. unfold spec.flag_of in Hnew.
    destruct (Sources F f !! SourceFlag) as [key|]; [|by eexists].
    rewrite (proj2 (flagVar_None os key _)); [by eexists|].
    rewrite Hfl12. apply Hnew. simpl. left. }
  destruct Hf as [x3 H3]. rewrite H3. simpl.
  assert (Hfi : ∃ x4, seed.seedFile F os f x3 = seed.Go x4).
  { unfold seed.seedFile. destruct (Sources F f !! SourceFile) as [key|];
      [|by eexists].
    destruct (seed.ReadFile os key); [by apply apply_goes|by eexists]. }
  destruct Hfi as [x4 H4]. rewrite H4. simpl.
  assert (Hg : ∀ src y, src = SourceConsul ∨ src = SourceRedis →
            (∃ y', seed.seedGetter F s src f y = seed.Go y') ∨
            (∃ y', seed.seedGetter F s src f y = seed.Continue y')).
  { intros src y Hsrc. unfold seed.seedGetter.
    destruct (Sources F f !! src) as [key|] eqn:Hkey; [|left; by eexists].
    destruct (Hget src Hsrc) as [gtr Hgtr]; [by eexists|]. rewrite Hgtr.
    destruct (seed.g_err (gtr key)); [right; by eexists|].
    destruct (seed.g_value (gtr key)); [|right; by eexists].
    left. by apply apply_goes. }
  destruct (Hg SourceConsul x4) as [[x5 H5]|[x5 H5]]; [by left| |];
    rewrite H5; simpl.
  - destruct (Hg SourceRedis x5) as [[x6 H6]|[x6 H6]]; [by right| |];
      rewrite H6; exists x6; [by left|by right].
  - exists x5. by right.
Qed.

Lemma seedFields_goes ff : ∀ (x : state),
  (∀ g v ver st, (Set_ F g v ver st).1 = None) →
  (∀ f src, f ∈ ff → src = SourceConsul ∨ src = SourceRedis →
            is_Some (Sources F f !! src) → is_Some (seed.getters s !! src)) →
  NoDup ((seed.fi_key <$> seed.flagInfos x) ++ spec.flag_names F ff) →
  Forall spec.flag_name_ok (spec.flag_names F ff) →
  ∃ x', spec.passes (seed.seedFields F os s ff x) x'.
Proof.
  unfold spec.flag_names.
  induction ff as [|f ff IH]; intros x Hset Hget Hnd Hok.
  { exists x. by left. }
  rewrite fmap_cons in Hnd, Hok. cbn [concat] in Hnd, Hok.
  rewrite fmap_app in Hnd, Hok. apply Forall_app in Hok as [Hok1 Hok2].
  assert (Hnew : ∀ k, k ∈ seed.fi_key <$> spec.flag_of F f →
                      spec.flag_name_ok k ∧
                      k ∉ seed.fi_key <$> seed.flagInfos x).
  { intros k Hk. split; [by eapply Forall_forall in Hok1|].
    intros Hin. apply NoDup_app in Hnd as (_ & Hdisj & _).
    apply (Hdisj k Hin). apply elem_of_app. by left. }
  destruct (seedField_goes f x Hset) as [x1 Hp1]; [|done|].
  { intros src Hsrc. apply Hget; [left|done]. }
  destruct (seedField_passes_flag f x x1 Hp1) as [Hfl _].
  destruct (IH x1 Hset) as [x' Hp'].
  { intros g src Hg. apply Hget. by right. }
  { by rewrite Hfl, fmap_app, <- app_assoc. }
  { done. }
  exists x'. cbn [seed.seedFields].
  by destruct Hp1 as [-> | ->].
Qed.

(** X16. What is enough for [Seed] to get to its end. When no call of
    [Set] fails, the seeder has a getter for every store (consul, redis)
    for which a field of the config has a key, no two fields share a flag
    name, and no flag name begins with "-" or contains "=", [Seed] neither
    panics nor returns the error of a [Set] or of a missing getter: both
    its loops run to their end, and what it returns is nil or the error
    that lists the fields not seeded. *)
Theorem seed_gets_to_its_end (cfg : list FieldPtr) (w : World St) :
  (∀ g v ver st, (Set_ F g v ver st).1 = None) →
  (∀ f src, f ∈ cfg → src = SourceConsul ∨ src = SourceRedis →
            is_Some (Sources F f !! src) → is_Some (seed.getters s !! src)) →
  NoDup (spec.flag_names F cfg) →
  Forall spec.flag_name_ok (spec.flag_names F cfg) →
  spec.completes F os s cfg w = true ∧
  ∃ x, (seed.Seed F range_order os s cfg w)
       = (seed.world x, seed.Returned (seed.seedResult F range_order x)).
Proof.
  intros Hset Hget Hnd Hok. unfold spec.completes, seed.Seed.
  destruct (seedFields_goes cfg
    {| seed.world := w; seed.seedMap := ∅; seed.flagInfos := [] |}
    Hset Hget Hnd Hok) as [x1 Hp1].
  assert (Hfl : ∃ x2, seed.seedFlags F os x1 = seed.Go x2).
  { unfold seed.seedFlags. case_decide; [by apply applyFlags_goes|by eexists]. }
  destruct Hfl as [x2 H2].
  destruct Hp1 as [-> | ->]; rewrite H2; split; try done; by exists x2.
Qed.

End SeedMore.

(** ** The further properties in the scenarios *)

Section MoreScenarios.

Lemma reversed_perm (A : Type) (l : list A) : scenario.reversed A l ≡ₚ l.
Proof. apply reverse_Permutation. Qed.

Lemma tagged_not_empty (v : string) : scenario.tagged v ≠ "".
Proof. done. Qed.

Lemma any_text_is_taken (g : FieldPtr) (v : string) (ver : Z)
    (st : gmap FieldPtr (string * Z)) :
  (cell.Set_ cell.any_text cell.never_stale g v ver st).1 = None.
Proof. unfold cell.Set_. simpl. by destruct (st !! g) as [[? ?]|]. Qed.

(** After the two ticks of the poll scenario, a tick in which b has
    changed again sends b alone, with version 3. *)
Lemma getValues_tick_witness :
  spec.poll_wf scenario.polled_watcher ∧
  (length (redis.keys scenario.polled_watcher)
   ≤ length [Some "1"; Some "4"])%nat ∧
  ∃ w',
    redis.getValues scenario.plain scenario.polled_watcher
      (redis.MGetOk [Some "1"; Some "4"])
    = Some (w', Some [Some (change.New SourceRedis "b" "4" 3)]) ∧
    spec.poll_wf w' ∧ redis.keys w' = ["a"; "b"].
Proof.
  assert (Hwf : spec.poll_wf scenario.polled_watcher) by (split; reflexivity).
  assert (Hlen : (length (redis.keys scenario.polled_watcher)
                  ≤ length [Some "1"; Some "4"])%nat) by (simpl; lia).
  split; [exact Hwf|]. split; [exact Hlen|].
  destruct (getValues_tick scenario.plain scenario.polled_watcher
              [Some "1"; Some "4"] Hwf Hlen)
    as (w' & Heq & Hwf' & Hkeys & _).
  exists w'. split; [exact Heq|]. split; [exact Hwf'|exact Hkeys].
Defined.

(** An answer with one entry for the two keys. *)
Lemma getValues_panics_witness :
  spec.poll_wf scenario.poll_watcher ∧
  (redis.getValues scenario.plain scenario.poll_watcher
     (redis.MGetOk [Some "1"]) = None ↔
   (length [Some "1"] < length (redis.keys scenario.poll_watcher))%nat).
Proof.
  assert (Hwf : spec.poll_wf scenario.poll_watcher) by (split; reflexivity).
  split; [exact Hwf|].
  exact (getValues_panics_iff_short scenario.plain scenario.poll_watcher
           [Some "1"] Hwf).
Defined.

(** The answer of the first tick of the poll scenario, given twice. *)
Lemma getValues_same_answer_witness :
  spec.poll_wf scenario.poll_watcher ∧
  length [Some "1"; Some "2"] = length (redis.keys scenario.poll_watcher) ∧
  redis.getValues scenario.plain scenario.poll_watcher
    (redis.MGetOk [Some "1"; Some "2"])
  = Some (scenario.ticked_watcher,
          Some [Some (change.New SourceRedis "a" "1" 1);
                Some (change.New SourceRedis "b" "2" 1)]) ∧
  redis.getValues scenario.plain scenario.ticked_watcher
    (redis.MGetOk [Some "1"; Some "2"])
  = Some (scenario.ticked_watcher, None).
Proof.
  assert (Hwf : spec.poll_wf scenario.poll_watcher) by (split; reflexivity).
  assert (Hlen : length [Some "1"; Some "2"]
                 = length (redis.keys scenario.poll_watcher)) by reflexivity.
  assert (Hfirst :
    redis.getValues scenario.plain scenario.poll_watcher
      (redis.MGetOk [Some "1"; Some "2"])
    = Some (scenario.ticked_watcher,
            Some [Some (change.New SourceRedis "a" "1" 1);
                  Some (change.New SourceRedis "b" "2" 1)])) by reflexivity.
  split; [exact Hwf|]. split; [exact Hlen|]. split; [exact Hfirst|].
  exact (getValues_same_answer_twice scenario.plain scenario.poll_watcher
           scenario.ticked_watcher [Some "1"; Some "2"] _ Hwf Hlen Hfirst).
Defined.

(** The first tick of a new watcher for a and b, when a has a value and b
    has none. *)
Lemma first_tick_witness :
  (∀ v, scenario.tagged v ≠ "") ∧
  redis.New (Some tt) 100 ["a"; "b"] = inl scenario.poll_watcher ∧
  length [Some "1"; None] = length ["a"; "b"] ∧
  ∃ w1,
    redis.getValues scenario.tagged scenario.poll_watcher
      (redis.MGetOk [Some "1"; None])
    = Some (w1, Some [Some (change.New SourceRedis "a" "1" 1)]).
Proof.
  assert (Hnew : redis.New (Some tt) 100 ["a"; "b"]
                 = inl scenario.poll_watcher) by reflexivity.
  assert (Hlen : length [Some "1"; None] = length ["a"; "b"])
    by reflexivity.
  split; [exact tagged_not_empty|]. split; [exact Hnew|].
  split; [exact Hlen|].
  exact (first_tick_sends_every_value scenario.tagged (Some tt) 100
           ["a"; "b"] scenario.poll_watcher [Some "1"; None]
           tagged_not_empty Hnew Hlen).
Defined.

(** The two ticks of the poll scenario, run one after the other. *)
Lemma monitor_composes_witness :
  spec.not_done [redis.Tick (redis.MGetOk [Some "1"; Some "2"])] ∧
  redis.monitor scenario.plain scenario.poll_watcher scenario.poll_ticks
  = match redis.monitor scenario.plain scenario.poll_watcher
            [redis.Tick (redis.MGetOk [Some "1"; Some "2"])] with
    | None => None
    | Some (w1, out1) =>
        match redis.monitor scenario.plain w1
                [redis.Tick (redis.MGetOk [Some "1"; Some "3"])] with
        | None => None
        | Some (w2, out2) => Some (w2, out1 ++ out2)
        end
    end.
Proof.
  assert (Hnd : spec.not_done
                  [redis.Tick (redis.MGetOk [Some "1"; Some "2"])])
    by (repeat constructor; discriminate).
  split; [exact Hnd|].
  exact (proj2 (monitor_stops_and_composes scenario.plain
                  scenario.poll_watcher
                  [redis.Tick (redis.MGetOk [Some "1"; Some "2"])]
                  [redis.Tick (redis.MGetOk [Some "1"; Some "3"])]) Hnd).
Defined.

(** The run of the poll scenario. *)
Lemma monitor_run_witness :
  redis.New (Some tt) 100 ["a"; "b"] = inl scenario.poll_watcher ∧
  Forall (spec.poll_sized (length ["a"; "b"])) scenario.poll_ticks ∧
  ∃ w out,
    redis.monitor scenario.plain scenario.poll_watcher scenario.poll_ticks
    = Some (w, out) ∧
    spec.poll_wf w ∧ redis.keys w = ["a"; "b"] ∧
    Forall spec.is_uint64 (redis.versions w) ∧
    Forall (λ b, b ≠ [] ∧ Forall (spec.poll_change ["a"; "b"]) b) out.
Proof.
  assert (Hnew : redis.New (Some tt) 100 ["a"; "b"]
                 = inl scenario.poll_watcher) by reflexivity.
  assert (Hsized : Forall (spec.poll_sized (length ["a"; "b"]))
                     scenario.poll_ticks)
    by (repeat constructor).
  split; [exact Hnew|]. split; [exact Hsized|].
  exact (monitor_run_is_safe scenario.plain (Some tt) 100 ["a"; "b"]
           scenario.poll_watcher scenario.poll_ticks Hnew Hsized).
Defined.

(** The plan of the key item of the push watcher watches cfg/x and sends
    under x. *)
Lemma Watch_plan_witness :
  consul.ii scenario.push_watcher !! 0%nat
    = Some (consul.NewKeyItemWithPrefix "x" "cfg") ∧
  consul.w_running
    (consul.Watch scenario.join scenario.parse_any true true
       scenario.push_watcher).1 !! 0%nat
    = Some (Some scenario.push_plan) ∧
  ((consul.tp (consul.NewKeyItemWithPrefix "x" "cfg") = "key" ∧
    consul.pl_params scenario.push_plan
    = spec.key_params "dc1" "" (scenario.join "cfg" "x") ∧
    ∃ h, consul.pl_Handler scenario.push_plan = Some h ∧
         ∀ idx d, h idx d = Some (consul.keyHandler "x" idx d)) ∨
   (consul.tp (consul.NewKeyItemWithPrefix "x" "cfg") = "keyprefix" ∧
    consul.pl_params scenario.push_plan
    = spec.prefix_params "dc1" "" "x" ∧
    ∃ h, consul.pl_Handler scenario.push_plan = Some h ∧
         ∀ idx d, h idx d = consul.keyPrefixHandler idx d)).
Proof.
  assert (Hitem : consul.ii scenario.push_watcher !! 0%nat
                  = Some (consul.NewKeyItemWithPrefix "x" "cfg"))
    by reflexivity.
  assert (Hplan :
    consul.w_running
      (consul.Watch scenario.join scenario.parse_any true true
         scenario.push_watcher).1 !! 0%nat
    = Some (Some scenario.push_plan)) by (vm_compute; reflexivity).
  split; [exact Hitem|]. split; [exact Hplan|].
  exact (Watch_plan_of_each_item scenario.join scenario.parse_any
           scenario.push_watcher 0%nat
           (consul.NewKeyItemWithPrefix "x" "cfg")
           (Some scenario.push_plan) Hitem Hplan).
Defined.

(** The mixed batch over the table of the field X. *)
Lemma dispatch_claims_witness :
  monitor.generateMap scenario.route_fields scenario.in_order [0%nat]
    = inl scenario.one_route ∧
  ∃ w' calls,
    monitor.applyChange scenario.route_fields scenario.one_route
      (Some <$> scenario.mixed_batch) cell.empty_world = Some w' ∧
    spec.set_calls (trace w')
      = spec.set_calls (trace cell.empty_world) ++ calls ∧
    Forall (λ call : FieldPtr * string * Z,
              ∃ c, c ∈ scenario.mixed_batch ∧
                   change.Source c ≠ SourceSeed ∧
                   call = (call.1.1, change.Value c, change.Version c) ∧
                   call.1.1 ∈ [0%nat] ∧
                   spec.claims scenario.route_fields call.1.1
                     (change.Source c) (change.Key c))
           calls.
Proof.
  assert (Hmap : monitor.generateMap scenario.route_fields scenario.in_order
                   [0%nat] = inl scenario.one_route)
    by (vm_compute; reflexivity).
  split; [exact Hmap|].
  exact (dispatch_sets_claiming_fields_only scenario.route_fields
           scenario.in_order in_order_perm [0%nat] scenario.one_route
           scenario.mixed_batch cell.empty_world Hmap).
Defined.

(** A field with a consul key and a redis key, its sources visited in one
    order and in the opposite one. *)
Lemma range_order_witness :
  (∀ (A : Type) (l : list A), scenario.reversed A l ≡ₚ l) ∧
  match monitor.generateMap scenario.stores_fields scenario.in_order
          [0%nat],
        monitor.generateMap scenario.stores_fields scenario.reversed
          [0%nat] with
  | inl mp, inl mp' => ∀ s k, spec.route mp s k = spec.route mp' s k
  | inr _, inr _ => True
  | _, _ => False
  end.
Proof.
  split; [exact reversed_perm|].
  exact (routes_do_not_depend_on_range_order scenario.stores_fields
           scenario.in_order in_order_perm scenario.reversed [0%nat]
           reversed_perm).
Defined.

(** A field with a consul key, and a seeder without getters. *)
Lemma seed_needs_getters_witness :
  0%nat ∈ [0%nat] ∧
  spec.needs_getter scenario.no_getter_fields (scenario.process ∅ ∅)
    (seed.New []) 0%nat SourceConsul ∧
  seed.getters (seed.New []) !! SourceConsul = None ∧
  spec.ends_early
    (seed.Seed scenario.no_getter_fields scenario.in_order
       (scenario.process ∅ ∅) (seed.New []) [0%nat] cell.empty_world).2.
Proof.
  assert (Hin : 0%nat ∈ [0%nat]) by left.
  assert (Hneeds : spec.needs_getter scenario.no_getter_fields
                     (scenario.process ∅ ∅) (seed.New []) 0%nat
                     SourceConsul).
  { split; [|by left]. exists "app/balance". by vm_compute. }
  assert (Hnone : seed.getters (seed.New []) !! SourceConsul = None)
    by reflexivity.
  split; [exact Hin|]. split; [exact Hneeds|]. split; [exact Hnone|].
  exact (seed_needs_its_getters scenario.no_getter_fields scenario.in_order
           (scenario.process ∅ ∅) (seed.New []) [0%nat] cell.empty_world
           0%nat SourceConsul Hin Hneeds Hnone).
Defined.

(** Two fields with the flag name level. *)
Lemma seed_flag_names_witness :
  (0 < 1)%nat ∧
  [0%nat; 1%nat] !! 0%nat = Some 0%nat ∧
  [0%nat; 1%nat] !! 1%nat = Some 1%nat ∧
  Sources scenario.same_flag_fields 0%nat !! SourceFlag = Some "level" ∧
  Sources scenario.same_flag_fields 1%nat !! SourceFlag = Some "level" ∧
  spec.ends_early
    (seed.Seed scenario.same_flag_fields scenario.in_order
       (scenario.process ∅ ∅) (seed.New []) [0%nat; 1%nat]
       cell.empty_world).2.
Proof.
  assert (Hlt : (0 < 1)%nat) by lia.
  assert (H0 : [0%nat; 1%nat] !! 0%nat = Some 0%nat) by reflexivity.
  assert (H1 : [0%nat; 1%nat] !! 1%nat = Some 1%nat) by reflexivity.
  assert (Hf : Sources scenario.same_flag_fields 0%nat !! SourceFlag
               = Some "level") by (vm_compute; reflexivity).
  assert (Hg : Sources scenario.same_flag_fields 1%nat !! SourceFlag
               = Some "level") by (vm_compute; reflexivity).
  split; [exact Hlt|]. split; [exact H0|]. split; [exact H1|].
  split; [exact Hf|]. split; [exact Hg|].
  exact (seed_needs_distinct_flag_names scenario.same_flag_fields
           scenario.in_order (scenario.process ∅ ∅) (seed.New [])
           [0%nat; 1%nat] cell.empty_world 0%nat 1%nat 0%nat 1%nat "level"
           Hlt H0 H1 Hf Hg).
Defined.

(** A field with a seed value, a flag, a consul key and a redis key, and
    a seeder with a getter for both stores. *)
Lemma seed_gets_to_its_end_witness :
  (∀ g v ver st,
     (Set_ scenario.all_stores_fields g v ver st).1 = None) ∧
  (∀ f src, f ∈ [0%nat] → src = SourceConsul ∨ src = SourceRedis →
            is_Some (Sources scenario.all_stores_fields f !! src) →
            is_Some (seed.getters scenario.stores_seeder !! src)) ∧
  NoDup (spec.flag_names scenario.all_stores_fields [0%nat]) ∧
  Forall spec.flag_name_ok
    (spec.flag_names scenario.all_stores_fields [0%nat]) ∧
  spec.completes scenario.all_stores_fields (scenario.process ∅ ∅)
    scenario.stores_seeder [0%nat] cell.empty_world = true ∧
  ∃ x, seed.Seed scenario.all_stores_fields scenario.in_order
         (scenario.process ∅ ∅) scenario.stores_seeder [0%nat]
         cell.empty_world
       = (seed.world x,
          seed.Returned
            (seed.seedResult scenario.all_stores_fields
               scenario.in_order x)).
Proof.
  assert (Hset : ∀ g v ver st,
            (Set_ scenario.all_stores_fields g v ver st).1 = None)
    by exact any_text_is_taken.
  assert (Hget : ∀ f src, f ∈ [0%nat] →
            src = SourceConsul ∨ src = SourceRedis →
            is_Some (Sources scenario.all_stores_fields f !! src) →
            is_Some (seed.getters scenario.stores_seeder !! src)).
  { intros f src _ [-> | ->] _.
    - exists scenario.failing. reflexivity.
    - exists (scenario.lookup_in {[ "balance" := ("100.0", 0) ]}).
      reflexivity. }
  assert (Hnd : NoDup (spec.flag_names scenario.all_stores_fields
                         [0%nat])) by (vm_compute; apply NoDup_singleton).
  assert (Hok : Forall spec.flag_name_ok
                  (spec.flag_names scenario.all_stores_fields [0%nat]))
    by (repeat constructor).
  split; [exact Hset|]. split; [exact Hget|]. split; [exact Hnd|].
  split; [exact Hok|].
  exact (seed_gets_to_its_end scenario.all_stores_fields
           scenario.in_order (scenario.process ∅ ∅) scenario.stores_seeder
           [0%nat] cell.empty_world Hset Hget Hnd Hok).
Defined.

(** A flag name with an equals sign: [Seed] applies the seed value and
    panics where it defines the flag, before it reads the file. *)
Example seed_panics_on_refused_flag_name :
  seed.Seed scenario.bad_flag_fields scenario.in_order
    (scenario.process ∅ ∅) (seed.New []) [0%nat] cell.empty_world
  = ({| store := {[ 0%nat := ("INFO", 0) ]};
        trace := [EvSet 0%nat "INFO" 0 None] |},
     seed.Panicked ("flag " +:+ scenario.quoted "a=b" +:+ " contains =")).
Proof. by vm_compute. Qed.

Example refused_flag_name_does_not_complete :
  spec.completes scenario.bad_flag_fields (scenario.process ∅ ∅)
    (seed.New []) [0%nat] cell.empty_world = false.
Proof. by vm_compute. Qed.

(** C4 as stated fails for a key that the watcher was given twice: [New]
    takes the keys as they are, each place has a counter of its own, and
    the versions of the changes sent for the key are 1, 1, 2, 2: the
    second is not one more than the first, and two changes carry every
    version. *)
Lemma repeated_key_repeats_versions :
  redis.New (Some tt) 100 ["a"; "a"] = inl scenario.repeated_watcher ∧
  ∃ out,
    redis.monitor scenario.plain scenario.repeated_watcher
      scenario.repeated_ticks
    = Some (scenario.repeated_polled, out) ∧
    spec.versions_for "a" out = [1; 1; 2; 2] ∧
    ¬ ∃ m, spec.versions_for "a" out = Z.of_nat <$> seq 1 m.
Proof.
  split; [reflexivity|].
  exists [ [Some (change.New SourceRedis "a" "1" 1);
            Some (change.New SourceRedis "a" "1" 1)];
           [Some (change.New SourceRedis "a" "2" 2);
            Some (change.New SourceRedis "a" "2" 2)] ].
  split; [reflexivity|].
  assert (Hvs : spec.versions_for "a"
            [ [Some (change.New SourceRedis "a" "1" 1);
               Some (change.New SourceRedis "a" "1" 1)];
              [Some (change.New SourceRedis "a" "2" 2);
               Some (change.New SourceRedis "a" "2" 2)] ] = [1; 1; 2; 2])
    by reflexivity.
  split; [exact Hvs|].
  rewrite Hvs. intros [m Hm].
  destruct m as [|[|m]]; simpl in Hm; [done|done|].
  injection Hm as Hm _. lia.
Qed.

End MoreScenarios.
